(** * The statsite sink of go-metrics (statsite.go)

    A shallow embedding of [StatsiteSink]: the key formatter, the
    emission operations, the bounded metric queue with its non-blocking
    push, and the delivery goroutine [flushMetrics] with its
    CONNECT / stream / WAIT / QUIT control flow.

    Go values are modelled as follows.
    - A [string] is a sequence of bytes ([String.string]); [[]byte(s)] is
      [list_byte_of_string s]. Where Go reads a string rune by rune
      ([strings.Map]) the bytes are decoded as UTF-8 ([Utf8]); a [rune]
      is a [Z].
    - A [float32] is its IEEE-754 bit pattern, a 32-bit [Z].
    - A buffered [chan string] is a record holding the buffered values,
      the capacity and the closed flag; a nil channel is [None].
    - A call that may block or panic returns an [outcome].
    - [time.Duration] and instants are [Z] nanoseconds. *)

From Stdlib Require Import ZArith String Ascii Strings.Byte DecimalString DecimalN
  Lia Bool.
From stdpp Require Import base list strings.

Local Open Scope string_scope.
Local Open Scope Z_scope.

(** ** Outcomes of Go calls *)

(** What running a piece of Go code can do from the point of view of the
    goroutine that runs it: return, block (a channel operation that is
    not ready), or panic. *)
Inductive outcome (A : Type) : Type :=
| Returns (a : A)
| Blocks
| Panics (msg : string).
Arguments Returns {A} a.
Arguments Blocks {A}.
Arguments Panics {A} msg.

#[global] Instance outcome_ret : MRet outcome := fun A a => Returns a.

#[global] Instance outcome_bind : MBind outcome := fun A B f x =>
  match x with
  | Returns a => f a
  | Blocks => Blocks
  | Panics msg => Panics msg
  end.

(** The newline byte, Go's ["\n"]. *)
Definition nl : string := String (ascii_of_nat 10) EmptyString.

(** ** package unicode/utf8 *)

Module Utf8.

(** A [rune] is a code point, an [int32]. *)
Definition rune : Type := Z.

Definition RuneError : rune := 0xFFFD.
Definition RuneSelf : rune := 0x80.
Definition MaxRune : rune := 0x10FFFF.

(** The value of a byte of a string, and the byte of a value below 256. *)
Definition val (c : ascii) : Z := Z.of_N (N_of_ascii c).
Definition chr (b : Z) : ascii := ascii_of_N (Z.to_N b).

(** Go's conversion [byte(x)]: the low eight bits. *)
Definition byte (x : Z) : Z := Z.land x 0xFF.

(** [s[n:]]. *)
Fixpoint from (n : nat) (s : string) : string :=
  match n, s with
  | S n', String _ s' => from n' s'
  | _, _ => s
  end.

Definition between (lo hi : Z) (c : ascii) : bool :=
  (lo <=? val c) && (val c <=? hi).

(** [utf8.DecodeRuneInString(s)]: the first rune of [s] and its width in
    bytes; [(RuneError, 1)] when [s] does not start with a valid
    encoding, [(RuneError, 0)] when it is empty. The first byte gives
    the width and the range of the second byte, as Go's tables [first]
    and [acceptRanges] do. *)
Definition DecodeRuneInString (s : string) : rune * nat :=
  match s with
  | EmptyString => (RuneError, 0%nat)
  | String s0 t0 =>
      let x := val s0 in
      if x <? RuneSelf then (x, 1%nat)
      else if (x <? 0xC2) || (0xF4 <? x) then (RuneError, 1%nat)
      else
        let sz := if x <? 0xE0 then 2 else if x <? 0xF0 then 3 else 4 in
        let lo := if x =? 0xE0 then 0xA0 else if x =? 0xF0 then 0x90 else 0x80 in
        let hi := if x =? 0xED then 0x9F else if x =? 0xF4 then 0x8F else 0xBF in
        match t0 with
        | EmptyString => (RuneError, 1%nat)
        | String s1 t1 =>
            if negb (between lo hi s1) then (RuneError, 1%nat)
            else if sz <=? 2 then
              (Z.lor (Z.shiftl (Z.land x 0x1F) 6) (Z.land (val s1) 0x3F), 2%nat)
            else
              match t1 with
              | EmptyString => (RuneError, 1%nat)
              | String s2 t2 =>
                  if negb (between 0x80 0xBF s2) then (RuneError, 1%nat)
                  else if sz <=? 3 then
                    (Z.lor (Z.lor (Z.shiftl (Z.land x 0x0F) 12)
                                  (Z.shiftl (Z.land (val s1) 0x3F) 6))
                           (Z.land (val s2) 0x3F), 3%nat)
                  else
                    match t2 with
                    | EmptyString => (RuneError, 1%nat)
                    | String s3 _ =>
                        if negb (between 0x80 0xBF s3) then (RuneError, 1%nat)
                        else
                          (Z.lor (Z.lor (Z.lor (Z.shiftl (Z.land x 0x07) 18)
                                               (Z.shiftl (Z.land (val s1) 0x3F) 12))
                                        (Z.shiftl (Z.land (val s2) 0x3F) 6))
                                 (Z.land (val s3) 0x3F), 4%nat)
                    end
              end
        end
  end.

(** [utf8.AppendRune(nil, r)], the bytes [WriteRune] writes: a rune
    that is negative, above [MaxRune] or a surrogate is written as
    [RuneError]. *)
Definition EncodeRune (r : rune) : string :=
  if (0 <=? r) && (r <=? 0x7F) then String (chr (byte r)) ""
  else if (0 <=? r) && (r <=? 0x7FF) then
    String (chr (Z.lor 0xC0 (byte (Z.shiftr r 6))))
      (String (chr (Z.lor 0x80 (Z.land (byte r) 0x3F))) "")
  else
    let r := if (r <? 0) || (MaxRune <? r) || ((0xD800 <=? r) && (r <=? 0xDFFF))
             then RuneError else r in
    if r <=? 0xFFFF then
      String (chr (Z.lor 0xE0 (byte (Z.shiftr r 12))))
        (String (chr (Z.lor 0x80 (Z.land (byte (Z.shiftr r 6)) 0x3F)))
           (String (chr (Z.lor 0x80 (Z.land (byte r) 0x3F))) ""))
    else
      String (chr (Z.lor 0xF0 (byte (Z.shiftr r 18))))
        (String (chr (Z.lor 0x80 (Z.land (byte (Z.shiftr r 12)) 0x3F)))
           (String (chr (Z.lor 0x80 (Z.land (byte (Z.shiftr r 6)) 0x3F)))
              (String (chr (Z.lor 0x80 (Z.land (byte r) 0x3F))) ""))).

(** The loop [for _, c := range s]: the runes of [s], one turn for
    each; [fuel] bounds the turns, and the length of [s] is enough. *)
Fixpoint range (fuel : nat) (s : string) : list rune :=
  match fuel, s with
  | S fuel', String _ _ =>
      let '(c, width) := DecodeRuneInString s in
      c :: range fuel' (from width s)
  | _, _ => []
  end.

Definition runes (s : string) : list rune := range (String.length s) s.

(** [utf8.ValidString(s)]: no turn of the loop meets an invalid
    encoding. *)
Fixpoint valid (fuel : nat) (s : string) : bool :=
  match fuel, s with
  | S fuel', String _ _ =>
      let '(c, width) := DecodeRuneInString s in
      negb ((c =? RuneError) && (width =? 1)%nat) && valid fuel' (from width s)
  | _, _ => true
  end.

Definition ValidString (s : string) : bool := valid (String.length s) s.

(** [utf8.ValidRune(r)]: [r] can be encoded, it is in range and not a
    surrogate. *)
Definition ValidRune (r : rune) : bool :=
  (0 <=? r) && (r <? 0xD800) || (0xDFFF <? r) && (r <=? MaxRune).

(** The bytes of a sequence of runes. *)
Definition encode (rs : list rune) : string :=
  fold_right (fun r acc => EncodeRune r +:+ acc) "" rs.

End Utf8.

(** ** package strings *)

Module GoStrings.

(** [strings.Join(elems, sep)]. *)
Definition Join (elems : list string) (sep : string) : string :=
  String.concat sep elems.

(** [strings.Map(mapping, s)]: a copy of [s] with each of its runes
    replaced by its image, a rune whose image is negative being
    dropped. Go reads [s] with [range], so that a byte that starts no
    valid encoding is read as [RuneError]. It looks for the first rune
    that the mapping changes or that is such a byte; it returns [s]
    itself when there is none, and otherwise copies the bytes before
    that rune and writes the image of every rune from there on with
    [WriteRune]. The bytes it copies are the encodings of runes that
    are their own images, so in both cases the result is made of the
    encodings of the images, in order, which is what this definition
    computes. *)
Definition Map (mapping : Utf8.rune -> Utf8.rune) (s : string) : string :=
  fold_right (fun c acc =>
                let r := mapping c in
                if 0 <=? r then Utf8.EncodeRune r +:+ acc else acc)
             "" (Utf8.runes s).

End GoStrings.

(** ** package strconv and fmt *)

Module Fmt.

(** A [float32] by its bits: sign (bit 31), biased exponent (bits
    30..23), fraction (bits 22..0). *)
Definition float32 : Type := Z.

Definition f32_sign (v : float32) : bool := Z.testbit v 31.
Definition f32_exp (v : float32) : Z := Z.land (Z.shiftr v 23) 255.
Definition f32_frac (v : float32) : Z := Z.land v (Z.ones 23).

(** [n / d] rounded to the nearest integer, ties to even ([0 <= n],
    [0 < d]); the rounding of strconv's decimal conversion. *)
Definition round_half_even (n d : Z) : Z :=
  let q := n / d in
  let r := n mod d in
  if 2 * r <? d then q
  else if d <? 2 * r then q + 1
  else if Z.even q then q else q + 1.

Definition decimal (n : Z) : string :=
  NilZero.string_of_uint (N.to_uint (Z.to_N n)).

(** The six digits of [0 <= n < 10^6], zero-padded. *)
Definition six_digits (n : Z) : string :=
  match decimal (10 ^ 6 + n) with
  | String _ ds => ds
  | EmptyString => EmptyString
  end.

(** The magnitude of a finite [v] is [significand v * 2 ^ exponent v]. *)
Definition significand (v : float32) : Z :=
  if f32_exp v =? 0 then f32_frac v else f32_frac v + 2 ^ 23.

Definition exponent (v : float32) : Z :=
  if f32_exp v =? 0 then -149 else f32_exp v - 150.

(** The magnitude of [v] in millionths, rounded to the nearest. *)
Definition millionths (v : float32) : Z :=
  if 0 <=? exponent v then significand v * 2 ^ exponent v * 10 ^ 6
  else round_half_even (significand v * 10 ^ 6) (2 ^ (- exponent v)).

(** [strconv.FormatFloat(float64(v), 'f', 6, 32)] as [%f] prints it:
    the exact value of [v] rounded to six decimals. *)
Definition FormatFloat32 (v : float32) : string :=
  if f32_exp v =? 255 then
    if f32_frac v =? 0 then (if f32_sign v then "-Inf" else "+Inf") else "NaN"
  else
    (if f32_sign v then "-" else "")
      +:+ decimal (millionths v / 10 ^ 6) +:+ "."
      +:+ six_digits (millionths v mod 10 ^ 6).

(** Operands of a formatted print. An [error] operand is passed as
    the string of its [Error()] method. *)
Inductive operand : Type :=
| OpString (s : string)
| OpFloat32 (v : float32).

(** One verb applied to one operand. The sink uses [%s] on a string (or
    an error) and [%f] on a float32, and these are what is embedded;
    for any other pairing Go prints the operand in another way or
    reports it, which is rendered here by one marker. *)
Definition verb (c : ascii) (o : operand) : string :=
  match c, o with
  | "s"%char, OpString s => s
  | "f"%char, OpFloat32 v => FormatFloat32 v
  | _, _ => "%!" +:+ String c "(BADVERB)"
  end.

(** [fmt.Sprintf(format, operands...)], for formats whose directives
    are a percent sign and a verb, with as many operands as verbs. *)
Fixpoint Sprintf (format : string) (operands : list operand) : string :=
  match format with
  | EmptyString => EmptyString
  | String "%" EmptyString => "%!(NOVERB)"
  | String "%" (String "%" rest) => String "%" (Sprintf rest operands)
  | String "%" (String c rest) =>
      match operands with
      | o :: operands' => verb c o +:+ Sprintf rest operands'
      | [] => "%!" +:+ String c "(MISSING)" +:+ Sprintf rest []
      end
  | String c rest => String c (Sprintf rest operands)
  end.

End Fmt.

(** ** Channels *)

Module Chan.

(** A buffered channel of strings: [buf] holds the values sent and not
    yet received, oldest first. *)
Record chan : Type := Build {
  buf : list string;
  cap : nat;
  closed : bool;
}.

(** [make(chan string, n)]. *)
Definition make (n : nat) : chan := Build [] n false.

(** [ch <- m] on a possibly nil channel: a nil channel never becomes
    ready, a closed one panics, a full one is not ready. When a
    receiver is parked on the channel Go hands it the value without
    going through the buffer; here that is the send followed by the
    receive of the goroutine, the events [Push] and [Recv] one after
    the other. *)
Definition send (ch : option chan) (m : string) : outcome chan :=
  match ch with
  | None => Blocks
  | Some c =>
      if closed c then Panics "send on closed channel"
      else if (length (buf c) <? cap c)%nat
           then Returns (Build (buf c ++ [m])%list (cap c) (closed c))
           else Blocks
  end.

(** [v, ok := <-ch]: buffered values are delivered first, also after
    the close; a closed and drained channel yields [ok = false]. *)
Definition recv (ch : option chan) : outcome (option string * chan) :=
  match ch with
  | None => Blocks
  | Some c =>
      match buf c with
      | m :: rest => Returns (Some m, Build rest (cap c) (closed c))
      | [] => if closed c then Returns (None, c) else Blocks
      end
  end.

(** [close(ch)]. *)
Definition close (ch : option chan) : outcome chan :=
  match ch with
  | None => Panics "close of nil channel"
  | Some c =>
      if closed c then Panics "close of closed channel"
      else Returns (Build (buf c) (cap c) true)
  end.

End Chan.

(** A [select] with one communication case and a [default:]: the default
    branch runs when the case is not ready. *)
Definition select_default {A} (case : outcome A) (default : A) : outcome A :=
  match case with
  | Blocks => Returns default
  | r => r
  end.

(** ** The sink *)

(** [metrics.Label]. *)
Record Label : Type := { Name : string; Value : string }.

Record StatsiteSink : Type := {
  addr : string;
  metricQueue : option Chan.chan;
}.

Definition set_metricQueue (s : StatsiteSink) (q : option Chan.chan) : StatsiteSink :=
  {| addr := addr s; metricQueue := q |}.

(** Flattens the key for formatting, removes spaces. *)
Definition flattenKey (parts : list string) : string :=
  let joined := GoStrings.Join parts "." in
  GoStrings.Map (fun r =>
    if r =? Utf8.val ":" then Utf8.val "_"
    else if r =? Utf8.val " " then Utf8.val "_"
    else r) joined.

(** Flattens the key along with labels for formatting. *)
Definition flattenKeyLabels (parts : list string) (labels : list Label) : string :=
  let parts := fold_left (fun parts label => (parts ++ [Value label])%list)
                         labels parts in
  flattenKey parts.

(** Does a non-blocking push to the metrics queue. *)
Definition pushMetric (s : StatsiteSink) (m : string) : outcome StatsiteSink :=
  select_default
    (q ← Chan.send (metricQueue s) m; mret (set_metricQueue s (Some q)))
    s.

(** [Shutdown] closes the queue. *)
Definition Shutdown (s : StatsiteSink) : outcome StatsiteSink :=
  q ← Chan.close (metricQueue s); mret (set_metricQueue s (Some q)).

Definition SetGauge (s : StatsiteSink) (key : list string) (val : Fmt.float32) :=
  let flatKey := flattenKey key in
  pushMetric s (Fmt.Sprintf ("%s:%f|g" +:+ nl) [Fmt.OpString flatKey; Fmt.OpFloat32 val]).

Definition SetGaugeWithLabels (s : StatsiteSink) (key : list string)
    (val : Fmt.float32) (labels : list Label) :=
  let flatKey := flattenKeyLabels key labels in
  pushMetric s (Fmt.Sprintf ("%s:%f|g" +:+ nl) [Fmt.OpString flatKey; Fmt.OpFloat32 val]).

Definition EmitKey (s : StatsiteSink) (key : list string) (val : Fmt.float32) :=
  let flatKey := flattenKey key in
  pushMetric s (Fmt.Sprintf ("%s:%f|kv" +:+ nl) [Fmt.OpString flatKey; Fmt.OpFloat32 val]).

Definition IncrCounter (s : StatsiteSink) (key : list string) (val : Fmt.float32) :=
  let flatKey := flattenKey key in
  pushMetric s (Fmt.Sprintf ("%s:%f|c" +:+ nl) [Fmt.OpString flatKey; Fmt.OpFloat32 val]).

Definition IncrCounterWithLabels (s : StatsiteSink) (key : list string)
    (val : Fmt.float32) (labels : list Label) :=
  let flatKey := flattenKeyLabels key labels in
  pushMetric s (Fmt.Sprintf ("%s:%f|c" +:+ nl) [Fmt.OpString flatKey; Fmt.OpFloat32 val]).

Definition AddSample (s : StatsiteSink) (key : list string) (val : Fmt.float32) :=
  let flatKey := flattenKey key in
  pushMetric s (Fmt.Sprintf ("%s:%f|ms" +:+ nl) [Fmt.OpString flatKey; Fmt.OpFloat32 val]).

Definition AddSampleWithLabels (s : StatsiteSink) (key : list string)
    (val : Fmt.float32) (labels : list Label) :=
  let flatKey := flattenKeyLabels key labels in
  pushMetric s (Fmt.Sprintf ("%s:%f|ms" +:+ nl) [Fmt.OpString flatKey; Fmt.OpFloat32 val]).

(** ** package net *)

Module Net.

(** A TCP connection as the sink sees it: [wire] is what the peer has
    been sent so far; [quota] is how many more bytes the connection
    carries before it breaks ([None]: it never does), chosen by the
    environment when the connection is made. *)
Record conn : Type := {
  wire : list byte;
  quota : option nat;
  open : bool;
}.

Definition fresh (q : option nat) : conn :=
  {| wire := []; quota := q; open := true |}.

(** [c.Write(p)] on connection number [c]: the bytes written and the
    error. A short write always comes with an error. *)
Definition Write (net : list conn) (c : nat) (p : list byte)
  : list conn * nat * option string :=
  match net !! c with
  | None => (net, 0%nat, Some "invalid argument")
  | Some k =>
      if negb (open k) then (net, 0%nat, Some "use of closed network connection")
      else
        match quota k with
        | None =>
            (<[c := {| wire := wire k ++ p; quota := None; open := true |}]> net,
             length p, None)
        | Some q =>
            if (length p <=? q)%nat then
              (<[c := {| wire := wire k ++ p;
                         quota := Some (q - length p)%nat;
                         open := true |}]> net,
               length p, None)
            else
              (<[c := {| wire := wire k ++ take q p;
                         quota := Some 0%nat;
                         open := true |}]> net,
               q, Some "write: broken pipe")
        end
  end.

(** [c.Close()]. *)
Definition Close (net : list conn) (c : nat) : list conn :=
  match net !! c with
  | None => net
  | Some k => <[c := {| wire := wire k; quota := quota k; open := false |}]> net
  end.

End Net.

(** ** package bufio *)

Module Bufio.

Definition defaultBufSize : nat := 4096.

(** A [*bufio.Writer] over connection [wr]: [pending] is [b.buf[0:b.n]],
    [err] the sticky error. *)
Record Writer : Type := {
  wr : nat;
  pending : list byte;
  err : option string;
}.

Definition NewWriter (c : nat) : Writer :=
  {| wr := c; pending := []; err := None |}.

Definition Available (b : Writer) : nat := (defaultBufSize - length (pending b))%nat.
Definition Buffered (b : Writer) : nat := length (pending b).

(** [b.Flush()]. *)
Definition Flush (b : Writer) (net : list Net.conn)
  : Writer * list Net.conn * option string :=
  match err b with
  | Some e => (b, net, Some e)
  | None =>
      if (Buffered b =? 0)%nat then (b, net, None)
      else
        let '(net', n, e) := Net.Write net (wr b) (pending b) in
        match e with
        | Some e =>
            ({| wr := wr b; pending := drop n (pending b); err := Some e |},
             net', Some e)
        | None => ({| wr := wr b; pending := []; err := None |}, net', None)
        end
  end.

(** State of the loop of [b.Write(p)]: the writer, the network and the
    bytes of [p] still to be taken. *)
Definition wstate : Type := Writer * list Net.conn * list byte.

Definition write_cond (s : wstate) : bool :=
  let '(b, _, p) := s in
  (Available b <? length p)%nat && bool_decide (err b = None).

Definition write_body (s : wstate) : wstate :=
  let '(b, net, p) := s in
  if (Buffered b =? 0)%nat then
    (* Large write, empty buffer: write directly from p. *)
    let '(net', n, e) := Net.Write net (wr b) p in
    ({| wr := wr b; pending := pending b; err := e |}, net', drop n p)
  else
    let n := Available b in
    let '(b', net', _) :=
      Flush {| wr := wr b; pending := pending b ++ take n p; err := err b |} net in
    (b', net', drop n p).

Fixpoint while (fuel : nat) (s : wstate) : wstate :=
  match fuel with
  | O => s
  | S fuel' => if write_cond s then while fuel' (write_body s) else s
  end.

(** [b.Write(p)]: two turns of the loop are all it can take (the
    first empties the buffer, the second writes through), see
    [write_loop_exits]. *)
Definition Write (b : Writer) (net : list Net.conn) (p : list byte)
  : Writer * list Net.conn * option string :=
  let '(b, net, p) := while 2 (b, net, p) in
  match err b with
  | Some e => (b, net, Some e)
  | None =>
      (* n := copy(b.buf[b.n:], p) *)
      ({| wr := wr b; pending := pending b ++ take (Available b) p; err := None |},
       net, None)
  end.

End Bufio.

(** ** package time *)

Definition Millisecond : Z := 1000000.
Definition Second : Z := 1000 * Millisecond.

(** We force flush the statsite metrics after this period of
    inactivity. *)
Definition flushInterval : Z := 100 * Millisecond.

(** A [*time.Ticker]: the instant of its next fire, whether its channel
    [C] (of capacity one) holds a tick, and whether it was stopped. *)
Record Ticker : Type := {
  period : Z;
  next_fire : Z;
  C : bool;
  stopped : bool;
}.

Definition NewTicker (now d : Z) : Ticker :=
  {| period := d; next_fire := now + d; C := false; stopped := false |}.

(** The ticker after the clock has reached [now]: a tick is left in [C]
    if one was due, ticks that find [C] full are dropped. *)
Definition ticker_advance (now : Z) (t : Ticker) : Ticker :=
  if stopped t || (now <? next_fire t) then t
  else {| period := period t;
          next_fire := next_fire t + ((now - next_fire t) / period t + 1) * period t;
          C := true;
          stopped := false |}.

Definition ticker_take (t : Ticker) : Ticker :=
  {| period := period t; next_fire := next_fire t; C := false; stopped := stopped t |}.

Definition ticker_Stop (t : Ticker) : Ticker :=
  {| period := period t; next_fire := next_fire t; C := C t; stopped := true |}.

(** ** The delivery goroutine *)

(** The places where [flushMetrics] can be: its three labels, the
    [for]/[select] loop that follows CONNECT (STREAM), and after its
    return. *)
Inductive label : Type := CONNECT | STREAM | WAIT | QUIT | RETURNED.

#[global] Instance label_eq_dec : EqDecision label.
Proof. solve_decision. Defined.

(** The local variables of [flushMetrics]. [deferred] lists the
    connections whose [Close] was deferred, the latest first. *)
Record locals : Type := {
  pc : label;
  sock : option nat;
  wait : option Z;
  buffered : option Bufio.Writer;
  ticker : Ticker;
  deferred : list nat;
}.

(** The whole program: the sink, the goroutine, the network, the clock
    and the process log. *)
Record system : Type := {
  sink : StatsiteSink;
  worker : locals;
  net : list Net.conn;
  now : Z;
  log : list string;
}.

Definition with_worker (st : system) (w : locals) : system :=
  {| sink := sink st; worker := w; net := net st; now := now st; log := log st |}.

Definition with_sink (st : system) (s : StatsiteSink) : system :=
  {| sink := s; worker := worker st; net := net st; now := now st; log := log st |}.

Definition with_queue (st : system) (q : option Chan.chan) : system :=
  with_sink st (set_metricQueue (sink st) q).

Definition with_net (st : system) (n : list Net.conn) : system :=
  {| sink := sink st; worker := worker st; net := n; now := now st; log := log st |}.

Definition with_pc (st : system) (l : label) : system :=
  let w := worker st in
  with_worker st {| pc := l; sock := sock w; wait := wait w; buffered := buffered w;
                    ticker := ticker w; deferred := deferred w |}.

Definition with_buffered (st : system) (b : option Bufio.Writer) : system :=
  let w := worker st in
  with_worker st {| pc := pc w; sock := sock w; wait := wait w; buffered := b;
                    ticker := ticker w; deferred := deferred w |}.

Definition with_ticker (st : system) (t : Ticker) : system :=
  let w := worker st in
  with_worker st {| pc := pc w; sock := sock w; wait := wait w; buffered := buffered w;
                    ticker := t; deferred := deferred w |}.

(** [log.Printf(format, err)]. *)
Definition log_Printf (format : string) (e : string) (st : system) : system :=
  {| sink := sink st; worker := worker st; net := net st; now := now st;
     log := (log st ++ [Fmt.Sprintf format [Fmt.OpString e]])%list |}.

(** NewStatsiteSink is used to create a new StatsiteSink: the queue of
    4096 entries and the goroutine, about to run CONNECT. *)
Definition NewStatsiteSink (a : string) : system :=
  {| sink := {| addr := a; metricQueue := Some (Chan.make 4096) |};
     worker := {| pc := CONNECT; sock := None; wait := None; buffered := None;
                  ticker := NewTicker 0 flushInterval; deferred := [] |};
     net := [];
     now := 0;
     log := [] |}.

(** The clock moves on by [d]; the ticker fires if it is due. *)
Definition elapse (d : Z) (st : system) : system :=
  let t := now st + d in
  with_ticker {| sink := sink st; worker := worker st; net := net st;
                 now := t; log := log st |}
    (ticker_advance t (ticker (worker st))).

(** What an observer of the program sees happen to metric lines. *)
Inductive obs : Type :=
| Enqueued (m : string)          (* pushMetric put m on the queue *)
| Dropped (m : string)           (* pushMetric took its default branch *)
| Written (c : nat) (m : string) (* buffered.Write(m) returned nil, on connection c *)
| WriteFailed (c : nat) (m : string)
| Discarded (m : string).        (* received under WAIT *)

(** [goto WAIT], and the first statement under the label. *)
Definition goto_WAIT (st : system) : system :=
  let w := worker st in
  with_worker st {| pc := WAIT; sock := sock w;
                    wait := Some (now st + 5 * Second);
                    buffered := buffered w; ticker := ticker w;
                    deferred := deferred w |}.

(** CONNECT, once [net.Dial] has returned: [inr e] is an error, [inl q]
    a connection of quota [q]. *)
Definition flushMetrics_CONNECT (r : option nat + string) (st : system) : system :=
  let w := worker st in
  match r with
  | inr e =>
      let st := with_worker st {| pc := pc w; sock := None; wait := wait w;
                                  buffered := buffered w; ticker := ticker w;
                                  deferred := deferred w |} in
      goto_WAIT (log_Printf "[ERR] Error connecting to statsite! Err: %s" e st)
  | inl q =>
      let c := length (net st) in
      with_worker (with_net st (net st ++ [Net.fresh q])%list)
        {| pc := STREAM; sock := Some c; wait := wait w;
           buffered := Some (Bufio.NewWriter c); ticker := ticker w;
           deferred := c :: deferred w |}
  end.

(** The case [metric, ok := <-s.metricQueue] of the first select. *)
Definition flushMetrics_STREAM_recv (st : system) : outcome (list obs * system) :=
  '(v, q) ← Chan.recv (metricQueue (sink st));
  let st := with_queue st (Some q) in
  match v with
  | None => mret ([], with_pc st QUIT)
  | Some metric =>
      match buffered (worker st) with
      | None => Panics "invalid memory address or nil pointer dereference"
      | Some b =>
          let '(b', net', e) := Bufio.Write b (net st) (list_byte_of_string metric) in
          let st := with_buffered (with_net st net') (Some b') in
          match e with
          | Some e =>
              mret ([WriteFailed (Bufio.wr b) metric],
                    goto_WAIT (log_Printf "[ERR] Error writing to statsite! Err: %s" e st))
          | None => mret ([Written (Bufio.wr b) metric], st)
          end
      end
  end.

(** The case [<-ticker.C] of the first select. *)
Definition flushMetrics_STREAM_tick (st : system) : outcome (list obs * system) :=
  if negb (C (ticker (worker st))) then Blocks
  else
    let st := with_ticker st (ticker_take (ticker (worker st))) in
    match buffered (worker st) with
    | None => Panics "invalid memory address or nil pointer dereference"
    | Some b =>
        let '(b', net', e) := Bufio.Flush b (net st) in
        let st := with_buffered (with_net st net') (Some b') in
        match e with
        | Some e =>
            mret ([], goto_WAIT (log_Printf "[ERR] Error flushing to statsite! Err: %s" e st))
        | None => mret ([], st)
        end
    end.

(** The case [_, ok := <-s.metricQueue] of the second select. *)
Definition flushMetrics_WAIT_recv (st : system) : outcome (list obs * system) :=
  '(v, q) ← Chan.recv (metricQueue (sink st));
  let st := with_queue st (Some q) in
  match v with
  | None => mret ([], with_pc st QUIT)
  | Some metric => mret ([Discarded metric], st)
  end.

(** The case [<-wait] of the second select. *)
Definition flushMetrics_WAIT_wait (st : system) : outcome (list obs * system) :=
  match wait (worker st) with
  | None => Blocks
  | Some t => if now st <? t then Blocks else mret ([], with_pc st CONNECT)
  end.

(** QUIT, and the return: the deferred calls run, the latest first. *)
Definition flushMetrics_QUIT (st : system) : system :=
  let st := with_queue st None in
  let w := worker st in
  with_worker (with_net st (fold_left Net.Close (deferred w) (net st)))
    {| pc := RETURNED; sock := sock w; wait := wait w; buffered := buffered w;
       ticker := ticker_Stop (ticker w); deferred := [] |}.

(** ** The program as a transition system *)

(** What can happen next: a caller emits a metric line or shuts the sink
    down, time passes, or the goroutine takes its next step, with what
    the environment decides for it. *)
Inductive event : Type :=
| Push (m : string)
| Close
| Elapse (d : Z)
| Dial (r : option nat + string)
| Recv
| Tick
| Wait
| Return.

Definition accepted (s : StatsiteSink) (m : string) : bool :=
  match Chan.send (metricQueue s) m with
  | Returns _ => true
  | _ => false
  end.

(** One step. [Blocks] means the event cannot happen in this state. *)
Definition step (ev : event) (st : system) : outcome (list obs * system) :=
  match ev with
  | Push m =>
      s ← pushMetric (sink st) m;
      mret ([if accepted (sink st) m then Enqueued m else Dropped m], with_sink st s)
  | Close =>
      s ← Shutdown (sink st);
      mret ([], with_sink st s)
  | Elapse d =>
      if d <? 0 then Blocks
      else
        mret ([], elapse d st)
  | Dial r =>
      match pc (worker st) with
      | CONNECT => mret ([], flushMetrics_CONNECT r st)
      | _ => Blocks
      end
  | Recv =>
      match pc (worker st) with
      | STREAM => flushMetrics_STREAM_recv st
      | WAIT => flushMetrics_WAIT_recv st
      | _ => Blocks
      end
  | Tick =>
      match pc (worker st) with
      | STREAM => flushMetrics_STREAM_tick st
      | _ => Blocks
      end
  | Wait =>
      match pc (worker st) with
      | WAIT => flushMetrics_WAIT_wait st
      | _ => Blocks
      end
  | Return =>
      match pc (worker st) with
      | QUIT => mret ([], flushMetrics_QUIT st)
      | _ => Blocks
      end
  end.

(** A run: the events in order, with what was observed. *)
Fixpoint run (evs : list event) (st : system) : outcome (list obs * system) :=
  match evs with
  | [] => mret ([], st)
  | ev :: evs' =>
      '(o1, st1) ← step ev st;
      '(o2, st2) ← run evs' st1;
      mret ((o1 ++ o2)%list, st2)
  end.

(** * The vocabulary of the properties *)

(** ** The steps as a relation *)

(** The steps as a relation, one rule for each way a step returns. *)
Inductive Step (st : system) : event -> list obs -> system -> Prop :=
| Step_push m q :
    metricQueue (sink st) = Some q -> Chan.closed q = false ->
    (length (Chan.buf q) < Chan.cap q)%nat ->
    Step st (Push m) [Enqueued m]
      (with_queue st (Some (Chan.Build (Chan.buf q ++ [m]) (Chan.cap q) false)))
| Step_push_full m q :
    metricQueue (sink st) = Some q -> Chan.closed q = false ->
    (Chan.cap q <= length (Chan.buf q))%nat ->
    Step st (Push m) [Dropped m] (with_sink st (sink st))
| Step_push_nil m :
    metricQueue (sink st) = None ->
    Step st (Push m) [Dropped m] (with_sink st (sink st))
| Step_close q :
    metricQueue (sink st) = Some q -> Chan.closed q = false ->
    Step st Close [] (with_queue st (Some (Chan.Build (Chan.buf q) (Chan.cap q) true)))
| Step_elapse d :
    0 <= d -> Step st (Elapse d) [] (elapse d st)
| Step_dial r :
    pc (worker st) = CONNECT ->
    Step st (Dial r) [] (flushMetrics_CONNECT r st)
| Step_stream_closed q :
    pc (worker st) = STREAM ->
    metricQueue (sink st) = Some q -> Chan.buf q = [] -> Chan.closed q = true ->
    Step st Recv [] (with_pc (with_queue st (Some q)) QUIT)
| Step_stream_write m rest q b b' net' :
    pc (worker st) = STREAM ->
    metricQueue (sink st) = Some q -> Chan.buf q = m :: rest ->
    buffered (worker st) = Some b ->
    Bufio.Write b (net st) (list_byte_of_string m) = (b', net', None) ->
    Step st Recv [Written (Bufio.wr b) m]
      (with_buffered
         (with_net (with_queue st (Some (Chan.Build rest (Chan.cap q) (Chan.closed q))))
            net')
         (Some b'))
| Step_stream_write_err m rest q b b' net' e :
    pc (worker st) = STREAM ->
    metricQueue (sink st) = Some q -> Chan.buf q = m :: rest ->
    buffered (worker st) = Some b ->
    Bufio.Write b (net st) (list_byte_of_string m) = (b', net', Some e) ->
    Step st Recv [WriteFailed (Bufio.wr b) m]
      (goto_WAIT
         (log_Printf "[ERR] Error writing to statsite! Err: %s" e
            (with_buffered
               (with_net
                  (with_queue st (Some (Chan.Build rest (Chan.cap q) (Chan.closed q))))
                  net')
               (Some b'))))
| Step_tick b b' net' :
    pc (worker st) = STREAM -> C (ticker (worker st)) = true ->
    buffered (worker st) = Some b ->
    Bufio.Flush b (net st) = (b', net', None) ->
    Step st Tick []
      (with_buffered
         (with_net (with_ticker st (ticker_take (ticker (worker st)))) net')
         (Some b'))
| Step_tick_err b b' net' e :
    pc (worker st) = STREAM -> C (ticker (worker st)) = true ->
    buffered (worker st) = Some b ->
    Bufio.Flush b (net st) = (b', net', Some e) ->
    Step st Tick []
      (goto_WAIT
         (log_Printf "[ERR] Error flushing to statsite! Err: %s" e
            (with_buffered
               (with_net (with_ticker st (ticker_take (ticker (worker st)))) net')
               (Some b'))))
| Step_wait_closed q :
    pc (worker st) = WAIT ->
    metricQueue (sink st) = Some q -> Chan.buf q = [] -> Chan.closed q = true ->
    Step st Recv [] (with_pc (with_queue st (Some q)) QUIT)
| Step_wait_recv m rest q :
    pc (worker st) = WAIT ->
    metricQueue (sink st) = Some q -> Chan.buf q = m :: rest ->
    Step st Recv [Discarded m]
      (with_queue st (Some (Chan.Build rest (Chan.cap q) (Chan.closed q))))
| Step_wait_fire t :
    pc (worker st) = WAIT -> wait (worker st) = Some t -> t <= now st ->
    Step st Wait [] (with_pc st CONNECT)
| Step_return :
    pc (worker st) = QUIT ->
    Step st Return [] (flushMetrics_QUIT st).

(** The states the program reaches from [NewStatsiteSink a], with the
    events and the observations that lead there. *)
Inductive reach (a : string) : list event -> list obs -> system -> Prop :=
| reach_init : reach a [] [] (NewStatsiteSink a)
| reach_step evs o st ev o1 st1 :
    reach a evs o st -> Step st ev o1 st1 ->
    reach a (evs ++ [ev]) (o ++ o1) st1.

(** ** The queue and the end of the goroutine *)

(** The queue the goroutine and the callers share, as a list. *)
Definition queued (st : system) : list string :=
  match metricQueue (sink st) with
  | Some q => Chan.buf q
  | None => []
  end.

(** Whether the queue has been closed. *)
Definition queue_closed (st : system) : bool :=
  match metricQueue (sink st) with
  | Some q => Chan.closed q
  | None => false
  end.

(** The goroutine has reached QUIT or returned. *)
Definition terminated (st : system) : Prop :=
  pc (worker st) = QUIT \/ pc (worker st) = RETURNED.




(** ** Histories *)

(** The lines put on the queue, in order. *)
Definition enqueued (o : list obs) : list string :=
  omap (fun x => match x with Enqueued m => Some m | _ => None end) o.

(** The lines the goroutine received from the queue, in order. *)
Definition taken (o : list obs) : list string :=
  omap (fun x => match x with
                 | Written _ m | WriteFailed _ m | Discarded m => Some m
                 | _ => None
                 end) o.

(** The lines written to a connection's buffer, in order. *)
Definition written (o : list obs) : list string :=
  omap (fun x => match x with Written _ m => Some m | _ => None end) o.

(** The lines discarded under WAIT. *)
Definition discarded (o : list obs) : list string :=
  omap (fun x => match x with Discarded m => Some m | _ => None end) o.

(** The lines handed to [Write] for connection [c], in order, whether
    the call returned an error or not. *)
Definition handed (c : nat) (o : list obs) : list string :=
  omap (fun x => match x with
                 | Written c' m | WriteFailed c' m =>
                     if decide (c' = c) then Some m else None
                 | _ => None
                 end) o.

(** The lines written, in the order of their writing, each with its
    rank among the lines received from the queue, counted from [n]. *)
Fixpoint deliveries (n : nat) (o : list obs) : list (nat * string) :=
  match o with
  | [] => []
  | Written _ m :: o' => (n, m) :: deliveries (S n) o'
  | WriteFailed _ _ :: o' | Discarded _ :: o' => deliveries (S n) o'
  | _ :: o' => deliveries n o'
  end.

(** The bytes of a sequence of lines. *)
Definition bytes_of (ms : list string) : list byte :=
  concat (map list_byte_of_string ms).

(** ** Invariants *)

(** What holds of the queue and of the goroutine's variables in every
    state the program reaches. *)
Record Inv (st : system) : Prop := {
  inv_queue : pc (worker st) <> RETURNED ->
    exists q, metricQueue (sink st) = Some q /\ Chan.cap q = 4096%nat /\
              (length (Chan.buf q) <= 4096)%nat;
  inv_quit : pc (worker st) = QUIT ->
    exists q, metricQueue (sink st) = Some q /\ Chan.closed q = true /\
              Chan.buf q = [];
  inv_returned : pc (worker st) = RETURNED -> metricQueue (sink st) = None;
  inv_stream : pc (worker st) = STREAM ->
    exists b, buffered (worker st) = Some b /\ Bufio.err b = None /\
              sock (worker st) = Some (Bufio.wr b) /\
              S (Bufio.wr b) = length (net st);
}.

(** [feeds net net' c sent]: from [net] to [net'] connection [c] was
    sent the bytes [sent], and nothing else changed. *)
Definition feeds (net net' : list Net.conn) (c : nat) (sent : list byte) : Prop :=
  length net' = length net /\
  (forall c', c' <> c -> net' !! c' = net !! c') /\
  (forall k, net !! c = Some k ->
     exists k', net' !! c = Some k' /\
                Net.wire k' = (Net.wire k ++ sent)%list /\
                Net.open k' = Net.open k).

(** What the network has of the lines: each connection has received a
    prefix of the bytes of the lines handed to [Write] for it, in
    order; for the connection being streamed to, the bytes sent and the
    bytes pending are exactly those of the lines. *)
Record wire_inv (o : list obs) (st : system) : Prop := {
  wire_prefix : forall c k, net st !! c = Some k ->
    Net.wire k `prefix_of` bytes_of (handed c o);
  wire_stream : forall c k b, net st !! c = Some k ->
    pc (worker st) = STREAM -> buffered (worker st) = Some b -> Bufio.wr b = c ->
    (Net.wire k ++ Bufio.pending b)%list = bytes_of (handed c o);
  wire_fresh : forall c, (length (net st) <= c)%nat -> handed c o = [];
}.

(** Connection [c] exists and the goroutine is not streaming to it. *)
Definition left_behind (c : nat) (st : system) : Prop :=
  (c < length (net st))%nat /\
  (pc (worker st) = STREAM ->
   exists b, buffered (worker st) = Some b /\ Bufio.wr b <> c).

(** The close of connection [c] is deferred, or has been run. *)
Definition will_close (c : nat) (st : system) : Prop :=
  (pc (worker st) <> RETURNED -> c ∈ deferred (worker st)) /\
  (pc (worker st) = RETURNED ->
   exists k, net st !! c = Some k /\ Net.open k = false).

(** ** The key formatter, by the specification *)

(** The replacement the formatter applies to each character, following
    the specification: a space or a colon becomes an underscore. *)
Definition sanitized (c : ascii) : ascii :=
  if decide (c = " "%char \/ c = ":"%char) then "_"%char else c.

(** The same on a character read as a rune. *)
Definition sanitized_rune (r : Utf8.rune) : Utf8.rune :=
  if decide (r = Utf8.val " " \/ r = Utf8.val ":") then Utf8.val "_" else r.

(** A string with each of its bytes replaced in place. *)
Fixpoint map_bytes (f : ascii -> ascii) (s : string) : string :=
  match s with
  | EmptyString => EmptyString
  | String c rest => String (f c) (map_bytes f rest)
  end.

(** ** Decoding, case by case *)

(** What [DecodeRuneInString] returns, case by case: the shortest
    encoding of a code point that is no surrogate, or an error of
    width one. *)
Inductive decoded : string -> Utf8.rune -> nat -> Prop :=
| decoded_empty : decoded "" Utf8.RuneError 0
| decoded_ascii s0 t :
    Utf8.val s0 < 0x80 -> decoded (String s0 t) (Utf8.val s0) 1
| decoded_two s0 s1 t :
    0xC2 <= Utf8.val s0 <= 0xDF -> 0x80 <= Utf8.val s1 <= 0xBF ->
    decoded (String s0 (String s1 t))
      ((Utf8.val s0 - 0xC0) * 64 + (Utf8.val s1 - 0x80)) 2
| decoded_three s0 s1 s2 t :
    0xE0 <= Utf8.val s0 <= 0xEF -> 0x80 <= Utf8.val s1 <= 0xBF ->
    (Utf8.val s0 = 0xE0 -> 0xA0 <= Utf8.val s1) ->
    (Utf8.val s0 = 0xED -> Utf8.val s1 <= 0x9F) ->
    0x80 <= Utf8.val s2 <= 0xBF ->
    decoded (String s0 (String s1 (String s2 t)))
      ((Utf8.val s0 - 0xE0) * 4096 + (Utf8.val s1 - 0x80) * 64
       + (Utf8.val s2 - 0x80)) 3
| decoded_four s0 s1 s2 s3 t :
    0xF0 <= Utf8.val s0 <= 0xF4 -> 0x80 <= Utf8.val s1 <= 0xBF ->
    (Utf8.val s0 = 0xF0 -> 0x90 <= Utf8.val s1) ->
    (Utf8.val s0 = 0xF4 -> Utf8.val s1 <= 0x8F) ->
    0x80 <= Utf8.val s2 <= 0xBF -> 0x80 <= Utf8.val s3 <= 0xBF ->
    decoded (String s0 (String s1 (String s2 (String s3 t))))
      ((Utf8.val s0 - 0xF0) * 262144 + (Utf8.val s1 - 0x80) * 4096
       + (Utf8.val s2 - 0x80) * 64 + (Utf8.val s3 - 0x80)) 4
| decoded_invalid s0 t :
    0x80 <= Utf8.val s0 -> decoded (String s0 t) Utf8.RuneError 1.

(** ** Sample runs *)

(** The state a run ends in ([d] if it does not return). *)
Definition final (d : system) (r : outcome (list obs * system)) : system :=
  match r with
  | Returns (_, st) => st
  | _ => d
  end.

(** Three metric lines, as the emission operations format them. *)
Definition line_a : string := "a:1.000000|c" +:+ nl.
Definition line_b : string := "b:2.000000|g" +:+ nl.
Definition line_c : string := "c:3.000000|ms" +:+ nl.

(** A queue holding as many lines as it can. *)
Definition full_queue : Chan.chan :=
  Chan.Build (repeat line_b 4096) 4096 false.

(** The goroutine streams, a line is in its write buffer, the queue has
    been closed. *)
Definition st_stream_closed : system :=
  final (NewStatsiteSink "h:8125")
    (run [Dial (inl None); Push line_a; Recv; Close] (NewStatsiteSink "h:8125")).

(** The goroutine waits after a failed Dial, two lines are queued. *)
Definition st_waiting : system :=
  final (NewStatsiteSink "h:8125")
    (run [Dial (inr "connection refused"); Push line_a; Push line_b]
       (NewStatsiteSink "h:8125")).

(** A line longer than the write buffer, on a connection that breaks at
    its first byte. *)
Definition long_line : string := string_of_list_ascii (repeat "x"%char 5000).

Definition evs_broken : list event :=
  [Dial (inl (Some 0%nat)); Push long_line].

Definition st_broken : system :=
  final (NewStatsiteSink "h:8125") (run evs_broken (NewStatsiteSink "h:8125")).

(** The goroutine streams, two lines are queued, the queue has been
    closed. *)
Definition evs_shut : list event :=
  [Dial (inl None); Push line_a; Push line_b; Close].

Definition st_shut : system :=
  final (NewStatsiteSink "h:8125") (run evs_shut (NewStatsiteSink "h:8125")).

(** A run with a drop on the full queue aside: a line discarded under
    WAIT, then two lines delivered on the second connection. *)
Definition evs_order : list event :=
  [Dial (inr "connection refused"); Push line_a; Recv;
   Elapse (5 * Second); Wait; Dial (inl None);
   Push line_b; Push line_c; Recv; Recv; Tick].

Definition obs_order : list obs :=
  [Enqueued line_a; Discarded line_a;
   Enqueued line_b; Enqueued line_c;
   Written 0 line_b; Written 0 line_c].

Definition st_order : system :=
  final (NewStatsiteSink "h:8125") (run evs_order (NewStatsiteSink "h:8125")).

(** The goroutine streams, a line is in its write buffer and a tick is
    due. *)
Definition evs_due : list event :=
  [Dial (inl None); Push line_a; Recv; Elapse flushInterval].

Definition st_due : system :=
  final (NewStatsiteSink "h:8125") (run evs_due (NewStatsiteSink "h:8125")).







(** Segments and a label value in UTF-8, with a letter outside ASCII. *)
Definition e_acute : string :=
  String (ascii_of_nat 195) (String (ascii_of_nat 169) "").

Definition utf8_parts : list string := ["caf" +:+ e_acute; "au lait"].

Definition utf8_labels : list Label := [{| Name := "dc"; Value := "eu:west" |}].

(** Segments with a byte that starts no encoding. *)
Definition broken_parts : list string :=
  [String (ascii_of_nat 255) "a:"; e_acute +:+ " "].

(** The goroutine has left the connection that broke, waited, and
    connected again. *)
Definition evs_reconnected : list event :=
  (evs_broken ++ [Recv; Elapse (5 * Second); Wait; Dial (inl None)])%list.

Definition st_reconnected : system :=
  final (NewStatsiteSink "h:8125") (run evs_reconnected (NewStatsiteSink "h:8125")).

(** ** Construction from a URL *)

(** [url.URL], of which the sink reads the host. *)
Record URL : Type := { Scheme : string; Host : string; Path : string }.

(** NewStatsiteSinkFromURL creates an StatsiteSink from a URL: the sink
    for the host, and the error, which is always nil. *)
Definition NewStatsiteSinkFromURL (u : URL) : system * option string :=
  (NewStatsiteSink (Host u), None).

(** ** Counting events and lines *)

(** The lines pushMetric did not put on the queue. *)
Definition dropped (o : list obs) : list string :=
  omap (fun x => match x with Dropped m => Some m | _ => None end) o.

(** The lines whose write returned an error. *)
Definition failed (o : list obs) : list string :=
  omap (fun x => match x with WriteFailed _ m => Some m | _ => None end) o.

(** The number of emissions, of connection attempts and of ticker cases
    in a sequence of events, and the time that passes in it. *)
Fixpoint pushes (evs : list event) : nat :=
  match evs with
  | [] => 0
  | Push _ :: evs' => S (pushes evs')
  | _ :: evs' => pushes evs'
  end.

Fixpoint dials (evs : list event) : nat :=
  match evs with
  | [] => 0
  | Dial _ :: evs' => S (dials evs')
  | _ :: evs' => dials evs'
  end.

Fixpoint ticks (evs : list event) : nat :=
  match evs with
  | [] => 0
  | Tick :: evs' => S (ticks evs')
  | _ :: evs' => ticks evs'
  end.

Fixpoint elapsed (evs : list event) : Z :=
  match evs with
  | [] => 0
  | Elapse d :: evs' => d + elapsed evs'
  | _ :: evs' => elapsed evs'
  end.

(** The events of the goroutine. *)
Definition of_goroutine (ev : event) : bool :=
  match ev with
  | Dial _ | Recv | Tick | Wait | Return => true
  | _ => false
  end.

(** The number of connections made: the calls of [net.Dial] that
    returned no error. *)
Fixpoint connects (evs : list event) : nat :=
  match evs with
  | [] => 0
  | Dial (inl _) :: evs' => S (connects evs')
  | _ :: evs' => connects evs'
  end.

(** ** The clock, the ticker and the reconnection timer *)

(** What holds of the clock, of the ticker and of the timer of WAIT in
    every state the program reaches by the events [evs]. *)
Record Timed (evs : list event) (st : system) : Prop := {
  timed_now : now st = elapsed evs;
  timed_period : period (ticker (worker st)) = flushInterval;
  timed_stopped :
    stopped (ticker (worker st)) = bool_decide (pc (worker st) = RETURNED);
  timed_next : next_fire (ticker (worker st)) <= now st + flushInterval;
  timed_ticks :
    (Z.of_nat (ticks evs) + 1 + (if C (ticker (worker st)) then 1 else 0))
    * flushInterval <= next_fire (ticker (worker st));
  timed_wait : pc (worker st) = WAIT ->
    exists t, wait (worker st) = Some t /\ t <= now st + 5 * Second /\
              Z.of_nat (dials evs) * (5 * Second) <= t;
  timed_connect : pc (worker st) = CONNECT ->
    Z.of_nat (dials evs) * (5 * Second) <= now st;
  timed_dials : Z.of_nat (dials evs) * (5 * Second) <= now st + 5 * Second;
}.

(** ** Connections and the log *)

(** A line of the log: one of the three messages of [flushMetrics],
    with the text of the error. *)
Definition log_line (l : string) : Prop :=
  exists e,
    l = "[ERR] Error connecting to statsite! Err: " +:+ e \/
    l = "[ERR] Error writing to statsite! Err: " +:+ e \/
    l = "[ERR] Error flushing to statsite! Err: " +:+ e.

(** What holds of the connections, of the deferred calls and of the log
    in every state the program reaches by the events [evs]. *)
Record Conns (evs : list event) (st : system) : Prop := {
  conns_length : length (net st) = connects evs;
  conns_deferred : pc (worker st) <> RETURNED ->
    deferred (worker st) = rev (seq 0 (connects evs));
  conns_returned : pc (worker st) = RETURNED -> deferred (worker st) = [];
  conns_log :
    (length (log st) + (if decide (pc (worker st) = STREAM) then 1 else 0)
     <= dials evs)%nat;
  conns_log_lines : Forall log_line (log st);
}.

(** Connection [c] is open and never breaks. *)
Definition healthy (net : list Net.conn) (c : nat) : Prop :=
  exists k, net !! c = Some k /\ Net.quota k = None /\ Net.open k = true.

(** The connections the lines were handed to, in the order of the
    calls of [Write]. *)
Definition conn_of (o : list obs) : list nat :=
  omap (fun x => match x with
                 | Written c _ | WriteFailed c _ => Some c
                 | _ => None
                 end) o.

(** What holds as long as no Dial has succeeded. *)
Record Unconnected (evs : list event) (o : list obs) (st : system) : Prop := {
  unc_pc : pc (worker st) <> STREAM;
  unc_net : net st = [];
  unc_taken : taken o = discarded o;
  unc_written : written o = [];
  unc_failed : failed o = [];
  unc_log : length (log st) = dials evs;
  unc_lines :
    Forall (fun l => exists e, l = "[ERR] Error connecting to statsite! Err: " +:+ e)
           (log st);
}.

(** * Properties of the model *)

(** ** pushMetric, case by case *)

Lemma select_default_never_blocks {A} (case : outcome A) (d : A) :
  select_default case d <> Blocks.
Proof. destruct case; discriminate. Qed.

Lemma pushMetric_nil (s : StatsiteSink) (m : string) :
  metricQueue s = None -> pushMetric s m = Returns s.
Proof. intros H. unfold pushMetric. rewrite H. reflexivity. Qed.

Lemma pushMetric_closed (s : StatsiteSink) (m : string) (q : Chan.chan) :
  metricQueue s = Some q -> Chan.closed q = true ->
  pushMetric s m = Panics "send on closed channel".
Proof. intros H Hc. unfold pushMetric, Chan.send. rewrite H, Hc. reflexivity. Qed.

Lemma pushMetric_room (s : StatsiteSink) (m : string) (q : Chan.chan) :
  metricQueue s = Some q -> Chan.closed q = false ->
  (length (Chan.buf q) < Chan.cap q)%nat ->
  pushMetric s m =
  Returns (set_metricQueue s
             (Some (Chan.Build (Chan.buf q ++ [m]) (Chan.cap q) false))).
Proof.
  intros H Hc Hlen. unfold pushMetric, Chan.send. rewrite H, Hc.
  apply Nat.ltb_lt in Hlen. rewrite Hlen. reflexivity.
Qed.

Lemma pushMetric_full (s : StatsiteSink) (m : string) (q : Chan.chan) :
  metricQueue s = Some q -> Chan.closed q = false ->
  (Chan.cap q <= length (Chan.buf q))%nat ->
  pushMetric s m = Returns s.
Proof.
  intros H Hc Hlen. unfold pushMetric, Chan.send. rewrite H, Hc.
  apply Nat.ltb_ge in Hlen. rewrite Hlen. reflexivity.
Qed.

(** ** Connections and the write buffer *)

Lemma feeds_refl net c : feeds net net c [].
Proof.
  repeat split; auto. intros k Hk. exists k. rewrite app_nil_r. auto.
Qed.

Lemma feeds_trans net net1 net2 c s1 s2 :
  feeds net net1 c s1 -> feeds net1 net2 c s2 -> feeds net net2 c (s1 ++ s2).
Proof.
  intros (Hl1 & Ho1 & Hc1) (Hl2 & Ho2 & Hc2). repeat split.
  - congruence.
  - intros c' Hne. rewrite Ho2, Ho1; auto.
  - intros k Hk. destruct (Hc1 k Hk) as (k1 & Hk1 & Hw1 & Hop1).
    destruct (Hc2 k1 Hk1) as (k2 & Hk2 & Hw2 & Hop2).
    exists k2. rewrite Hw2, Hw1, app_assoc. repeat split; auto. congruence.
Qed.

Lemma Net_Write_spec (net : list Net.conn) c p net' n e :
  Net.Write net c p = (net', n, e) ->
  feeds net net' c (take n p) /\ (n <= length p)%nat /\ (e = None -> n = length p).
Proof.
  unfold Net.Write, feeds. intros H.
  destruct (net !! c) as [k|] eqn:Hk.
  - assert (Hc : (c < length net)%nat) by (eapply lookup_lt_Some; eauto).
    destruct (Net.open k) eqn:Hopen; cbn in H.
    + destruct (Net.quota k) as [q|].
      * destruct (length p <=? q)%nat eqn:Hq; inversion H; subst; clear H.
        -- rewrite length_insert. repeat split; try lia.
           ++ intros c' Hne. rewrite list_lookup_insert_ne; auto.
           ++ intros k0 Hk0. inversion Hk0; subst k0.
              rewrite list_lookup_insert_eq by lia. eexists; split; [reflexivity|].
              cbn. rewrite take_ge by lia. auto.
        -- apply Nat.leb_gt in Hq. rewrite length_insert. repeat split; try lia.
           ++ intros c' Hne. rewrite list_lookup_insert_ne; auto.
           ++ intros k0 Hk0. inversion Hk0; subst k0.
              rewrite list_lookup_insert_eq by lia. eexists; split; [reflexivity|].
              cbn. auto.
           ++ congruence.
      * inversion H; subst; clear H. rewrite length_insert. repeat split; try lia.
        -- intros c' Hne. rewrite list_lookup_insert_ne; auto.
        -- intros k0 Hk0. inversion Hk0; subst k0.
           rewrite list_lookup_insert_eq by lia. eexists; split; [reflexivity|].
           cbn. rewrite take_ge by lia. auto.
    + inversion H; subst; clear H. repeat split; try lia; try congruence.
      intros k0 Hk0. exists k0. rewrite take_0, app_nil_r.
      inversion Hk0; subst. auto.
  - inversion H; subst; clear H. repeat split; try lia; congruence.
Qed.

(** [Flush] sends a prefix of the pending bytes and keeps the rest. *)
Lemma Flush_spec b net b' net' e :
  Bufio.Flush b net = (b', net', e) ->
  Bufio.err b = None ->
  exists sent,
    feeds net net' (Bufio.wr b) sent /\
    (sent ++ Bufio.pending b')%list = Bufio.pending b /\
    Bufio.wr b' = Bufio.wr b /\ Bufio.err b' = e /\
    (e = None -> Bufio.pending b' = []).
Proof.
  unfold Bufio.Flush. intros H Herr. rewrite Herr in H.
  destruct (Bufio.Buffered b =? 0)%nat eqn:Hn.
  - inversion H; subst; clear H. exists []. split; [apply feeds_refl|].
    apply Nat.eqb_eq in Hn. unfold Bufio.Buffered in Hn.
    repeat split; auto. intros _. destruct (Bufio.pending b'); [auto|discriminate].
  - destruct (Net.Write net (Bufio.wr b) (Bufio.pending b)) as [[net1 n] e1] eqn:Hw.
    apply Net_Write_spec in Hw. destruct Hw as (Hf & Hn' & He).
    destruct e1 as [e1|]; inversion H; subst; clear H; cbn.
    + exists (take n (Bufio.pending b)). rewrite take_drop.
      split; [exact Hf|]. repeat split; auto. congruence.
    + exists (Bufio.pending b). rewrite app_nil_r.
      rewrite (He eq_refl), take_ge in Hf by lia.
      split; [exact Hf|]. repeat split; auto.
Qed.

(** One turn of the loop of [Write] loses no byte. *)
Lemma write_body_spec b net p b1 net1 p1 :
  Bufio.write_body (b, net, p) = (b1, net1, p1) ->
  Bufio.err b = None ->
  exists sent,
    feeds net net1 (Bufio.wr b) sent /\
    (sent ++ Bufio.pending b1 ++ p1)%list = (Bufio.pending b ++ p)%list /\
    Bufio.wr b1 = Bufio.wr b.
Proof.
  unfold Bufio.write_body. intros H Herr.
  destruct (Bufio.Buffered b =? 0)%nat eqn:Hn.
  - destruct (Net.Write net (Bufio.wr b) p) as [[net2 n] e1] eqn:Hw.
    apply Net_Write_spec in Hw. destruct Hw as (Hf & Hn' & He).
    inversion H; subst; clear H; cbn.
    exists (take n p). apply Nat.eqb_eq in Hn. unfold Bufio.Buffered in Hn.
    destruct (Bufio.pending b); [|discriminate]. cbn. rewrite take_drop.
    split; [exact Hf|]. auto.
  - destruct (Bufio.Flush _ net) as [[b2 net2] e2] eqn:Hfl.
    apply Flush_spec in Hfl; [|exact Herr]. cbn in Hfl.
    destruct Hfl as (sent & Hf & Hp & Hwr & _).
    inversion H; subst; clear H.
    exists sent. split; [exact Hf|]. split; [|exact Hwr].
    rewrite app_assoc, Hp, <- app_assoc, take_drop. reflexivity.
Qed.

Lemma write_cond_err b net p :
  Bufio.write_cond (b, net, p) = true -> Bufio.err b = None.
Proof.
  unfold Bufio.write_cond. intros H. apply andb_true_iff in H as [_ H].
  apply bool_decide_eq_true in H. exact H.
Qed.

Lemma while_S fuel s :
  Bufio.while (S fuel) s =
  if Bufio.write_cond s then Bufio.while fuel (Bufio.write_body s) else s.
Proof. reflexivity. Qed.

Lemma while_spec fuel b net p b1 net1 p1 :
  Bufio.while fuel (b, net, p) = (b1, net1, p1) ->
  exists sent,
    feeds net net1 (Bufio.wr b) sent /\
    (sent ++ Bufio.pending b1 ++ p1)%list = (Bufio.pending b ++ p)%list /\
    Bufio.wr b1 = Bufio.wr b.
Proof.
  revert b net p. induction fuel as [|fuel IH]; intros b net p H.
  - inversion H; subst. exists []. split; [apply feeds_refl|auto].
  - rewrite while_S in H. destruct (Bufio.write_cond (b, net, p)) eqn:Hc.
    + destruct (Bufio.write_body (b, net, p)) as [[b2 net2] p2] eqn:Hb.
      apply write_body_spec in Hb; [|eapply write_cond_err; eauto].
      destruct Hb as (s1 & Hf1 & Hp1 & Hw1).
      apply IH in H. destruct H as (s2 & Hf2 & Hp2 & Hw2).
      exists (s1 ++ s2)%list. rewrite Hw1 in Hf2. split; [|split].
      * eapply feeds_trans; eauto.
      * rewrite <- Hp1, <- Hp2, <- !app_assoc. reflexivity.
      * congruence.
    + inversion H; subst. exists []. split; [apply feeds_refl|auto].
Qed.

(** After one turn of the loop of [Write] either the writer has failed,
    or the buffer is empty, or nothing is left to write. *)
Lemma write_body_progress b net p b1 net1 p1 :
  Bufio.write_body (b, net, p) = (b1, net1, p1) ->
  Bufio.err b = None ->
  Bufio.err b1 <> None \/ p1 = [] \/
  (Bufio.pending b1 = [] /\ Bufio.Buffered b <> 0%nat).
Proof.
  unfold Bufio.write_body. intros H Herr.
  destruct (Bufio.Buffered b =? 0)%nat eqn:Hn.
  - destruct (Net.Write net (Bufio.wr b) p) as [[net2 n] e1] eqn:Hw.
    apply Net_Write_spec in Hw. destruct Hw as (Hf & Hn' & He).
    inversion H; subst; clear H; cbn.
    destruct e1 as [e1|]; [left; discriminate|right; left].
    rewrite (He eq_refl). apply drop_all.
  - destruct (Bufio.Flush _ net) as [[b2 net2] e2] eqn:Hfl.
    apply Flush_spec in Hfl; [|exact Herr].
    destruct Hfl as (sent & Hf & Hp & Hwr & He & Hnil).
    inversion H; subst; clear H. apply Nat.eqb_neq in Hn.
    destruct (Bufio.err b1) as [e2|]; [left; discriminate|right; right]. auto.
Qed.

(** The loop of [Write] exits within two turns. *)
Lemma write_loop_exits b net p :
  Bufio.write_cond (Bufio.while 2 (b, net, p)) = false.
Proof.
  rewrite while_S. destruct (Bufio.write_cond (b, net, p)) eqn:Hc; [|exact Hc].
  destruct (Bufio.write_body (b, net, p)) as [[b1 net1] p1] eqn:Hb.
  rewrite while_S.
  destruct (Bufio.write_cond (b1, net1, p1)) eqn:Hc1; [|exact Hc1].
  change (Bufio.while 0 ?s) with s.
  destruct (Bufio.write_body (b1, net1, p1)) as [[b2 net2] p2] eqn:Hb2.
  pose proof (write_cond_err _ _ _ Hc) as He.
  pose proof (write_cond_err _ _ _ Hc1) as He1.
  apply write_body_progress in Hb; [|exact He].
  apply write_body_progress in Hb2; [|exact He1].
  unfold Bufio.write_cond in *.
  destruct Hb as [Hb|[Hb|[Hb Hb']]]; [congruence| |].
  - subst p1. apply andb_true_iff in Hc1 as [Hc1 _].
    apply Nat.ltb_lt in Hc1. cbn in Hc1. lia.
  - destruct Hb2 as [Hb2|[Hb2|[_ Hb2]]].
    + apply andb_false_iff. right. apply bool_decide_eq_false. exact Hb2.
    + subst p2. apply andb_false_iff. left. apply Nat.ltb_ge. cbn. lia.
    + exfalso. apply Hb2. unfold Bufio.Buffered. rewrite Hb. reflexivity.
Qed.

(** [Write] sends and buffers bytes of [pending b ++ p] in order; when
    it returns no error, all of them. *)
Lemma Write_spec b net p b' net' e :
  Bufio.Write b net p = (b', net', e) ->
  exists sent,
    feeds net net' (Bufio.wr b) sent /\
    Bufio.wr b' = Bufio.wr b /\ Bufio.err b' = e /\
    (sent ++ Bufio.pending b')%list `prefix_of` (Bufio.pending b ++ p)%list /\
    (e = None -> (sent ++ Bufio.pending b')%list = (Bufio.pending b ++ p)%list).
Proof.
  unfold Bufio.Write. intros H.
  pose proof (write_loop_exits b net p) as Hexit.
  destruct (Bufio.while 2 (b, net, p)) as [[b1 net1] p1] eqn:Hw.
  apply while_spec in Hw. destruct Hw as (sent & Hf & Hp & Hwr).
  destruct (Bufio.err b1) as [e1|] eqn:He1; inversion H; subst; clear H.
  - exists sent. split; [exact Hf|]. repeat split; auto; [|congruence].
    exists p1. rewrite <- Hp, <- app_assoc. reflexivity.
  - unfold Bufio.write_cond in Hexit. rewrite He1 in Hexit.
    rewrite bool_decide_eq_true_2, andb_true_r in Hexit by reflexivity.
    apply Nat.ltb_ge in Hexit.
    exists sent. split; [exact Hf|]. cbn [Bufio.wr Bufio.pending Bufio.err].
    rewrite take_ge by lia.
    rewrite Hp. repeat split; auto.
Qed.

(** A line that fits in the buffer is only buffered. *)
Lemma Write_small b net p :
  Bufio.err b = None ->
  (length (Bufio.pending b) + length p <= Bufio.defaultBufSize)%nat ->
  Bufio.Write b net p =
  ({| Bufio.wr := Bufio.wr b; Bufio.pending := Bufio.pending b ++ p;
      Bufio.err := None |}, net, None).
Proof.
  intros Herr Hlen. unfold Bufio.Write. rewrite while_S.
  assert (Hc : Bufio.write_cond (b, net, p) = false).
  { unfold Bufio.write_cond. apply andb_false_iff. left.
    apply Nat.ltb_ge. unfold Bufio.Available. lia. }
  rewrite Hc, Herr. rewrite take_ge by (unfold Bufio.Available; lia).
  reflexivity.
Qed.

(** ** Steps of the program *)


Lemma run_cons ev evs st :
  run (ev :: evs) st =
  '(o1, st1) ← step ev st; '(o2, st2) ← run evs st1; mret ((o1 ++ o2)%list, st2).
Proof. reflexivity. Qed.

Lemma run_cons_inv ev evs st o st' :
  run (ev :: evs) st = Returns (o, st') ->
  exists o1 st1 o2,
    step ev st = Returns (o1, st1) /\ run evs st1 = Returns (o2, st') /\
    o = (o1 ++ o2)%list.
Proof.
  rewrite run_cons.
  destruct (step ev st) as [[o1 st1]| |] eqn:Hs; cbn; try discriminate.
  destruct (run evs st1) as [[o2 st2]| |] eqn:Hr; cbn; try discriminate.
  intros H. inversion H; subst. exists o1, st1, o2. auto.
Qed.

Lemma run_app evs1 evs2 st :
  run (evs1 ++ evs2) st =
  '(o1, st1) ← run evs1 st; '(o2, st2) ← run evs2 st1; mret ((o1 ++ o2)%list, st2).
Proof.
  revert st. induction evs1 as [|ev evs1 IH]; intros st.
  - cbn. destruct (run evs2 st) as [[o2 st2]| |]; reflexivity.
  - rewrite <- app_comm_cons, !run_cons.
    destruct (step ev st) as [[o1 st1]| |]; cbn; try reflexivity.
    rewrite IH. destruct (run evs1 st1) as [[o2 st2]| |]; cbn; try reflexivity.
    destruct (run evs2 st2) as [[o3 st3]| |]; cbn; try reflexivity.
    rewrite app_assoc. reflexivity.
Qed.

Lemma run_snoc_inv evs ev st o st' :
  run (evs ++ [ev]) st = Returns (o, st') ->
  exists o1 st1 o2,
    run evs st = Returns (o1, st1) /\ step ev st1 = Returns (o2, st') /\
    o = (o1 ++ o2)%list.
Proof.
  rewrite run_app.
  destruct (run evs st) as [[o1 st1]| |] eqn:Hr; cbn; try discriminate.
  destruct (step ev st1) as [[o2 st2]| |] eqn:Hs; cbn; try discriminate.
  intros H. inversion H; subst. rewrite app_nil_r. exists o1, st1, o2. auto.
Qed.

(** The relation holds of the steps that return, and of no others. *)
Lemma step_Step ev st o st' :
  step ev st = Returns (o, st') -> Step st ev o st'.
Proof.
  destruct ev; cbn [step].
  - (* Push *)
    unfold accepted, pushMetric, Chan.send.
    destruct (metricQueue (sink st)) as [q|] eqn:Hq.
    + destruct (Chan.closed q) eqn:Hc; [discriminate|].
      destruct (length (Chan.buf q) <? Chan.cap q)%nat eqn:Hl;
        intros H; inversion H; subst; clear H.
      * apply Nat.ltb_lt in Hl. eapply Step_push; eauto.
      * apply Nat.ltb_ge in Hl. eapply Step_push_full; eauto.
    + intros H; inversion H; subst. apply Step_push_nil; auto.
  - (* Close *)
    unfold Shutdown, Chan.close.
    destruct (metricQueue (sink st)) as [q|] eqn:Hq; [|discriminate].
    destruct (Chan.closed q) eqn:Hc; [discriminate|].
    intros H; inversion H; subst. eapply Step_close; eauto.
  - (* Elapse *)
    destruct (d <? 0) eqn:Hd; [discriminate|].
    intros H; inversion H; subst. apply Step_elapse. lia.
  - (* Dial *)
    destruct (pc (worker st)) eqn:Hpc; try discriminate.
    intros H; inversion H; subst. apply Step_dial; auto.
  - (* Recv *)
    destruct (pc (worker st)) eqn:Hpc; try discriminate.
    + unfold flushMetrics_STREAM_recv, Chan.recv.
      destruct (metricQueue (sink st)) as [q|] eqn:Hq; [|discriminate].
      destruct (Chan.buf q) as [|m rest] eqn:Hb.
      * destruct (Chan.closed q) eqn:Hc; [|discriminate].
        intros H; inversion H; subst. eapply Step_stream_closed; eauto.
      * cbn [mbind mret outcome_bind outcome_ret].
        change (buffered (worker (with_queue st ?x))) with (buffered (worker st)).
        change (net (with_queue st ?x)) with (net st).
        destruct (buffered (worker st)) as [b|] eqn:Hbuf; [|discriminate].
        destruct (Bufio.Write b (net st) (list_byte_of_string m))
          as [[b' net'] [e|]] eqn:Hw; intros H; inversion H; subst; clear H.
        -- eapply Step_stream_write_err; eauto.
        -- eapply Step_stream_write; eauto.
    + unfold flushMetrics_WAIT_recv, Chan.recv.
      destruct (metricQueue (sink st)) as [q|] eqn:Hq; [|discriminate].
      destruct (Chan.buf q) as [|m rest] eqn:Hb.
      * destruct (Chan.closed q) eqn:Hc; [|discriminate].
        intros H; inversion H; subst. eapply Step_wait_closed; eauto.
      * intros H; inversion H; subst. eapply Step_wait_recv; eauto.
  - (* Tick *)
    destruct (pc (worker st)) eqn:Hpc; try discriminate.
    unfold flushMetrics_STREAM_tick.
    destruct (C (ticker (worker st))) eqn:HC; [|discriminate]. cbn [negb].
    change (buffered (worker (with_ticker st ?x))) with (buffered (worker st)).
    change (net (with_ticker st ?x)) with (net st).
    destruct (buffered (worker st)) as [b|] eqn:Hbuf; [|discriminate].
    destruct (Bufio.Flush b (net st)) as [[b' net'] [e|]] eqn:Hf;
      intros H; inversion H; subst; clear H.
    + eapply Step_tick_err; eauto.
    + eapply Step_tick; eauto.
  - (* Wait *)
    destruct (pc (worker st)) eqn:Hpc; try discriminate.
    unfold flushMetrics_WAIT_wait.
    destruct (wait (worker st)) as [t|] eqn:Hw; [|discriminate].
    destruct (now st <? t) eqn:Ht; [discriminate|].
    intros H; inversion H; subst. eapply Step_wait_fire; eauto. lia.
  - (* Return *)
    destruct (pc (worker st)) eqn:Hpc; try discriminate.
    intros H; inversion H; subst. apply Step_return; auto.
Qed.

Lemma Step_step ev st o st' :
  Step st ev o st' -> step ev st = Returns (o, st').
Proof.
  intros H. destruct H; cbn [step].
  - unfold accepted, pushMetric, Chan.send. rewrite H, H0.
    apply Nat.ltb_lt in H1. rewrite H1. reflexivity.
  - unfold accepted, pushMetric, Chan.send. rewrite H, H0.
    apply Nat.ltb_ge in H1. rewrite H1. reflexivity.
  - unfold accepted, pushMetric, Chan.send. rewrite H. reflexivity.
  - unfold Shutdown, Chan.close. rewrite H, H0. reflexivity.
  - destruct (d <? 0) eqn:Hd; [lia|reflexivity].
  - rewrite H. reflexivity.
  - rewrite H. unfold flushMetrics_STREAM_recv, Chan.recv. rewrite H0, H1, H2.
    reflexivity.
  - rewrite H. unfold flushMetrics_STREAM_recv, Chan.recv. rewrite H0, H1.
    cbn [mbind mret outcome_bind outcome_ret].
    change (buffered (worker (with_queue st ?x))) with (buffered (worker st)).
    change (net (with_queue st ?x)) with (net st).
    rewrite H2, H3. reflexivity.
  - rewrite H. unfold flushMetrics_STREAM_recv, Chan.recv. rewrite H0, H1.
    cbn [mbind mret outcome_bind outcome_ret].
    change (buffered (worker (with_queue st ?x))) with (buffered (worker st)).
    change (net (with_queue st ?x)) with (net st).
    rewrite H2, H3. reflexivity.
  - rewrite H. unfold flushMetrics_STREAM_tick. rewrite H0. cbn [negb].
    change (buffered (worker (with_ticker st ?x))) with (buffered (worker st)).
    change (net (with_ticker st ?x)) with (net st).
    rewrite H1, H2. reflexivity.
  - rewrite H. unfold flushMetrics_STREAM_tick. rewrite H0. cbn [negb].
    change (buffered (worker (with_ticker st ?x))) with (buffered (worker st)).
    change (net (with_ticker st ?x)) with (net st).
    rewrite H1, H2. reflexivity.
  - rewrite H. unfold flushMetrics_WAIT_recv, Chan.recv. rewrite H0, H1, H2.
    reflexivity.
  - rewrite H. unfold flushMetrics_WAIT_recv, Chan.recv. rewrite H0, H1.
    reflexivity.
  - rewrite H. unfold flushMetrics_WAIT_wait. rewrite H0.
    destruct (now st <? t) eqn:Ht; [lia|reflexivity].
  - rewrite H. reflexivity.
Qed.

(** ** What holds in every state the program reaches *)

Lemma Inv_init a : Inv (NewStatsiteSink a).
Proof.
  split; cbn; try discriminate.
  intros _. eexists; split; [reflexivity|]. cbn. split; [reflexivity|lia].
Qed.

(** Uses the invariant at the place where the goroutine is. *)
Ltac use_inv :=
  repeat match goal with
    | H : pc (worker ?st) = ?l, Hx : pc (worker ?st) = ?l -> _ |- _ =>
        specialize (Hx H)
    | H : pc (worker ?st) <> ?l, Hx : pc (worker ?st) <> ?l -> _ |- _ =>
        specialize (Hx H)
    | H : pc (worker ?st) = ?l, Hx : pc (worker ?st) <> RETURNED -> _ |- _ =>
        specialize (Hx ltac:(rewrite H; discriminate))
    | H : ex _ |- _ => destruct H
    | H : _ /\ _ |- _ => destruct H
    end.

(** Brings in what a call of Write or Flush in the context did. *)
Ltac use_bufio :=
  try match goal with
    | H : Bufio.Write _ _ _ = _ |- _ =>
        let Hf := fresh "Hfeeds" in
        destruct (Write_spec _ _ _ _ _ _ H) as (? & Hf & ? & ? & ? & ?);
        pose proof (proj1 Hf)
    | H : Bufio.Flush ?b _ = _, He : Bufio.err ?b = None |- _ =>
        let Hf := fresh "Hfeeds" in
        destruct (Flush_spec _ _ _ _ _ H He) as (? & Hf & ? & ? & ? & ?);
        pose proof (proj1 Hf)
    end.

(** Closes the routine cases of the preservation of the invariant. *)
Ltac solve_inv :=
  use_inv; simplify_eq; use_bufio;
  repeat match goal with
    | H : Chan.buf ?q = _, H' : context [Chan.buf ?q] |- _ =>
        rewrite H in H'; cbn in H'
    end;
  try solve [ repeat first [eexists | split | reflexivity]; cbn;
              repeat match goal with
                | H : Chan.buf ?q = _ |- context [Chan.buf ?q] => rewrite H
                end;
              rewrite ?length_app; cbn in *; eauto; try lia; try congruence ].

Lemma Inv_Step ev st o st' : Inv st -> Step st ev o st' -> Inv st'.
Proof.
  intros [Hq Hquit Hret Hstream] H.
  destruct H; try destruct r; split; cbn; intros Hpc; try congruence; solve_inv.
Qed.

Lemma Inv_run evs st o st' : Inv st -> run evs st = Returns (o, st') -> Inv st'.
Proof.
  revert st o. induction evs as [|ev evs IH]; intros st o Hinv H.
  - inversion H; subst. exact Hinv.
  - apply run_cons_inv in H. destruct H as (o1 & st1 & o2 & Hs & Hr & _).
    eapply IH; [|exact Hr]. eapply Inv_Step; [exact Hinv|].
    apply step_Step. exact Hs.
Qed.

(** ** Closing connections *)

Lemma Net_Close_length net c : length (Net.Close net c) = length net.
Proof.
  unfold Net.Close. destruct (net !! c); [apply length_insert|reflexivity].
Qed.

Lemma Net_Close_lookup net c c' k :
  net !! c' = Some k ->
  exists k', Net.Close net c !! c' = Some k' /\ Net.wire k' = Net.wire k /\
             Net.open k' = (if decide (c = c') then false else Net.open k).
Proof.
  intros Hk. unfold Net.Close. destruct (decide (c = c')) as [->|Hne].
  - rewrite Hk. rewrite list_lookup_insert_eq by (eapply lookup_lt_Some; eauto).
    eexists; split; [reflexivity|]. auto.
  - destruct (net !! c) as [k0|] eqn:Hk0.
    + rewrite list_lookup_insert_ne by exact Hne. eauto.
    + eauto.
Qed.

Lemma Net_Close_all cs net c k :
  net !! c = Some k ->
  exists k', fold_left Net.Close cs net !! c = Some k' /\
             Net.wire k' = Net.wire k /\
             (c ∈ cs -> Net.open k' = false) /\
             (Net.open k = false -> Net.open k' = false).
Proof.
  revert net k. induction cs as [|c0 cs IH]; intros net k Hk; cbn.
  - exists k. repeat split; auto. intros Hin. inversion Hin.
  - destruct (Net_Close_lookup net c0 c k Hk) as (k1 & Hk1 & Hw1 & Ho1).
    destruct (IH _ _ Hk1) as (k2 & Hk2 & Hw2 & Hin2 & Ho2).
    exists k2. split; [exact Hk2|]. split; [congruence|]. split.
    + intros Hin. apply elem_of_cons in Hin as [->|Hin]; [|auto].
      apply Ho2. rewrite Ho1. destruct (decide (c0 = c0)); congruence.
    + intros Hclosed. apply Ho2. rewrite Ho1. destruct (decide (c0 = c)); auto.
Qed.

Lemma Net_Close_all_length cs net : length (fold_left Net.Close cs net) = length net.
Proof.
  revert net. induction cs as [|c cs IH]; intros net; cbn; [reflexivity|].
  rewrite IH. apply Net_Close_length.
Qed.

(** ** A connection the goroutine has left *)

(** A connection left behind stays so, and is sent nothing more. *)
Lemma left_behind_Step c st ev o st' :
  Step st ev o st' -> left_behind c st ->
  left_behind c st' /\
  forall k, net st !! c = Some k ->
    exists k', net st' !! c = Some k' /\ Net.wire k' = Net.wire k.
Proof.
  intros H [Hc Hs]. destruct H; try destruct r; unfold left_behind; cbn;
    try (split; [split; [first [exact Hc | rewrite length_app; cbn; lia]
                        | first [exact Hs | congruence | idtac]]
                | first [ intros k Hk; exists k; split; [exact Hk|reflexivity]
                        | idtac ]]).
  - intros _. eexists; split; [reflexivity|]. cbn. lia.
  - intros k Hk. exists k. rewrite lookup_app_l by exact Hc. auto.
  - destruct (Hs H) as (b0 & Hb0 & Hne). simplify_eq.
    destruct (Write_spec _ _ _ _ _ _ H3) as (sent & (Hl & Ho & _) & Hwr & _).
    split; [split|].
    + lia.
    + intros _. exists b'. split; [reflexivity|congruence].
    + intros k Hk. exists k. rewrite Ho by congruence. auto.
  - destruct (Hs H) as (b0 & Hb0 & Hne). simplify_eq.
    destruct (Write_spec _ _ _ _ _ _ H3) as (sent & (Hl & Ho & _) & Hwr & _).
    split; [split|].
    + lia.
    + discriminate.
    + intros k Hk. exists k. rewrite Ho by congruence. auto.
  - destruct (Hs H) as (b0 & Hb0 & Hne). simplify_eq.
    unfold Bufio.Flush in H2.
    assert (Hfl : length net' = length (net st) /\
                  (forall c', c' <> Bufio.wr b -> net' !! c' = net st !! c') /\
                  Bufio.wr b' = Bufio.wr b).
    { destruct (Bufio.err b); [inversion H2; subst; auto|].
      destruct (Bufio.Buffered b =? 0)%nat; [inversion H2; subst; auto|].
      destruct (Net.Write (net st) (Bufio.wr b) (Bufio.pending b))
        as [[net1 n] e1] eqn:Hw.
      apply Net_Write_spec in Hw. destruct Hw as ((Hl & Ho & _) & _).
      destruct e1; inversion H2; subst; auto. }
    destruct Hfl as (Hl & Ho & Hwr). split; [split|].
    + lia.
    + intros _. exists b'. split; [reflexivity|congruence].
    + intros k Hk. exists k. rewrite Ho by congruence. auto.
  - destruct (Hs H) as (b0 & Hb0 & Hne). simplify_eq.
    unfold Bufio.Flush in H2.
    assert (Hfl : length net' = length (net st) /\
                  (forall c', c' <> Bufio.wr b -> net' !! c' = net st !! c')).
    { destruct (Bufio.err b); [inversion H2; subst; auto|].
      destruct (Bufio.Buffered b =? 0)%nat; [inversion H2; subst; auto|].
      destruct (Net.Write (net st) (Bufio.wr b) (Bufio.pending b))
        as [[net1 n] e1] eqn:Hw.
      apply Net_Write_spec in Hw. destruct Hw as ((Hl & Ho & _) & _).
      destruct e1; inversion H2; subst; auto. }
    destruct Hfl as (Hl & Ho). split; [split|].
    + lia.
    + discriminate.
    + intros k Hk. exists k. rewrite Ho by congruence. auto.
  - split; [split|].
    + rewrite Net_Close_all_length. exact Hc.
    + discriminate.
    + intros k Hk.
      destruct (Net_Close_all (deferred (worker st)) _ _ _ Hk) as (k' & Hk' & Hw & _).
      eauto.
Qed.

Lemma left_behind_run c evs st o st' :
  run evs st = Returns (o, st') -> left_behind c st ->
  left_behind c st' /\
  forall k, net st !! c = Some k ->
    exists k', net st' !! c = Some k' /\ Net.wire k' = Net.wire k.
Proof.
  revert st o. induction evs as [|ev evs IH]; intros st o H Hl.
  - inversion H; subst. split; [exact Hl|]. intros k Hk. eauto.
  - apply run_cons_inv in H. destruct H as (o1 & st1 & o2 & Hs & Hr & _).
    apply step_Step in Hs.
    destruct (left_behind_Step _ _ _ _ _ Hs Hl) as [Hl1 Hw1].
    destruct (IH _ _ Hr Hl1) as [Hl2 Hw2].
    split; [exact Hl2|]. intros k Hk.
    destruct (Hw1 k Hk) as (k1 & Hk1 & Hw1').
    destruct (Hw2 k1 Hk1) as (k2 & Hk2 & Hw2').
    exists k2. split; [exact Hk2|congruence].
Qed.

(** ** Histories *)

Lemma run_reach a evs o st :
  run evs (NewStatsiteSink a) = Returns (o, st) -> reach a evs o st.
Proof.
  revert o st. induction evs as [|ev evs IH] using rev_ind; intros o st H.
  - inversion H; subst. constructor.
  - apply run_snoc_inv in H. destruct H as (o1 & st1 & o2 & Hr & Hs & ->).
    econstructor; [apply IH; exact Hr|apply step_Step; exact Hs].
Qed.

Lemma reach_run a evs o st :
  reach a evs o st -> run evs (NewStatsiteSink a) = Returns (o, st).
Proof.
  induction 1 as [|evs o st ev o1 st1 _ IH Hs].
  - reflexivity.
  - rewrite run_app, IH. cbn [mbind outcome_bind]. rewrite run_cons.
    rewrite (Step_step _ _ _ _ Hs). cbn. rewrite app_nil_r. reflexivity.
Qed.

Lemma reach_Inv a evs o st : reach a evs o st -> Inv st.
Proof.
  induction 1; [apply Inv_init|eapply Inv_Step; eauto].
Qed.

(** The queue is first in, first out: what was put on it is what the
    goroutine has received followed by what is still queued. *)
Lemma reach_fifo a evs o st :
  reach a evs o st -> enqueued o = (taken o ++ queued st)%list.
Proof.
  induction 1 as [|evs o st ev o1 st1 Hr IH Hs].
  - reflexivity.
  - pose proof (reach_Inv _ _ _ _ Hr) as Hinv.
    unfold enqueued, taken in *. rewrite !omap_app, IH. clear IH.
    unfold queued. destruct Hs; cbn; rewrite ?app_nil_r;
      repeat match goal with H : metricQueue _ = _ |- _ => rewrite H end;
      repeat match goal with H : Chan.buf _ = _ |- _ => rewrite H end;
      rewrite <- ?app_assoc; try reflexivity.
    + destruct r; reflexivity.
    + destruct (inv_quit _ Hinv H) as (q & Hq & _ & Hb). rewrite Hq, Hb.
      rewrite app_nil_r. reflexivity.
Qed.

Lemma bytes_of_app l1 l2 : bytes_of (l1 ++ l2) = (bytes_of l1 ++ bytes_of l2)%list.
Proof. unfold bytes_of. rewrite map_app, concat_app. reflexivity. Qed.

Lemma bytes_of_single m : bytes_of [m] = list_byte_of_string m.
Proof. unfold bytes_of. cbn. apply app_nil_r. Qed.

Lemma handed_app c o1 o2 : handed c (o1 ++ o2) = (handed c o1 ++ handed c o2)%list.
Proof. apply omap_app. Qed.

Lemma wire_inv_frame o st o1 st1 :
  wire_inv o st ->
  net st1 = net st ->
  (forall c, handed c o1 = []) ->
  (pc (worker st1) = STREAM ->
   pc (worker st) = STREAM /\ buffered (worker st1) = buffered (worker st)) ->
  wire_inv (o ++ o1) st1.
Proof.
  intros [Hp Hs Hf] Hnet Ho Hpc. split.
  - intros c k Hk. rewrite handed_app, Ho, app_nil_r. rewrite Hnet in Hk. auto.
  - intros c k b Hk Hpc1 Hb Hwr. rewrite handed_app, Ho, app_nil_r.
    rewrite Hnet in Hk. destruct (Hpc Hpc1) as [Hpc0 Hbuf].
    rewrite Hbuf in Hb. eauto.
  - intros c Hc. rewrite handed_app, Ho, app_nil_r. rewrite Hnet in Hc. auto.
Qed.

Lemma prefix_of_app_l {A} (l1 l2 l3 : list A) :
  (l1 ++ l2)%list `prefix_of` l3 -> l1 `prefix_of` l3.
Proof. intros [r ->]. exists (l2 ++ r)%list. rewrite app_assoc. reflexivity. Qed.

(** The streaming goroutine hands the lines [ms] to its writer, which
    sends [sent] and keeps [pending b']. *)
Lemma wire_inv_feed o st o1 st1 b b' net' sent ms :
  wire_inv o st -> Inv st ->
  pc (worker st) = STREAM -> buffered (worker st) = Some b ->
  feeds (net st) net' (Bufio.wr b) sent -> Bufio.wr b' = Bufio.wr b ->
  (sent ++ Bufio.pending b')%list `prefix_of` (Bufio.pending b ++ bytes_of ms)%list ->
  (Bufio.err b' = None ->
   (sent ++ Bufio.pending b')%list = (Bufio.pending b ++ bytes_of ms)%list) ->
  net st1 = net' ->
  (forall c, handed c o1 = if decide (Bufio.wr b = c) then ms else []) ->
  (pc (worker st1) = STREAM ->
   buffered (worker st1) = Some b' /\ Bufio.err b' = None) ->
  wire_inv (o ++ o1) st1.
Proof.
  intros [Hp Hs Hfr] Hinv Hpc Hb (Hlen & Hoth & Hcur) Hwr Hpre Heq Hnet Ho Hpc1.
  destruct (inv_stream _ Hinv Hpc) as (b0 & Hb0 & _ & _ & Hlast).
  rewrite Hb in Hb0. inversion Hb0; subst b0. clear Hb0.
  destruct (lookup_lt_is_Some_2 (net st) (Bufio.wr b)) as [k0 Hk0]; [lia|].
  destruct (Hcur k0 Hk0) as (k1 & Hk1 & Hw1 & _).
  pose proof (Hs _ _ _ Hk0 Hpc Hb eq_refl) as Hfull.
  split.
  - intros c k Hk. rewrite Hnet in Hk. rewrite handed_app, Ho, bytes_of_app.
    destruct (decide (Bufio.wr b = c)) as [<-|Hne].
    + rewrite Hk1 in Hk. inversion Hk; subst k. rewrite Hw1, <- Hfull.
      rewrite <- app_assoc. apply prefix_app.
      eapply prefix_of_app_l. exact Hpre.
    + rewrite Hoth in Hk by congruence. cbn. rewrite app_nil_r. auto.
  - intros c k b1 Hk Hpc' Hb1 Hwr1. rewrite Hnet in Hk.
    destruct (Hpc1 Hpc') as [Hb' Herr]. rewrite Hb' in Hb1.
    inversion Hb1; subst b1. rewrite Hwr in Hwr1. subst c.
    rewrite Hk1 in Hk. inversion Hk; subst k.
    rewrite handed_app, Ho, bytes_of_app.
    destruct (decide (Bufio.wr b = Bufio.wr b)) as [_|Hne]; [|congruence].
    rewrite Hw1, <- Hfull, <- !app_assoc. f_equal. auto.
  - intros c Hc. rewrite Hnet, Hlen in Hc. rewrite handed_app, Ho, Hfr by exact Hc.
    destruct (decide (Bufio.wr b = c)) as [<-|Hne]; [lia|reflexivity].
Qed.

Lemma reach_wire a evs o st : reach a evs o st -> wire_inv o st.
Proof.
  induction 1 as [|evs o st ev o1 st1 Hr IH Hs].
  - split; cbn; intros; try reflexivity; rewrite lookup_nil in *; discriminate.
  - pose proof (reach_Inv _ _ _ _ Hr) as Hinv.
    destruct Hs;
      try (apply (wire_inv_frame o st);
           [ exact IH | reflexivity | intros ?; reflexivity
           | cbn; intros ?; first [congruence | split; [assumption|reflexivity]] ]).
    + (* Dial *)
      destruct r as [q|e].
      * destruct IH as [Hp Hs Hfr]. rewrite app_nil_r. split; cbn.
        -- intros c k Hk. apply lookup_app_Some in Hk as [Hk|[Hlen Hk]]; [eauto|].
           rewrite Hfr by exact Hlen.
           destruct (c - length (net st))%nat; cbn in Hk; [|discriminate].
           inversion Hk; subst. apply prefix_nil.
        -- intros c k b Hk _ Hb Hwr. inversion Hb; subst b. cbn in *. subst c.
           rewrite lookup_app_r, Nat.sub_diag in Hk by lia. inversion Hk; subst.
           rewrite Hfr by lia. reflexivity.
        -- intros c Hc. rewrite length_app in Hc. cbn in Hc. apply Hfr. lia.
      * apply (wire_inv_frame o st);
          [exact IH|reflexivity|intros ?; reflexivity|cbn; discriminate].
    + (* Write *)
      destruct (Write_spec _ _ _ _ _ _ H3) as (sent & Hf & Hwr & Herr & Hpre & Heq).
      eapply (wire_inv_feed o st _ _ b b' net' sent [m]); eauto.
      * rewrite bytes_of_single. exact Hpre.
      * rewrite bytes_of_single. auto.
      * intros c. cbn. destruct (decide (Bufio.wr b = c)); reflexivity.
    + (* Write, with an error *)
      destruct (Write_spec _ _ _ _ _ _ H3) as (sent & Hf & Hwr & Herr & Hpre & Heq).
      eapply (wire_inv_feed o st _ _ b b' net' sent [m]); eauto.
      * rewrite bytes_of_single. exact Hpre.
      * rewrite Herr. discriminate.
      * intros c. cbn. destruct (decide (Bufio.wr b = c)); reflexivity.
      * cbn. discriminate.
    + (* Flush *)
      destruct (inv_stream _ Hinv H) as (b0 & Hb0 & Herr0 & _).
      rewrite H1 in Hb0. inversion Hb0; subst b0.
      destruct (Flush_spec _ _ _ _ _ H2 Herr0) as (sent & Hf & Hpe & Hwr & Herr & Hnil).
      eapply (wire_inv_feed o st _ _ b b' net' sent []); eauto.
      * cbn. rewrite app_nil_r, Hpe. reflexivity.
      * cbn. rewrite app_nil_r. auto.
      * intros c. cbn. destruct (decide (Bufio.wr b = c)); reflexivity.
    + (* Flush, with an error *)
      destruct (inv_stream _ Hinv H) as (b0 & Hb0 & Herr0 & _).
      rewrite H1 in Hb0. inversion Hb0; subst b0.
      destruct (Flush_spec _ _ _ _ _ H2 Herr0) as (sent & Hf & Hpe & Hwr & Herr & Hnil).
      eapply (wire_inv_feed o st _ _ b b' net' sent []); eauto.
      * cbn. rewrite app_nil_r, Hpe. reflexivity.
      * cbn. rewrite app_nil_r. auto.
      * intros c. cbn. destruct (decide (Bufio.wr b = c)); reflexivity.
      * cbn. discriminate.
    + (* Return *)
      destruct IH as [Hp Hs Hfr]. rewrite app_nil_r. split; cbn.
      * intros c k Hk.
        destruct (lookup_lt_is_Some_2 (net st) c) as [k0 Hk0].
        { apply lookup_lt_Some in Hk. rewrite Net_Close_all_length in Hk. exact Hk. }
        destruct (Net_Close_all (deferred (worker st)) _ _ _ Hk0) as (k' & Hk' & Hw & _).
        rewrite Hk' in Hk. inversion Hk; subst k'. rewrite Hw. eauto.
      * discriminate.
      * intros c Hc. rewrite Net_Close_all_length in Hc. auto.
Qed.

(** * The claims *)

(** ** Emission after Shutdown *)

(** Once the goroutine has run QUIT the queue field is nil and a push is
    a silent drop. *)
Lemma pushMetric_after_return st m :
  Inv st -> pc (worker st) = RETURNED ->
  step (Push m) st = Returns ([Dropped m], with_sink st (sink st)).
Proof.
  intros Hinv Hpc. apply Step_step. apply Step_push_nil.
  apply (inv_returned _ Hinv Hpc).
Qed.

(** From Shutdown until the goroutine has run QUIT, every push panics. *)
Lemma push_on_closed_queue_panics st m :
  queue_closed st = true ->
  step (Push m) st = Panics "send on closed channel".
Proof.
  unfold queue_closed. intros Hc. cbn [step].
  destruct (metricQueue (sink st)) as [q|] eqn:Hq; [|discriminate].
  rewrite (pushMetric_closed _ m q Hq Hc). reflexivity.
Qed.

(** C1 (the code departs from it). Shutdown closes the queue; a
    pushMetric that follows, before the goroutine has reached QUIT and
    set the queue field to nil, sends on the closed channel and
    panics: the emission is not a silent drop. *)
Theorem pushMetric_after_Shutdown_panics (a m : string) :
  (s ← Shutdown (sink (NewStatsiteSink a)); pushMetric s m)
    = Panics "send on closed channel" /\
  run [Close; Push m] (NewStatsiteSink a) = Panics "send on closed channel" /\
  run [Dial (inl None); Close; Push m] (NewStatsiteSink a)
    = Panics "send on closed channel" /\
  run [Dial (inr "connection refused"); Close; Recv; Push m] (NewStatsiteSink a)
    = Panics "send on closed channel" /\
  exists st,
    run [Dial (inr "connection refused"); Close; Recv; Return; Push m]
      (NewStatsiteSink a) = Returns ([Dropped m], st).
Proof. repeat split. eexists. reflexivity. Qed.

(** ** The non-blocking push *)

(** C2. pushMetric never blocks; on an open queue of capacity 4096 it
    appends the line at the tail when fewer than 4096 lines are queued,
    and when 4096 are it returns with the sink unchanged. The queue of
    a sink made by NewStatsiteSink has capacity 4096 and never holds
    more, so these are all the cases of an open queue. *)
Theorem pushMetric_never_blocks (s : StatsiteSink) (m : string) :
  pushMetric s m <> Blocks /\
  (forall q, metricQueue s = Some q -> Chan.closed q = false ->
     Chan.cap q = 4096%nat ->
     ((length (Chan.buf q) < 4096)%nat ->
      pushMetric s m =
      Returns (set_metricQueue s (Some (Chan.Build (Chan.buf q ++ [m]) 4096 false)))) /\
     (length (Chan.buf q) = 4096%nat -> pushMetric s m = Returns s)) /\
  (forall a evs o st q,
     run evs (NewStatsiteSink a) = Returns (o, st) ->
     metricQueue (sink st) = Some q ->
     Chan.cap q = 4096%nat /\ (length (Chan.buf q) <= 4096)%nat).
Proof.
  split; [apply select_default_never_blocks|]. split.
  - intros q Hq Hc Hcap. split; intros Hlen.
    + rewrite (pushMetric_room s m q) by (auto; lia). rewrite Hcap. reflexivity.
    + eapply pushMetric_full; eauto. lia.
  - intros a evs o st q Hrun Hq.
    pose proof (Inv_run _ _ _ _ (Inv_init a) Hrun) as Hinv.
    destruct (inv_queue _ Hinv) as (q' & Hq' & Hcap & Hlen).
    + intros Hr. rewrite (inv_returned _ Hinv Hr) in Hq. discriminate.
    + rewrite Hq in Hq'. inversion Hq'; subst. auto.
Qed.

Lemma pushMetric_never_blocks_witness :
  pushMetric {| addr := "h:8125"; metricQueue := Some (Chan.make 4096) |} line_a
  = Returns {| addr := "h:8125";
               metricQueue := Some (Chan.Build [line_a] 4096 false) |} /\
  pushMetric {| addr := "h:8125"; metricQueue := Some full_queue |} line_a
  = Returns {| addr := "h:8125"; metricQueue := Some full_queue |}.
Proof.
  split.
  - apply (proj1 (proj2 (pushMetric_never_blocks
                    {| addr := "h:8125"; metricQueue := Some (Chan.make 4096) |}
                    line_a)) (Chan.make 4096));
      [reflexivity|reflexivity|reflexivity|cbn; lia].
  - apply (proj1 (proj2 (pushMetric_never_blocks
                    {| addr := "h:8125"; metricQueue := Some full_queue |}
                    line_a)) full_queue);
      [reflexivity|reflexivity|reflexivity|].
    vm_compute. reflexivity.
Defined.

(** ** Termination of the goroutine *)

(** Only [close] closes the queue, and the goroutine leaves its loops
    for QUIT only on a closed queue. *)
Lemma Step_closed_or_terminated st ev o st' :
  Step st ev o st' -> ev <> Close ->
  queue_closed st' = true \/ terminated st' ->
  queue_closed st = true \/ terminated st.
Proof.
  unfold queue_closed, terminated.
  intros H Hev. destruct H; try destruct r; cbn; try congruence;
    repeat match goal with H : metricQueue _ = _ |- _ => rewrite H end;
    cbn; intuition congruence.
Qed.

Lemma reach_terminated_closed a evs o st :
  reach a evs o st ->
  queue_closed st = true \/ terminated st -> Close ∈ evs.
Proof.
  induction 1 as [|evs o st ev o1 st1 Hr IH Hs]; intros Ht.
  - unfold terminated in Ht. cbn in Ht. intuition congruence.
  - apply elem_of_app.
    assert (ev = Close \/ ev <> Close) as [->|Hne]
      by (destruct ev; first [left; reflexivity | right; discriminate]).
    + right. apply list_elem_of_singleton. reflexivity.
    + left. apply IH. eapply Step_closed_or_terminated; eauto.
Qed.

(** C3. The goroutine enters QUIT only by receiving from the closed and
    drained queue, in the stream loop or in the WAIT loop, and returns
    only from QUIT; in every run from [NewStatsiteSink] in which it has
    terminated, Shutdown was called; and a failed Dial, Write or Flush
    sends it to WAIT. *)
Theorem QUIT_only_on_closed_queue :
  (forall st ev o st',
     step ev st = Returns (o, st') ->
     pc (worker st) <> QUIT -> pc (worker st') = QUIT ->
     ev = Recv /\ (pc (worker st) = STREAM \/ pc (worker st) = WAIT) /\
     queue_closed st = true /\ queued st = []) /\
  (forall st ev o st',
     step ev st = Returns (o, st') ->
     pc (worker st) <> RETURNED -> pc (worker st') = RETURNED ->
     ev = Return /\ pc (worker st) = QUIT) /\
  (forall a evs o st,
     run evs (NewStatsiteSink a) = Returns (o, st) ->
     terminated st -> Close ∈ evs) /\
  (forall st e o st',
     step (Dial (inr e)) st = Returns (o, st') -> pc (worker st') = WAIT) /\
  (forall st q m rest b b' net' e o st',
     pc (worker st) = STREAM ->
     metricQueue (sink st) = Some q -> Chan.buf q = m :: rest ->
     buffered (worker st) = Some b ->
     Bufio.Write b (net st) (list_byte_of_string m) = (b', net', Some e) ->
     step Recv st = Returns (o, st') -> pc (worker st') = WAIT) /\
  (forall st b b' net' e o st',
     pc (worker st) = STREAM ->
     buffered (worker st) = Some b ->
     Bufio.Flush b (net st) = (b', net', Some e) ->
     step Tick st = Returns (o, st') -> pc (worker st') = WAIT).
Proof.
  repeat apply conj.
  - intros st ev o st' H Hpc Hpc'. apply step_Step in H.
    unfold queue_closed, queued.
    destruct H; try destruct r; cbn in Hpc'; try congruence;
      rewrite H0, H1, H2; auto.
  - intros st ev o st' H Hpc Hpc'. apply step_Step in H.
    destruct H; try destruct r; cbn in Hpc'; try congruence. auto.
  - intros a evs o st H Ht. apply run_reach in H.
    eapply reach_terminated_closed; eauto.
  - intros st e o st' H. apply step_Step in H. inversion H; subst. reflexivity.
  - intros st q m rest b b' net' e o st' Hpc Hq Hb Hbuf Hw H.
    rewrite (Step_step _ _ _ _ (Step_stream_write_err st _ _ _ _ _ _ _ Hpc Hq Hb Hbuf Hw)) in H.
    inversion H; subst. reflexivity.
  - intros st b b' net' e o st' Hpc Hbuf Hf H. apply step_Step in H.
    inversion H; subst; [exfalso; congruence|reflexivity].
Qed.

Lemma QUIT_only_on_closed_queue_witness :
  Recv = Recv /\
  (pc (worker st_stream_closed) = STREAM \/ pc (worker st_stream_closed) = WAIT) /\
  queue_closed st_stream_closed = true /\ queued st_stream_closed = [].
Proof.
  apply (proj1 QUIT_only_on_closed_queue st_stream_closed Recv []
           (final st_stream_closed (step Recv st_stream_closed)));
    [reflexivity|discriminate|reflexivity].
Defined.

(** ** WAIT *)





(** ** Connections that were left, and their closing *)

Lemma left_behind_handed c st ev o st' :
  Step st ev o st' -> left_behind c st -> handed c o = [].
Proof.
  intros H [_ Hs]. destruct H; cbn; try reflexivity;
    destruct (Hs H) as (b0 & Hb0 & Hne); simplify_eq;
    destruct (decide (Bufio.wr b = c)); congruence.
Qed.

Lemma left_behind_run_handed c evs st o st' :
  run evs st = Returns (o, st') -> left_behind c st -> handed c o = [].
Proof.
  revert st o. induction evs as [|ev evs IH]; intros st o H Hl.
  - inversion H; subst. reflexivity.
  - apply run_cons_inv in H. destruct H as (o1 & st1 & o2 & Hs & Hr & ->).
    apply step_Step in Hs. rewrite handed_app.
    rewrite (left_behind_handed _ _ _ _ _ Hs Hl).
    destruct (left_behind_Step _ _ _ _ _ Hs Hl) as [Hl1 _].
    rewrite (IH _ _ Hr Hl1). reflexivity.
Qed.

Lemma will_close_Step c st ev o st' :
  Step st ev o st' -> (c < length (net st))%nat ->
  will_close c st -> will_close c st'.
Proof.
  intros H Hc [Hd Hr]. unfold will_close.
  destruct H; try destruct r; cbn; try (split; [exact Hd|exact Hr]);
    try (split; [intros _; apply Hd; congruence|discriminate]).
  - split; [|discriminate]. intros _. apply elem_of_cons. right. apply Hd. congruence.
  - split; [exact Hd|]. intros Hp. rewrite Hp in H. discriminate.
  - split; [exact Hd|]. intros Hp. rewrite Hp in H. discriminate.
  - split; [congruence|]. intros _.
    destruct (lookup_lt_is_Some_2 (net st) c Hc) as [k Hk].
    destruct (Net_Close_all (deferred (worker st)) _ _ _ Hk) as (k' & Hk' & _ & Hin & _).
    exists k'. split; [exact Hk'|]. apply Hin. apply Hd. congruence.
Qed.

Lemma Step_net_length st ev o st' :
  Step st ev o st' -> (length (net st) <= length (net st'))%nat.
Proof.
  intros H. destruct H; try destruct r; cbn; try lia.
  - rewrite length_app. lia.
  - destruct (Write_spec _ _ _ _ _ _ H3) as (? & (Hl & _) & _). lia.
  - destruct (Write_spec _ _ _ _ _ _ H3) as (? & (Hl & _) & _). lia.
  - unfold Bufio.Flush in H2. destruct (Bufio.err b); [inversion H2; subst; lia|].
    destruct (Bufio.Buffered b =? 0)%nat; [inversion H2; subst; lia|].
    destruct (Net.Write (net st) (Bufio.wr b) (Bufio.pending b)) as [[n1 n] e1] eqn:Hw.
    apply Net_Write_spec in Hw. destruct Hw as ((Hl & _) & _).
    destruct e1; inversion H2; subst; lia.
  - unfold Bufio.Flush in H2. destruct (Bufio.err b); [inversion H2; subst; lia|].
    destruct (Bufio.Buffered b =? 0)%nat; [inversion H2; subst; lia|].
    destruct (Net.Write (net st) (Bufio.wr b) (Bufio.pending b)) as [[n1 n] e1] eqn:Hw.
    apply Net_Write_spec in Hw. destruct Hw as ((Hl & _) & _).
    destruct e1; inversion H2; subst; lia.
  - rewrite Net_Close_all_length. lia.
Qed.

Lemma will_close_run c evs st o st' :
  run evs st = Returns (o, st') -> (c < length (net st))%nat ->
  will_close c st -> will_close c st'.
Proof.
  revert st o. induction evs as [|ev evs IH]; intros st o H Hc Hw.
  - inversion H; subst. exact Hw.
  - apply run_cons_inv in H. destruct H as (o1 & st1 & o2 & Hs & Hr & _).
    apply step_Step in Hs. eapply IH; [exact Hr| |].
    + pose proof (Step_net_length _ _ _ _ Hs). lia.
    + eapply will_close_Step; eauto.
Qed.

(** Every connection made has its close deferred until the goroutine
    returns. *)
Lemma reach_will_close a evs o st :
  reach a evs o st -> forall c, (c < length (net st))%nat -> will_close c st.
Proof.
  induction 1 as [|evs o st ev o1 st1 Hr IH Hs]; intros c Hc.
  - cbn in Hc. lia.
  - destruct (decide (c < length (net st))%nat) as [Hlt|Hge].
    + eapply will_close_Step; eauto.
    + destruct Hs; try destruct r; cbn in Hc; try lia.
      * rewrite length_app in Hc. cbn in Hc.
        assert (c = length (net st)) as -> by lia.
        split; cbn; [|discriminate]. intros _. apply elem_of_cons. auto.
      * destruct (Write_spec _ _ _ _ _ _ H3) as (? & (Hl & _) & _). lia.
      * destruct (Write_spec _ _ _ _ _ _ H3) as (? & (Hl & _) & _). lia.
      * pose proof (reach_Inv _ _ _ _ Hr) as Hinv.
        destruct (inv_stream _ Hinv H) as (b0 & Hb0 & He0 & _). simplify_eq.
        destruct (Flush_spec _ _ _ _ _ H2 He0) as (? & (Hl & _) & _). lia.
      * pose proof (reach_Inv _ _ _ _ Hr) as Hinv.
        destruct (inv_stream _ Hinv H) as (b0 & Hb0 & He0 & _). simplify_eq.
        destruct (Flush_spec _ _ _ _ _ H2 He0) as (? & (Hl & _) & _). lia.
      * rewrite Net_Close_all_length in Hc. lia.
Qed.

(** Until the goroutine returns, every connection it has made is open. *)
Lemma reach_open a evs o st :
  reach a evs o st -> pc (worker st) <> RETURNED ->
  forall c k, net st !! c = Some k -> Net.open k = true.
Proof.
  induction 1 as [|evs o st ev o1 st1 Hr IH Hs]; intros Hpc c k Hk.
  - cbn in Hk. rewrite lookup_nil in Hk. discriminate.
  - pose proof (reach_Inv _ _ _ _ Hr) as Hinv.
    assert (Hfeed : forall net' c0 sent,
               feeds (net st) net' c0 sent -> pc (worker st) <> RETURNED ->
               net' !! c = Some k -> Net.open k = true).
    { intros net' c0 sent (Hl & Ho & Hcur) Hp Hk'.
      destruct (decide (c = c0)) as [->|Hne].
      - destruct (lookup_lt_is_Some_2 (net st) c0) as [k0 Hk0].
        { apply lookup_lt_Some in Hk'. lia. }
        destruct (Hcur k0 Hk0) as (k1 & Hk1 & _ & Hop). simplify_eq.
        rewrite Hop. eapply IH; eauto.
      - rewrite Ho in Hk' by exact Hne. eapply IH; eauto. }
    destruct Hs; try destruct r; cbn in Hpc, Hk;
      try (eapply IH; [congruence|exact Hk]).
    + apply lookup_app_Some in Hk as [Hk|[_ Hk]]; [eapply IH; [congruence|exact Hk]|].
      destruct (c - length (net st))%nat; cbn in Hk; [|discriminate].
      inversion Hk; subst. reflexivity.
    + destruct (Write_spec _ _ _ _ _ _ H3) as (sent & Hf & _).
      eapply Hfeed; eauto; congruence.
    + destruct (Write_spec _ _ _ _ _ _ H3) as (sent & Hf & _).
      eapply Hfeed; eauto; congruence.
    + destruct (inv_stream _ Hinv H) as (b0 & Hb0 & He0 & _). simplify_eq.
      destruct (Flush_spec _ _ _ _ _ H2 He0) as (sent & Hf & _).
      eapply Hfeed; eauto; congruence.
    + destruct (inv_stream _ Hinv H) as (b0 & Hb0 & He0 & _). simplify_eq.
      destruct (Flush_spec _ _ _ _ _ H2 He0) as (sent & Hf & _).
      eapply Hfeed; eauto; congruence.
    + congruence.
Qed.

Lemma append_empty_r (s : string) : s +:+ "" = s.
Proof.
  induction s as [|c s IH]; [reflexivity|].
  change (String c (s +:+ "") = String c s). rewrite IH. reflexivity.
Qed.

Lemma log_line_connecting (e : string) :
  Fmt.Sprintf "[ERR] Error connecting to statsite! Err: %s" [Fmt.OpString e]
  = "[ERR] Error connecting to statsite! Err: " +:+ e.
Proof. cbn. rewrite append_empty_r. reflexivity. Qed.

Lemma log_line_writing (e : string) :
  Fmt.Sprintf "[ERR] Error writing to statsite! Err: %s" [Fmt.OpString e]
  = "[ERR] Error writing to statsite! Err: " +:+ e.
Proof. cbn. rewrite append_empty_r. reflexivity. Qed.

Lemma log_line_flushing (e : string) :
  Fmt.Sprintf "[ERR] Error flushing to statsite! Err: %s" [Fmt.OpString e]
  = "[ERR] Error flushing to statsite! Err: " +:+ e.
Proof. cbn. rewrite append_empty_r. reflexivity. Qed.

(** ** A failed write *)

(** C5. When the write of a received line fails in the stream loop, the
    error is logged and the goroutine goes to WAIT. The connection it
    was streaming to is left, not closed: it is open at that point and
    its close stays among the deferred calls; whatever happens next, no
    line is handed to it and it is sent no further byte, and it stays
    open for as long as the goroutine has not returned. Its deferred
    close runs when the goroutine returns. *)
Theorem write_failure_leaves_connection
    (a : string) (evs0 : list event) (o0 : list obs) (st : system)
    (q : Chan.chan) (m : string) (rest : list string)
    (b b' : Bufio.Writer) (net' : list Net.conn) (e : string) :
  run evs0 (NewStatsiteSink a) = Returns (o0, st) ->
  pc (worker st) = STREAM ->
  metricQueue (sink st) = Some q -> Chan.buf q = m :: rest ->
  buffered (worker st) = Some b ->
  Bufio.Write b (net st) (list_byte_of_string m) = (b', net', Some e) ->
  exists st1,
    step Recv st = Returns ([WriteFailed (Bufio.wr b) m], st1) /\
    pc (worker st1) = WAIT /\
    log st1 = (log st ++ ["[ERR] Error writing to statsite! Err: " +:+ e])%list /\
    sock (worker st) = Some (Bufio.wr b) /\
    (exists k1, net st1 !! Bufio.wr b = Some k1 /\ Net.open k1 = true) /\
    deferred (worker st1) = deferred (worker st) /\
    forall evs o st2, run evs st1 = Returns (o, st2) ->
      handed (Bufio.wr b) o = [] /\
      (forall k1, net st1 !! Bufio.wr b = Some k1 ->
         exists k2, net st2 !! Bufio.wr b = Some k2 /\ Net.wire k2 = Net.wire k1) /\
      (pc (worker st2) <> RETURNED ->
         exists k2, net st2 !! Bufio.wr b = Some k2 /\ Net.open k2 = true) /\
      (pc (worker st2) = RETURNED ->
         exists k2, net st2 !! Bufio.wr b = Some k2 /\ Net.open k2 = false).
Proof.
  intros Hrun Hpc Hq Hb Hbuf Hw.
  pose proof (Step_stream_write_err st _ _ _ _ _ _ _ Hpc Hq Hb Hbuf Hw) as HS.
  apply run_reach in Hrun.
  pose proof (reach_Inv _ _ _ _ Hrun) as Hinv.
  destruct (inv_stream _ Hinv Hpc) as (b0 & Hb0 & He0 & Hsock & Hlast).
  rewrite Hbuf in Hb0. inversion Hb0; subst b0. clear Hb0.
  pose proof (reach_step _ _ _ _ _ _ _ Hrun HS) as Hreach1.
  assert (Hlen : (Bufio.wr b < length net')%nat).
  { destruct (Write_spec _ _ _ _ _ _ Hw) as (? & (Hl & _) & _). lia. }
  eexists. split; [apply Step_step; exact HS|].
  split; [reflexivity|].
  split; [unfold goto_WAIT, log_Printf; cbn [log with_worker];
          rewrite log_line_writing; reflexivity|].
  split; [exact Hsock|].
  match type of Hreach1 with reach _ _ _ ?s => set (st1 := s) in * end.
  assert (Hleft : left_behind (Bufio.wr b) st1).
  { split; [exact Hlen|]. cbn. discriminate. }
  split.
  { destruct (lookup_lt_is_Some_2 (net st1) (Bufio.wr b) Hlen) as [k1 Hk1].
    exists k1. split; [exact Hk1|].
    apply (reach_open _ _ _ _ Hreach1) with (c := Bufio.wr b); [|exact Hk1].
    cbn. discriminate. }
  split; [reflexivity|].
  intros evs o st2 Hr2.
  split; [eapply left_behind_run_handed; eauto|].
  split; [eapply left_behind_run; eauto|].
  split.
  - intros Hnot.
    destruct (left_behind_run _ _ _ _ _ Hr2 Hleft) as [[Hlen2 _] _].
    destruct (lookup_lt_is_Some_2 (net st2) (Bufio.wr b) Hlen2) as [k2 Hk2].
    exists k2. split; [exact Hk2|].
    assert (Hreach2 : reach a ((evs0 ++ [Recv]) ++ evs)
                        ((o0 ++ [WriteFailed (Bufio.wr b) m]) ++ o) st2).
    { apply run_reach. rewrite run_app, (reach_run _ _ _ _ Hreach1).
      cbn [mbind outcome_bind]. rewrite Hr2. reflexivity. }
    exact (reach_open _ _ _ _ Hreach2 Hnot _ _ Hk2).
  - intros Hret.
    assert (Hwc : will_close (Bufio.wr b) st2).
    { eapply will_close_run; [exact Hr2|exact Hlen|].
      eapply reach_will_close; [exact Hreach1|exact Hlen]. }
    apply (proj2 Hwc Hret).
Qed.

Lemma write_failure_leaves_connection_witness :
  exists st1,
    step Recv st_broken = Returns ([WriteFailed 0%nat long_line], st1) /\
    pc (worker st1) = WAIT /\
    log st1 = (log st_broken
               ++ ["[ERR] Error writing to statsite! Err: " +:+ "write: broken pipe"])%list /\
    sock (worker st_broken) = Some 0%nat /\
    (exists k1, net st1 !! 0%nat = Some k1 /\ Net.open k1 = true) /\
    deferred (worker st1) = deferred (worker st_broken) /\
    forall evs o st2, run evs st1 = Returns (o, st2) ->
      handed 0%nat o = [] /\
      (forall k1, net st1 !! 0%nat = Some k1 ->
         exists k2, net st2 !! 0%nat = Some k2 /\ Net.wire k2 = Net.wire k1) /\
      (pc (worker st2) <> RETURNED ->
         exists k2, net st2 !! 0%nat = Some k2 /\ Net.open k2 = true) /\
      (pc (worker st2) = RETURNED ->
         exists k2, net st2 !! 0%nat = Some k2 /\ Net.open k2 = false).
Proof.
  apply (write_failure_leaves_connection "h:8125" evs_broken [Enqueued long_line]
           st_broken (Chan.Build [long_line] 4096 false) long_line []
           (Bufio.NewWriter 0)
           {| Bufio.wr := 0; Bufio.pending := []; Bufio.err := Some "write: broken pipe" |}
           [{| Net.wire := []; Net.quota := Some 0%nat; Net.open := true |}]
           "write: broken pipe");
    vm_compute; reflexivity.
Defined.

(** The connection that broke is still open when the goroutine has
    connected again: two connections are open, and the first is closed
    only by the return of the goroutine. *)
Example broken_connection_stays_open :
  Net.open <$> net st_reconnected = [true; true] /\
  pc (worker st_reconnected) = STREAM /\
  sock (worker st_reconnected) = Some 1%nat /\
  deferred (worker st_reconnected) = [1%nat; 0%nat] /\
  Net.open <$> net (final st_reconnected (run [Close; Recv; Return] st_reconnected))
  = [false; false].
Proof. repeat apply conj; vm_compute; reflexivity. Qed.

(** ** Closure seen in the stream loop *)

(** C10. When the goroutine, in the stream loop, receives from the
    closed and drained queue it goes to QUIT at once: no connection and
    no buffer changes, and whatever happens afterwards no connection is
    sent another byte, so what the write buffer still holds is never
    sent. Flush is called in the ticker case only: any other step of
    the goroutine leaves every connection as it was, a Write included
    as long as the line fits in the buffer (one that does not is
    written through by bufio). *)
Theorem closure_in_stream_skips_flush :
  (forall st q,
     pc (worker st) = STREAM ->
     metricQueue (sink st) = Some q -> Chan.buf q = [] -> Chan.closed q = true ->
     exists st1,
       step Recv st = Returns ([], st1) /\
       pc (worker st1) = QUIT /\ net st1 = net st /\
       buffered (worker st1) = buffered (worker st) /\
       forall evs o st2, run evs st1 = Returns (o, st2) ->
         forall c k, net st !! c = Some k ->
           exists k2, net st2 !! c = Some k2 /\ Net.wire k2 = Net.wire k) /\
  (forall a evs0 o0 st ev o st',
     run evs0 (NewStatsiteSink a) = Returns (o0, st) ->
     step ev st = Returns (o, st') -> ev <> Tick ->
     (forall b m, pc (worker st) = STREAM -> ev = Recv ->
        buffered (worker st) = Some b -> head (queued st) = Some m ->
        (length (Bufio.pending b) + length (list_byte_of_string m)
         <= Bufio.defaultBufSize)%nat) ->
     forall c k, net st !! c = Some k ->
       exists k', net st' !! c = Some k' /\ Net.wire k' = Net.wire k).
Proof.
  split.
  - intros st q Hpc Hq Hb Hc. eexists. split.
    + apply Step_step. eapply Step_stream_closed; eauto.
    + split; [reflexivity|]. split; [reflexivity|]. split; [reflexivity|].
      intros evs o st2 Hr c k Hk.
      match type of Hr with run _ ?s = _ => set (st1 := s) in * end.
      assert (Hleft : left_behind c st1).
      { split; [apply lookup_lt_Some in Hk; exact Hk|]. cbn. discriminate. }
      destruct (left_behind_run _ _ _ _ _ Hr Hleft) as [_ Hw]. apply Hw. exact Hk.
  - intros a evs0 o0 st ev o st' Hrun H Hev Hfit c k Hk.
    apply run_reach in Hrun. pose proof (reach_Inv _ _ _ _ Hrun) as Hinv.
    apply step_Step in H.
    destruct H; try destruct r; cbn; try congruence; eauto.
    + exists k. rewrite lookup_app_l by (eapply lookup_lt_Some; eauto). auto.
    + destruct (inv_stream _ Hinv H) as (b0 & Hb0 & He0 & _).
      rewrite H2 in Hb0. inversion Hb0; subst b0.
      rewrite Write_small in H3; [inversion H3; subst; eauto|exact He0|].
      apply Hfit; auto. unfold queued. rewrite H0, H1. reflexivity.
    + destruct (inv_stream _ Hinv H) as (b0 & Hb0 & He0 & _).
      rewrite H2 in Hb0. inversion Hb0; subst b0.
      rewrite Write_small in H3; [inversion H3|exact He0|].
      apply Hfit; auto. unfold queued. rewrite H0, H1. reflexivity.
    + destruct (Net_Close_all (deferred (worker st)) _ _ _ Hk) as (k' & Hk' & Hw & _).
      eauto.
Qed.

Lemma closure_in_stream_skips_flush_witness :
  exists st1,
    step Recv st_stream_closed = Returns ([], st1) /\
    pc (worker st1) = QUIT /\ net st1 = net st_stream_closed /\
    buffered (worker st1) = buffered (worker st_stream_closed) /\
    forall evs o st2, run evs st1 = Returns (o, st2) ->
      forall c k, net st_stream_closed !! c = Some k ->
        exists k2, net st2 !! c = Some k2 /\ Net.wire k2 = Net.wire k.
Proof.
  apply (proj1 closure_in_stream_skips_flush st_stream_closed
           (Chan.Build [] 4096 true)); reflexivity.
Defined.

(** In that state the buffer holds a whole line, and the connection has
    been sent nothing, also once the goroutine has returned. *)
Example closure_loses_buffered_line :
  (Bufio.pending <$> buffered (worker st_stream_closed))
    = Some (list_byte_of_string line_a) /\
  (Net.wire <$> net (final st_stream_closed
                        (run [Recv; Return] st_stream_closed)))
    = [[]] /\
  pc (worker (final st_stream_closed (run [Recv; Return] st_stream_closed)))
    = RETURNED.
Proof. repeat split. Qed.

(** ** After Shutdown *)



Lemma written_sublist_taken o : written o `sublist_of` taken o.
Proof.
  induction o as [|x o IH]; [constructor|].
  destruct x; cbn; try exact IH; constructor; exact IH.
Qed.




(** The two lines queued at Shutdown are still written, in their order. *)
Example after_Shutdown_queued_lines_written :
  written (fst (match run [Recv; Recv; Recv] st_shut with
                | Returns r => r
                | _ => ([], st_shut)
                end))
  = [line_a; line_b].
Proof. reflexivity. Qed.

(** ** Order of delivery *)

Lemma handed_sublist_taken c o : handed c o `sublist_of` taken o.
Proof.
  induction o as [|x o IH]; [constructor|].
  destruct x; cbn; try exact IH; try (constructor; exact IH);
    destruct (decide (c0 = c)); constructor; exact IH.
Qed.

(** The lines written are received lines, found at their rank, and the
    ranks grow with the order of writing. *)
Lemma deliveries_spec n o :
  (forall k m, (k, m) ∈ deliveries n o ->
     (n <= k)%nat /\ taken o !! (k - n)%nat = Some m) /\
  (forall i j k1 m1 k2 m2, (i < j)%nat ->
     deliveries n o !! i = Some (k1, m1) ->
     deliveries n o !! j = Some (k2, m2) -> (k1 < k2)%nat).
Proof.
  revert n. induction o as [|x o IH]; intros n.
  - split; [intros k m H; inversion H|intros i j k1 m1 k2 m2 _ H; inversion H].
  - destruct (IH n) as [IHa IHb]. destruct (IH (S n)) as [IHSa IHSb].
    destruct x; cbn [deliveries taken omap]; try (split; [exact IHa|exact IHb]).
    + (* a line written *)
      split.
      * intros k m' Hin. apply elem_of_cons in Hin as [Heq|Hin].
        -- inversion Heq; subst. rewrite Nat.sub_diag. split; [lia|reflexivity].
        -- destruct (IHSa _ _ Hin) as [Hle Hl]. split; [lia|].
           replace (k - n)%nat with (S (k - S n)) by lia. exact Hl.
      * intros i j k1 m1 k2 m2 Hij Hi Hj. destruct j as [|j]; [lia|].
        cbn in Hj. destruct i as [|i].
        -- inversion Hi; subst.
           apply list_elem_of_lookup_2 in Hj. destruct (IHSa _ _ Hj). lia.
        -- cbn in Hi. eapply IHSb; [|exact Hi|exact Hj]. lia.
    + (* a line whose write failed *)
      split; [|exact IHSb].
      intros k m' Hin. destruct (IHSa _ _ Hin) as [Hle Hl]. split; [lia|].
      replace (k - n)%nat with (S (k - S n)) by lia. exact Hl.
    + (* a line discarded *)
      split; [|exact IHSb].
      intros k m' Hin. destruct (IHSa _ _ Hin) as [Hle Hl]. split; [lia|].
      replace (k - n)%nat with (S (k - S n)) by lia. exact Hl.
Qed.

(** C9. In every run the lines leave the queue in the order in which
    they were put on it, so that the line received in [k]-th place is
    the line enqueued in [k]-th place; of two lines written, the one
    written first is the one enqueued first; the lines written are, in
    the order of their writing, a subsequence of the lines enqueued
    (the lines dropped or discarded are missing, none is out of place);
    and each connection has received, byte for byte, a prefix of the
    lines handed to it in that order. *)
Theorem survivors_keep_queue_order
    (a : string) (evs : list event) (o : list obs) (st : system) :
  run evs (NewStatsiteSink a) = Returns (o, st) ->
  enqueued o = (taken o ++ queued st)%list /\
  (forall k m, (k, m) ∈ deliveries 0 o -> enqueued o !! k = Some m) /\
  (forall i j k1 m1 k2 m2, (i < j)%nat ->
     deliveries 0 o !! i = Some (k1, m1) ->
     deliveries 0 o !! j = Some (k2, m2) -> (k1 < k2)%nat) /\
  written o `sublist_of` enqueued o /\
  (forall c, handed c o `sublist_of` enqueued o) /\
  (forall c k, net st !! c = Some k ->
     Net.wire k `prefix_of` bytes_of (handed c o)).
Proof.
  intros H. apply run_reach in H.
  pose proof (reach_fifo _ _ _ _ H) as Hfifo.
  destruct (deliveries_spec 0 o) as [Hd1 Hd2].
  split; [exact Hfifo|]. split; [|split; [exact Hd2|split; [|split]]].
  - intros k m Hin. destruct (Hd1 _ _ Hin) as [_ Hl].
    rewrite Nat.sub_0_r in Hl. rewrite Hfifo. apply lookup_app_l_Some. exact Hl.
  - rewrite Hfifo. apply sublist_inserts_r, written_sublist_taken.
  - intros c. rewrite Hfifo. apply sublist_inserts_r, handed_sublist_taken.
  - apply (wire_prefix _ _ (reach_wire _ _ _ _ H)).
Qed.

Lemma survivors_keep_queue_order_witness :
  enqueued obs_order = (taken obs_order ++ queued st_order)%list /\
  (forall k m, (k, m) ∈ deliveries 0 obs_order -> enqueued obs_order !! k = Some m) /\
  (forall i j k1 m1 k2 m2, (i < j)%nat ->
     deliveries 0 obs_order !! i = Some (k1, m1) ->
     deliveries 0 obs_order !! j = Some (k2, m2) -> (k1 < k2)%nat) /\
  written obs_order `sublist_of` enqueued obs_order /\
  (forall c, handed c obs_order `sublist_of` enqueued obs_order) /\
  (forall c k, net st_order !! c = Some k ->
     Net.wire k `prefix_of` bytes_of (handed c obs_order)).
Proof.
  apply (survivors_keep_queue_order "h:8125" evs_order obs_order st_order).
  vm_compute. reflexivity.
Defined.

Example order_on_the_wire :
  (Net.wire <$> net st_order)
  = [list_byte_of_string (line_b +:+ line_c)].
Proof. reflexivity. Qed.

(** ** The key formatter *)

(** *** Bytes and bits *)

Lemma val_bounds (c : ascii) : 0 <= Utf8.val c < 256.
Proof.
  unfold Utf8.val. pose proof (N_ascii_bounded c). lia.
Qed.

Lemma chr_val (c : ascii) : Utf8.chr (Utf8.val c) = c.
Proof. unfold Utf8.chr, Utf8.val. rewrite N2Z.id. apply ascii_N_embedding. Qed.

Lemma val_chr (b : Z) : 0 <= b < 256 -> Utf8.val (Utf8.chr b) = b.
Proof.
  intros Hb. unfold Utf8.chr, Utf8.val.
  rewrite N_ascii_embedding by lia. lia.
Qed.

Lemma land_ones_lit (x : Z) :
  Z.land x 0xFF = x mod 256 /\ Z.land x 0x3F = x mod 64 /\
  Z.land x 0x1F = x mod 32 /\ Z.land x 0x0F = x mod 16 /\ Z.land x 0x07 = x mod 8.
Proof.
  change 0xFF with (Z.ones 8). change 0x3F with (Z.ones 6).
  change 0x1F with (Z.ones 5). change 0x0F with (Z.ones 4).
  change 0x07 with (Z.ones 3).
  rewrite !Z.land_ones by lia. repeat split.
Qed.

(** Bits that do not overlap add up. *)
Lemma lor_disjoint (a b n : Z) :
  0 <= n -> 0 <= b < 2 ^ n -> Z.lor (a * 2 ^ n) b = a * 2 ^ n + b.
Proof.
  intros Hn Hb.
  assert (Hland : Z.land (a * 2 ^ n) b = 0).
  { apply Z.bits_inj'. intros i Hi. rewrite Z.land_spec, Z.bits_0.
    destruct (Z.lt_ge_cases i n) as [Hlt|Hge].
    - rewrite Z.mul_pow2_bits_low by lia. reflexivity.
    - destruct (Z.eq_dec b 0) as [->|Hb0]; [rewrite Z.bits_0; apply andb_false_r|].
      rewrite (Z.bits_above_log2 b i); [apply andb_false_r|lia|].
      apply Z.log2_lt_pow2; [lia|].
      apply Z.lt_le_trans with (2 ^ n); [lia|].
      apply Z.pow_le_mono_r; lia. }
  rewrite <- Z.lxor_lor by exact Hland.
  symmetry. apply Z.add_nocarry_lxor. exact Hland.
Qed.

Lemma rune2_arith (a b : Z) :
  Z.lor (Z.shiftl (Z.land a 0x1F) 6) (Z.land b 0x3F) = (a mod 32) * 64 + b mod 64.
Proof.
  destruct (land_ones_lit a) as (_ & _ & -> & _ & _).
  destruct (land_ones_lit b) as (_ & -> & _ & _ & _).
  rewrite Z.shiftl_mul_pow2 by lia.
  rewrite lor_disjoint by (try lia; change (2 ^ 6) with 64; apply Z.mod_pos_bound; lia).
  reflexivity.
Qed.

Lemma rune3_arith (a b c : Z) :
  Z.lor (Z.lor (Z.shiftl (Z.land a 0x0F) 12) (Z.shiftl (Z.land b 0x3F) 6))
        (Z.land c 0x3F)
  = (a mod 16) * 4096 + (b mod 64) * 64 + c mod 64.
Proof.
  destruct (land_ones_lit a) as (_ & _ & _ & -> & _).
  destruct (land_ones_lit b) as (_ & -> & _ & _ & _).
  destruct (land_ones_lit c) as (_ & -> & _ & _ & _).
  pose proof (Z.mod_pos_bound b 64 ltac:(lia)).
  pose proof (Z.mod_pos_bound c 64 ltac:(lia)).
  rewrite !Z.shiftl_mul_pow2 by lia.
  rewrite (lor_disjoint (a mod 16) (b mod 64 * 2 ^ 6) 12)
    by (try lia; change (2 ^ 6) with 64; change (2 ^ 12) with 4096; lia).
  replace (a mod 16 * 2 ^ 12 + b mod 64 * 2 ^ 6)
    with ((a mod 16 * 64 + b mod 64) * 2 ^ 6)
    by (change (2 ^ 6) with 64; change (2 ^ 12) with 4096; lia).
  rewrite lor_disjoint by (try lia; change (2 ^ 6) with 64; lia).
  change (2 ^ 6) with 64. lia.
Qed.

Lemma rune4_arith (a b c d : Z) :
  Z.lor (Z.lor (Z.lor (Z.shiftl (Z.land a 0x07) 18) (Z.shiftl (Z.land b 0x3F) 12))
               (Z.shiftl (Z.land c 0x3F) 6))
        (Z.land d 0x3F)
  = (a mod 8) * 262144 + (b mod 64) * 4096 + (c mod 64) * 64 + d mod 64.
Proof.
  destruct (land_ones_lit a) as (_ & _ & _ & _ & ->).
  destruct (land_ones_lit b) as (_ & -> & _ & _ & _).
  destruct (land_ones_lit c) as (_ & -> & _ & _ & _).
  destruct (land_ones_lit d) as (_ & -> & _ & _ & _).
  pose proof (Z.mod_pos_bound b 64 ltac:(lia)).
  pose proof (Z.mod_pos_bound c 64 ltac:(lia)).
  pose proof (Z.mod_pos_bound d 64 ltac:(lia)).
  rewrite !Z.shiftl_mul_pow2 by lia.
  rewrite (lor_disjoint (a mod 8) (b mod 64 * 2 ^ 12) 18)
    by (try lia; change (2 ^ 12) with 4096; change (2 ^ 18) with 262144; lia).
  replace (a mod 8 * 2 ^ 18 + b mod 64 * 2 ^ 12)
    with ((a mod 8 * 64 + b mod 64) * 2 ^ 12)
    by (change (2 ^ 12) with 4096; change (2 ^ 18) with 262144; lia).
  rewrite (lor_disjoint _ (c mod 64 * 2 ^ 6) 12)
    by (try lia; change (2 ^ 6) with 64; change (2 ^ 12) with 4096; lia).
  replace ((a mod 8 * 64 + b mod 64) * 2 ^ 12 + c mod 64 * 2 ^ 6)
    with (((a mod 8 * 64 + b mod 64) * 64 + c mod 64) * 2 ^ 6)
    by (change (2 ^ 6) with 64; change (2 ^ 12) with 4096; lia).
  rewrite lor_disjoint by (try lia; change (2 ^ 6) with 64; lia).
  change (2 ^ 6) with 64. lia.
Qed.

(** The bytes [EncodeRune] writes, by arithmetic. *)
Lemma lead_arith (r : Z) :
  (0 <= r < 32 -> Z.lor 0xC0 (Utf8.byte r) = 0xC0 + r) /\
  (0 <= r < 16 -> Z.lor 0xE0 (Utf8.byte r) = 0xE0 + r) /\
  (0 <= r < 8 -> Z.lor 0xF0 (Utf8.byte r) = 0xF0 + r).
Proof.
  unfold Utf8.byte. destruct (land_ones_lit r) as (-> & _).
  repeat split; intros Hr; rewrite Z.mod_small by lia.
  - change 0xC0 with (3 * 2 ^ 6). apply lor_disjoint; change (2 ^ 6) with 64; lia.
  - change 0xE0 with (7 * 2 ^ 5). apply lor_disjoint; change (2 ^ 5) with 32; lia.
  - change 0xF0 with (15 * 2 ^ 4). apply lor_disjoint; change (2 ^ 4) with 16; lia.
Qed.

Lemma cont_arith (r : Z) :
  Z.lor 0x80 (Z.land (Utf8.byte r) 0x3F) = 0x80 + r mod 64.
Proof.
  unfold Utf8.byte. destruct (land_ones_lit r) as (-> & _).
  destruct (land_ones_lit (r mod 256)) as (_ & -> & _).
  replace ((r mod 256) mod 64) with (r mod 64)
    by (symmetry; apply Z.mod_mod_divide; exists 4; reflexivity).
  pose proof (Z.mod_pos_bound r 64 ltac:(lia)).
  change 0x80 with (2 * 2 ^ 6). apply lor_disjoint; change (2 ^ 6) with 64; lia.
Qed.

Ltac dlia := Z.div_mod_to_equations; lia.

Ltac zbool :=
  repeat (match goal with
          | |- context [?a <=? ?b] => destruct (Z.leb_spec a b)
          | |- context [?a <? ?b] => destruct (Z.ltb_spec a b)
          | |- context [?a =? ?b] => destruct (Z.eqb_spec a b)
          end; cbn [andb orb negb] in *; try lia).

Lemma DecodeRuneInString_decoded (s : string) :
  decoded s (Utf8.DecodeRuneInString s).1 (Utf8.DecodeRuneInString s).2.
Proof.
  destruct s as [|s0 t]; [constructor|].
  pose proof (val_bounds s0) as Hv0.
  destruct t as [|s1 [|s2 [|s3 t3]]];
    try pose proof (val_bounds s1) as Hv1;
    try pose proof (val_bounds s2) as Hv2;
    try pose proof (val_bounds s3) as Hv3;
    unfold Utf8.DecodeRuneInString, Utf8.between, Utf8.RuneSelf;
    cbv zeta;
    destruct (Z.ltb_spec (Utf8.val s0) 0xE0); try lia;
    destruct (Z.ltb_spec (Utf8.val s0) 0xF0); try lia;
    destruct (Z.eqb_spec (Utf8.val s0) 0xE0); try lia;
    destruct (Z.eqb_spec (Utf8.val s0) 0xF0); try lia;
    destruct (Z.eqb_spec (Utf8.val s0) 0xED); try lia;
    destruct (Z.eqb_spec (Utf8.val s0) 0xF4); try lia;
    zbool; cbn [fst snd];
    first
      [ apply decoded_ascii; lia
      | apply decoded_invalid; lia
      | rewrite rune2_arith;
        replace (Utf8.val s0 mod 32 * 64 + Utf8.val s1 mod 64)
          with ((Utf8.val s0 - 0xC0) * 64 + (Utf8.val s1 - 0x80)) by dlia;
        apply decoded_two; lia
      | rewrite rune3_arith;
        replace (Utf8.val s0 mod 16 * 4096 + Utf8.val s1 mod 64 * 64
                 + Utf8.val s2 mod 64)
          with ((Utf8.val s0 - 0xE0) * 4096 + (Utf8.val s1 - 0x80) * 64
                + (Utf8.val s2 - 0x80)) by dlia;
        apply decoded_three; lia
      | rewrite rune4_arith;
        replace (Utf8.val s0 mod 8 * 262144 + Utf8.val s1 mod 64 * 4096
                 + Utf8.val s2 mod 64 * 64 + Utf8.val s3 mod 64)
          with ((Utf8.val s0 - 0xF0) * 262144 + (Utf8.val s1 - 0x80) * 4096
                + (Utf8.val s2 - 0x80) * 64 + (Utf8.val s3 - 0x80)) by dlia;
        apply decoded_four; lia ].
Qed.

Lemma ValidRune_spec (r : Utf8.rune) :
  Utf8.ValidRune r = true <-> 0 <= r < 0xD800 \/ 0xDFFF < r <= 0x10FFFF.
Proof. unfold Utf8.ValidRune, Utf8.MaxRune. zbool; intuition (try discriminate; lia). Qed.

Lemma EncodeRune_1 (r : Utf8.rune) :
  0 <= r <= 0x7F -> Utf8.EncodeRune r = String (Utf8.chr r) "".
Proof.
  intros Hr. unfold Utf8.EncodeRune. zbool.
  unfold Utf8.byte. destruct (land_ones_lit r) as (-> & _).
  rewrite Z.mod_small by lia. reflexivity.
Qed.

Lemma EncodeRune_2 (r : Utf8.rune) :
  0x80 <= r <= 0x7FF ->
  Utf8.EncodeRune r
  = String (Utf8.chr (0xC0 + r / 64)) (String (Utf8.chr (0x80 + r mod 64)) "").
Proof.
  intros Hr. unfold Utf8.EncodeRune. zbool.
  rewrite cont_arith, Z.shiftr_div_pow2 by lia. change (2 ^ 6) with 64.
  rewrite (proj1 (lead_arith (r / 64))) by dlia. reflexivity.
Qed.

Lemma EncodeRune_3 (r : Utf8.rune) :
  0x800 <= r <= 0xFFFF -> ~ (0xD800 <= r <= 0xDFFF) ->
  Utf8.EncodeRune r
  = String (Utf8.chr (0xE0 + r / 4096))
      (String (Utf8.chr (0x80 + (r / 64) mod 64))
         (String (Utf8.chr (0x80 + r mod 64)) "")).
Proof.
  intros Hr Hs. unfold Utf8.EncodeRune, Utf8.MaxRune. cbv zeta. zbool.
  all: rewrite !cont_arith, !Z.shiftr_div_pow2 by lia;
    change (2 ^ 6) with 64; change (2 ^ 12) with 4096;
    rewrite (proj1 (proj2 (lead_arith (r / 4096)))) by dlia; reflexivity.
Qed.

Lemma EncodeRune_4 (r : Utf8.rune) :
  0x10000 <= r <= 0x10FFFF ->
  Utf8.EncodeRune r
  = String (Utf8.chr (0xF0 + r / 262144))
      (String (Utf8.chr (0x80 + (r / 4096) mod 64))
         (String (Utf8.chr (0x80 + (r / 64) mod 64))
            (String (Utf8.chr (0x80 + r mod 64)) ""))).
Proof.
  intros Hr. unfold Utf8.EncodeRune, Utf8.MaxRune. cbv zeta. zbool.
  rewrite !cont_arith, !Z.shiftr_div_pow2 by lia.
  change (2 ^ 6) with 64; change (2 ^ 12) with 4096; change (2 ^ 18) with 262144.
  rewrite (proj2 (proj2 (lead_arith (r / 262144)))) by dlia. reflexivity.
Qed.

Lemma EncodeRune_invalid (r : Utf8.rune) :
  Utf8.ValidRune r = false -> Utf8.EncodeRune r = Utf8.EncodeRune Utf8.RuneError.
Proof.
  intros Hr.
  assert (Hn : ~ (0 <= r < 0xD800 \/ 0xDFFF < r <= 0x10FFFF)).
  { intros H. apply ValidRune_spec in H. congruence. }
  unfold Utf8.EncodeRune at 1. unfold Utf8.MaxRune, Utf8.RuneError. cbv zeta.
  zbool; reflexivity.
Qed.

(** The decoder on a valid encoding. *)
Lemma Decode_ascii s0 t :
  Utf8.val s0 < 0x80 -> Utf8.DecodeRuneInString (String s0 t) = (Utf8.val s0, 1%nat).
Proof.
  intros H. unfold Utf8.DecodeRuneInString, Utf8.RuneSelf.
  destruct (Z.ltb_spec (Utf8.val s0) 128); [reflexivity|lia].
Qed.

Ltac decode_valid :=
  unfold Utf8.DecodeRuneInString, Utf8.between, Utf8.RuneSelf; cbv zeta;
  match goal with
  | |- context [Utf8.val ?s0 <? 128] =>
      destruct (Z.ltb_spec (Utf8.val s0) 0xE0); try lia;
      destruct (Z.ltb_spec (Utf8.val s0) 0xF0); try lia;
      destruct (Z.eqb_spec (Utf8.val s0) 0xE0); try lia;
      destruct (Z.eqb_spec (Utf8.val s0) 0xF0); try lia;
      destruct (Z.eqb_spec (Utf8.val s0) 0xED); try lia;
      destruct (Z.eqb_spec (Utf8.val s0) 0xF4); try lia
  end;
  zbool; rewrite ?rune2_arith, ?rune3_arith, ?rune4_arith; f_equal; dlia.

Lemma Decode_two s0 s1 t :
  0xC2 <= Utf8.val s0 <= 0xDF -> 0x80 <= Utf8.val s1 <= 0xBF ->
  Utf8.DecodeRuneInString (String s0 (String s1 t))
  = ((Utf8.val s0 - 0xC0) * 64 + (Utf8.val s1 - 0x80), 2%nat).
Proof. intros H0 H1. decode_valid. Qed.

Lemma Decode_three s0 s1 s2 t :
  0xE0 <= Utf8.val s0 <= 0xEF -> 0x80 <= Utf8.val s1 <= 0xBF ->
  (Utf8.val s0 = 0xE0 -> 0xA0 <= Utf8.val s1) ->
  (Utf8.val s0 = 0xED -> Utf8.val s1 <= 0x9F) ->
  0x80 <= Utf8.val s2 <= 0xBF ->
  Utf8.DecodeRuneInString (String s0 (String s1 (String s2 t)))
  = ((Utf8.val s0 - 0xE0) * 4096 + (Utf8.val s1 - 0x80) * 64
     + (Utf8.val s2 - 0x80), 3%nat).
Proof. intros H0 H1 Hlo Hhi H2. decode_valid. Qed.

Lemma Decode_four s0 s1 s2 s3 t :
  0xF0 <= Utf8.val s0 <= 0xF4 -> 0x80 <= Utf8.val s1 <= 0xBF ->
  (Utf8.val s0 = 0xF0 -> 0x90 <= Utf8.val s1) ->
  (Utf8.val s0 = 0xF4 -> Utf8.val s1 <= 0x8F) ->
  0x80 <= Utf8.val s2 <= 0xBF -> 0x80 <= Utf8.val s3 <= 0xBF ->
  Utf8.DecodeRuneInString (String s0 (String s1 (String s2 (String s3 t))))
  = ((Utf8.val s0 - 0xF0) * 262144 + (Utf8.val s1 - 0x80) * 4096
     + (Utf8.val s2 - 0x80) * 64 + (Utf8.val s3 - 0x80), 4%nat).
Proof. intros H0 H1 Hlo Hhi H2 H3. decode_valid. Qed.

Lemma append_cons (c : ascii) (s1 s2 : string) :
  String c s1 +:+ s2 = String c (s1 +:+ s2).
Proof. reflexivity. Qed.

Lemma append_nil_l (s : string) : "" +:+ s = s.
Proof. reflexivity. Qed.

(** Decoding what [EncodeRune] wrote gives the rune back, whatever
    follows. *)
Lemma Decode_EncodeRune (r : Utf8.rune) (rest : string) :
  Utf8.ValidRune r = true ->
  Utf8.DecodeRuneInString (Utf8.EncodeRune r +:+ rest)
  = (r, String.length (Utf8.EncodeRune r)).
Proof.
  intros Hr. apply ValidRune_spec in Hr.
  destruct (Z.le_gt_cases r 0x7F) as [H1|H1].
  { rewrite EncodeRune_1 by lia. rewrite !append_cons, append_nil_l; cbn [String.length].
    rewrite Decode_ascii by (rewrite val_chr; lia). rewrite val_chr by lia.
    reflexivity. }
  destruct (Z.le_gt_cases r 0x7FF) as [H2|H2].
  { rewrite EncodeRune_2 by lia. rewrite !append_cons, append_nil_l; cbn [String.length].
    rewrite Decode_two by (rewrite val_chr; dlia).
    rewrite !val_chr by dlia. f_equal. dlia. }
  destruct (Z.le_gt_cases r 0xFFFF) as [H3|H3].
  { rewrite EncodeRune_3 by lia. rewrite !append_cons, append_nil_l; cbn [String.length].
    rewrite Decode_three by (rewrite ?val_chr; try intros ?; rewrite ?val_chr in *; dlia).
    rewrite !val_chr by dlia. f_equal. dlia. }
  rewrite EncodeRune_4 by lia. rewrite !append_cons, append_nil_l; cbn [String.length].
  rewrite Decode_four by (rewrite ?val_chr; try intros ?; rewrite ?val_chr in *; dlia).
  rewrite !val_chr by dlia. f_equal. dlia.
Qed.

(** What the decoder returns is a rune that can be encoded, and takes
    at least one byte of a string that has one. *)
Lemma decoded_valid s r n :
  decoded s r n ->
  Utf8.ValidRune r = true /\ (n <= String.length s)%nat /\ (s <> "" -> (1 <= n)%nat).
Proof.
  intros H. destruct H;
    repeat match goal with
      | c : ascii |- _ => lazymatch goal with
                          | _ : 0 <= Utf8.val c < 256 |- _ => fail
                          | _ => pose proof (val_bounds c)
                          end
      end;
    (split; [apply ValidRune_spec; unfold Utf8.RuneError; lia|]);
    cbn [String.length]; split; try lia; intros Hne; first [congruence|lia].
Qed.

(** A valid encoding is what [EncodeRune] writes for its rune. *)
Lemma decoded_EncodeRune s r n :
  decoded s r n -> s <> "" -> ~ (r = Utf8.RuneError /\ n = 1%nat) ->
  s = Utf8.EncodeRune r +:+ Utf8.from n s /\ String.length (Utf8.EncodeRune r) = n.
Proof.
  intros H Hne Herr. destruct H;
    repeat match goal with
      | c : ascii |- _ => lazymatch goal with
                          | _ : 0 <= Utf8.val c < 256 |- _ => fail
                          | _ => pose proof (val_bounds c)
                          end
      end.
  - contradiction.
  - rewrite EncodeRune_1 by lia. rewrite chr_val. split; reflexivity.
  - rewrite EncodeRune_2 by lia.
    replace (0xC0 + ((Utf8.val s0 - 0xC0) * 64 + (Utf8.val s1 - 0x80)) / 64)
      with (Utf8.val s0) by dlia.
    replace (0x80 + ((Utf8.val s0 - 0xC0) * 64 + (Utf8.val s1 - 0x80)) mod 64)
      with (Utf8.val s1) by dlia.
    rewrite !chr_val. split; reflexivity.
  - set (r := (Utf8.val s0 - 0xE0) * 4096 + (Utf8.val s1 - 0x80) * 64
              + (Utf8.val s2 - 0x80)).
    rewrite EncodeRune_3 by (subst r; lia).
    replace (0xE0 + r / 4096) with (Utf8.val s0) by (subst r; dlia).
    replace (0x80 + (r / 64) mod 64) with (Utf8.val s1) by (subst r; dlia).
    replace (0x80 + r mod 64) with (Utf8.val s2) by (subst r; dlia).
    rewrite !chr_val. split; reflexivity.
  - set (r := (Utf8.val s0 - 0xF0) * 262144 + (Utf8.val s1 - 0x80) * 4096
              + (Utf8.val s2 - 0x80) * 64 + (Utf8.val s3 - 0x80)).
    rewrite EncodeRune_4 by (subst r; lia).
    replace (0xF0 + r / 262144) with (Utf8.val s0) by (subst r; dlia).
    replace (0x80 + (r / 4096) mod 64) with (Utf8.val s1) by (subst r; dlia).
    replace (0x80 + (r / 64) mod 64) with (Utf8.val s2) by (subst r; dlia).
    replace (0x80 + r mod 64) with (Utf8.val s3) by (subst r; dlia).
    rewrite !chr_val. split; reflexivity.
  - exfalso. apply Herr. split; reflexivity.
Qed.

(** The bytes [EncodeRune] writes: the rune itself below [RuneSelf],
    bytes from [0x80] on otherwise. *)
Lemma EncodeRune_bytes (r : Utf8.rune) (c : ascii) :
  c ∈ list_ascii_of_string (Utf8.EncodeRune r) ->
  (0 <= r <= 0x7F /\ c = Utf8.chr r) \/ 0x80 <= Utf8.val c.
Proof.
  intros Hc.
  assert (Hin : forall b l, c ∈ (Utf8.chr b :: l) -> 0x80 <= b < 256 ->
            0x80 <= Utf8.val c \/ c ∈ l).
  { intros b l Hl Hb. apply elem_of_cons in Hl as [->|Hl]; [left|right; exact Hl].
    rewrite val_chr; lia. }
  assert (Hnil : c ∈ @nil ascii -> 0x80 <= Utf8.val c) by (intros H; inversion H).
  destruct (Utf8.ValidRune r) eqn:Hv.
  - apply ValidRune_spec in Hv.
    destruct (Z.le_gt_cases r 0x7F) as [H1|H1].
    { left. rewrite EncodeRune_1 in Hc by lia. cbn [list_ascii_of_string] in Hc.
      apply list_elem_of_singleton in Hc. split; [lia|exact Hc]. }
    right.
    destruct (Z.le_gt_cases r 0x7FF) as [H2|H2].
    { rewrite EncodeRune_2 in Hc by lia. cbn [list_ascii_of_string] in Hc.
      destruct (Hin _ _ Hc) as [?|Hc1]; [dlia|assumption|].
      destruct (Hin _ _ Hc1) as [?|Hc2]; [dlia|assumption|]. auto. }
    destruct (Z.le_gt_cases r 0xFFFF) as [H3|H3].
    { rewrite EncodeRune_3 in Hc by lia. cbn [list_ascii_of_string] in Hc.
      destruct (Hin _ _ Hc) as [?|Hc1]; [dlia|assumption|].
      destruct (Hin _ _ Hc1) as [?|Hc2]; [dlia|assumption|].
      destruct (Hin _ _ Hc2) as [?|Hc3]; [dlia|assumption|]. auto. }
    rewrite EncodeRune_4 in Hc by lia. cbn [list_ascii_of_string] in Hc.
    destruct (Hin _ _ Hc) as [?|Hc1]; [dlia|assumption|].
    destruct (Hin _ _ Hc1) as [?|Hc2]; [dlia|assumption|].
    destruct (Hin _ _ Hc2) as [?|Hc3]; [dlia|assumption|].
    destruct (Hin _ _ Hc3) as [?|Hc4]; [dlia|assumption|]. auto.
  - right. rewrite EncodeRune_invalid in Hc by exact Hv.
    unfold Utf8.RuneError in Hc. rewrite EncodeRune_3 in Hc by lia.
    cbn [list_ascii_of_string] in Hc.
    destruct (Hin _ _ Hc) as [?|Hc1]; [dlia|assumption|].
    destruct (Hin _ _ Hc1) as [?|Hc2]; [dlia|assumption|].
    destruct (Hin _ _ Hc2) as [?|Hc3]; [dlia|assumption|]. auto.
Qed.

Lemma Utf8_append_assoc (s1 s2 s3 : string) : s1 +:+ s2 +:+ s3 = (s1 +:+ s2) +:+ s3.
Proof.
  induction s1 as [|c s1 IH]; [reflexivity|].
  rewrite !append_cons, IH. reflexivity.
Qed.

Lemma append_nil_r (s : string) : s +:+ "" = s.
Proof. induction s as [|c s IH]; [reflexivity|rewrite append_cons, IH; reflexivity]. Qed.

(** *** The runes of a string *)

Lemma from_length (n : nat) (s : string) :
  String.length (Utf8.from n s) = (String.length s - n)%nat.
Proof.
  revert s. induction n as [|n IH]; intros [|c s]; cbn; try reflexivity.
  apply IH.
Qed.

Lemma from_append (s1 s2 : string) :
  Utf8.from (String.length s1) (s1 +:+ s2) = s2.
Proof. induction s1 as [|c s1 IH]; [reflexivity|exact IH]. Qed.

Lemma from_append_l (n : nat) (s1 s2 : string) :
  (n <= String.length s1)%nat ->
  Utf8.from n (s1 +:+ s2) = Utf8.from n s1 +:+ s2.
Proof.
  revert s1. induction n as [|n IH]; intros s1 Hn.
  - destruct s1; reflexivity.
  - destruct s1 as [|c s1]; [cbn in Hn; lia|].
    rewrite append_cons. cbn [Utf8.from]. apply IH. cbn in Hn. lia.
Qed.

Lemma Decode_width (s : string) :
  s <> "" ->
  (1 <= (Utf8.DecodeRuneInString s).2 <= String.length s)%nat.
Proof.
  intros Hne.
  destruct (decoded_valid _ _ _ (DecodeRuneInString_decoded s)) as (_ & Hle & Hge).
  specialize (Hge Hne). lia.
Qed.

(** One turn of the loop. *)
Lemma range_S (fuel : nat) (c : ascii) (t : string) :
  Utf8.range (S fuel) (String c t)
  = (Utf8.DecodeRuneInString (String c t)).1
    :: Utf8.range fuel (Utf8.from (Utf8.DecodeRuneInString (String c t)).2 (String c t)).
Proof.
  cbn [Utf8.range]. destruct (Utf8.DecodeRuneInString (String c t)). reflexivity.
Qed.

(** The length of the string is fuel enough. *)
Lemma range_enough (fuel : nat) (s : string) :
  (String.length s <= fuel)%nat -> Utf8.range fuel s = Utf8.runes s.
Proof.
  unfold Utf8.runes.
  assert (H : forall fuel1 fuel2 s,
            (String.length s <= fuel1)%nat -> (String.length s <= fuel2)%nat ->
            Utf8.range fuel1 s = Utf8.range fuel2 s).
  { clear. induction fuel1 as [|fuel1 IH]; intros fuel2 s H1 H2.
    - destruct s; [|cbn in H1; lia]. destruct fuel2; reflexivity.
    - destruct s as [|c t]; [destruct fuel2; reflexivity|].
      destruct fuel2 as [|fuel2]; [cbn in H2; lia|].
      rewrite !range_S. f_equal.
      pose proof (Decode_width (String c t) ltac:(discriminate)) as Hw.
      apply IH; rewrite from_length; cbn [String.length] in *; lia. }
  intros Hle. apply H; [exact Hle|lia].
Qed.

Lemma runes_cons (s : string) :
  s <> "" ->
  Utf8.runes s
  = (Utf8.DecodeRuneInString s).1
    :: Utf8.runes (Utf8.from (Utf8.DecodeRuneInString s).2 s).
Proof.
  intros Hne. destruct s as [|c t]; [contradiction|].
  unfold Utf8.runes at 1. cbn [String.length]. rewrite range_S. f_equal.
  apply range_enough.
  pose proof (Decode_width (String c t) Hne) as Hw.
  rewrite from_length. cbn [String.length] in *. lia.
Qed.

Lemma runes_nil : Utf8.runes "" = [].
Proof. reflexivity. Qed.

(** Every rune of a string can be encoded. *)
Lemma runes_valid (s : string) :
  Forall (fun r => Utf8.ValidRune r = true) (Utf8.runes s).
Proof.
  remember (String.length s) as n eqn:Hn.
  revert s Hn. induction n as [n IH] using lt_wf_ind. intros s Hn.
  destruct s as [|c t]; [constructor|].
  rewrite runes_cons by discriminate. constructor.
  - apply (decoded_valid _ _ _ (DecodeRuneInString_decoded (String c t))).
  - pose proof (Decode_width (String c t) ltac:(discriminate)) as Hw.
    eapply IH; [|reflexivity]. rewrite from_length. cbn [String.length] in *. lia.
Qed.

Lemma EncodeRune_nonempty (r : Utf8.rune) : (1 <= String.length (Utf8.EncodeRune r))%nat.
Proof.
  unfold Utf8.EncodeRune. cbv zeta.
  repeat match goal with |- context [if ?b then _ else _] => destruct b end;
    cbn [String.length]; lia.
Qed.

(** The runes of an encoding, whatever follows it. *)
Lemma runes_EncodeRune (r : Utf8.rune) (rest : string) :
  Utf8.ValidRune r = true ->
  Utf8.runes (Utf8.EncodeRune r +:+ rest) = r :: Utf8.runes rest.
Proof.
  intros Hr. pose proof (EncodeRune_nonempty r) as Hne.
  rewrite runes_cons.
  - rewrite Decode_EncodeRune by exact Hr. cbn [fst snd].
    rewrite from_append. reflexivity.
  - destruct (Utf8.EncodeRune r); [cbn in Hne; lia|discriminate].
Qed.

Lemma runes_encode (rs : list Utf8.rune) (rest : string) :
  Forall (fun r => Utf8.ValidRune r = true) rs ->
  Utf8.runes (Utf8.encode rs +:+ rest) = (rs ++ Utf8.runes rest)%list.
Proof.
  induction 1 as [|r rs Hr _ IH]; [reflexivity|].
  cbn [Utf8.encode fold_right]. fold (Utf8.encode rs).
  rewrite <- Utf8_append_assoc, runes_EncodeRune by exact Hr.
  rewrite IH. reflexivity.
Qed.

(** A byte below [RuneSelf] is never taken into the encoding that
    precedes it. *)
Lemma Decode_app_ascii (s1 s2 : string) (c : ascii) :
  s1 <> "" -> Utf8.val c < 0x80 ->
  Utf8.DecodeRuneInString (s1 +:+ String c s2) = Utf8.DecodeRuneInString s1.
Proof.
  intros Hne Hc.
  destruct s1 as [|s0 [|s1 [|s2' [|s3 t]]]]; [contradiction|..];
    rewrite ?append_cons, ?append_nil_l;
    unfold Utf8.DecodeRuneInString, Utf8.between, Utf8.RuneSelf; cbv zeta;
    destruct (Z.ltb_spec (Utf8.val s0) 0xE0);
    destruct (Z.ltb_spec (Utf8.val s0) 0xF0); try lia;
    destruct (Z.eqb_spec (Utf8.val s0) 0xE0); try lia;
    destruct (Z.eqb_spec (Utf8.val s0) 0xF0); try lia;
    destruct (Z.eqb_spec (Utf8.val s0) 0xED); try lia;
    destruct (Z.eqb_spec (Utf8.val s0) 0xF4); try lia;
    zbool; reflexivity.
Qed.

Lemma runes_app_ascii (s1 s2 : string) (c : ascii) :
  Utf8.val c < 0x80 ->
  Utf8.runes (s1 +:+ String c s2)
  = (Utf8.runes s1 ++ Utf8.val c :: Utf8.runes s2)%list.
Proof.
  intros Hc. remember (String.length s1) as n eqn:Hn.
  revert s1 Hn. induction n as [n IH] using lt_wf_ind. intros s1 Hn.
  destruct s1 as [|s0 t].
  - rewrite append_nil_l, runes_cons by discriminate.
    rewrite Decode_ascii by exact Hc. reflexivity.
  - pose proof (Decode_width (String s0 t) ltac:(discriminate)) as Hw.
    rewrite (runes_cons (String s0 t)) by discriminate.
    rewrite runes_cons by (rewrite append_cons; discriminate).
    rewrite Decode_app_ascii by (discriminate || exact Hc).
    rewrite from_append_l by lia.
    cbn [app]. f_equal.
    eapply IH; [|reflexivity]. rewrite from_length. cbn [String.length] in *. lia.
Qed.

(** *** Valid strings *)

Lemma valid_S (fuel : nat) (c : ascii) (t : string) :
  Utf8.valid (S fuel) (String c t)
  = negb (((Utf8.DecodeRuneInString (String c t)).1 =? Utf8.RuneError)
          && ((Utf8.DecodeRuneInString (String c t)).2 =? 1)%nat)
    && Utf8.valid fuel (Utf8.from (Utf8.DecodeRuneInString (String c t)).2 (String c t)).
Proof.
  cbn [Utf8.valid]. destruct (Utf8.DecodeRuneInString (String c t)). reflexivity.
Qed.

(** A valid string is the encoding of its runes. *)
Lemma valid_encode (fuel : nat) (s : string) :
  (String.length s <= fuel)%nat -> Utf8.valid fuel s = true ->
  Utf8.encode (Utf8.runes s) = s.
Proof.
  revert s. induction fuel as [|fuel IH]; intros s Hlen Hv.
  - destruct s; [reflexivity|cbn in Hlen; lia].
  - destruct s as [|c t]; [reflexivity|].
    rewrite valid_S in Hv. apply andb_true_iff in Hv as [Hok Hv].
    pose proof (DecodeRuneInString_decoded (String c t)) as Hd.
    pose proof (Decode_width (String c t) ltac:(discriminate)) as Hw.
    destruct (decoded_EncodeRune _ _ _ Hd ltac:(discriminate)) as [Hs Hl].
    { intros [Hr Hn]. rewrite Hr, Hn in Hok. discriminate Hok. }
    rewrite runes_cons by discriminate.
    cbn [Utf8.encode fold_right]. fold (Utf8.encode).
    rewrite IH; [symmetry; exact Hs| |exact Hv].
    rewrite from_length. cbn [String.length] in *. lia.
Qed.

Lemma ValidString_encode (s : string) :
  Utf8.ValidString s = true -> Utf8.encode (Utf8.runes s) = s.
Proof. apply valid_encode. lia. Qed.

Lemma list_ascii_app (s1 s2 : string) :
  list_ascii_of_string (s1 +:+ s2)
  = (list_ascii_of_string s1 ++ list_ascii_of_string s2)%list.
Proof. induction s1 as [|c s1 IH]; simpl; [reflexivity|f_equal; exact IH]. Qed.

(** *** strings.Map *)

Lemma encode_app (l1 l2 : list Utf8.rune) :
  Utf8.encode (l1 ++ l2) = Utf8.encode l1 +:+ Utf8.encode l2.
Proof.
  induction l1 as [|r l1 IH]; [reflexivity|].
  cbn [app Utf8.encode fold_right]. fold (Utf8.encode (l1 ++ l2)).
  fold (Utf8.encode l1). rewrite IH. apply Utf8_append_assoc.
Qed.

(** With a mapping that drops no rune, [Map] writes the encodings of
    the images of the runes. *)
Lemma Map_encode (f : Utf8.rune -> Utf8.rune) (s : string) :
  (forall r, Utf8.ValidRune r = true -> 0 <= f r) ->
  GoStrings.Map f s = Utf8.encode (map f (Utf8.runes s)).
Proof.
  intros Hf. unfold GoStrings.Map.
  pose proof (runes_valid s) as Hv. induction Hv as [|r rs Hr _ IH]; [reflexivity|].
  cbn [fold_right map Utf8.encode]. fold (Utf8.encode (map f rs)).
  rewrite IH. specialize (Hf r Hr).
  destruct (Z.leb_spec 0 (f r)); [reflexivity|lia].
Qed.

Lemma Map_runes (f : Utf8.rune -> Utf8.rune) (s : string) :
  (forall r, Utf8.ValidRune r = true -> Utf8.ValidRune (f r) = true) ->
  Utf8.runes (GoStrings.Map f s) = map f (Utf8.runes s).
Proof.
  intros Hf. rewrite Map_encode.
  - rewrite <- (append_nil_r (Utf8.encode _)), runes_encode, runes_nil, app_nil_r.
    + reflexivity.
    + apply Forall_fmap. eapply Forall_impl; [apply runes_valid|]. exact Hf.
  - intros r Hr. specialize (Hf r Hr). apply ValidRune_spec in Hf. lia.
Qed.

Lemma Map_idempotent (f : Utf8.rune -> Utf8.rune) (s : string) :
  (forall r, Utf8.ValidRune r = true -> Utf8.ValidRune (f r) = true) ->
  (forall r, f (f r) = f r) ->
  GoStrings.Map f (GoStrings.Map f s) = GoStrings.Map f s.
Proof.
  intros Hf Hi.
  assert (Hpos : forall r, Utf8.ValidRune r = true -> 0 <= f r).
  { intros r Hr. specialize (Hf r Hr). apply ValidRune_spec in Hf. lia. }
  rewrite (Map_encode f (GoStrings.Map f s)) by exact Hpos.
  rewrite Map_runes by exact Hf. rewrite Map_encode by exact Hpos.
  f_equal. rewrite <- list_fmap_compose. apply list_fmap_ext. intros _ r _. apply Hi.
Qed.

Lemma Map_app_ascii (f : Utf8.rune -> Utf8.rune) (s1 s2 : string) (c : ascii) :
  (forall r, Utf8.ValidRune r = true -> 0 <= f r) ->
  Utf8.val c < 0x80 ->
  GoStrings.Map f (s1 +:+ String c s2)
  = GoStrings.Map f s1 +:+ Utf8.EncodeRune (f (Utf8.val c)) +:+ GoStrings.Map f s2.
Proof.
  intros Hf Hc. rewrite !Map_encode by exact Hf.
  rewrite runes_app_ascii by exact Hc.
  rewrite fmap_app, encode_app. reflexivity.
Qed.

(** Every byte [Map] writes is a byte of the encoding of the image of
    a rune of the string. *)
Lemma Map_bytes (f : Utf8.rune -> Utf8.rune) (s : string) (c : ascii) :
  c ∈ list_ascii_of_string (GoStrings.Map f s) ->
  exists r, r ∈ Utf8.runes s /\ c ∈ list_ascii_of_string (Utf8.EncodeRune (f r)).
Proof.
  unfold GoStrings.Map. induction (Utf8.runes s) as [|r rs IH]; cbn [fold_right].
  - intros H. inversion H.
  - destruct (0 <=? f r).
    + rewrite list_ascii_app. intros H. apply elem_of_app in H as [H|H].
      * exists r. split; [left|exact H].
      * destruct (IH H) as (r' & Hr' & Hc). exists r'. split; [right; exact Hr'|exact Hc].
    + intros H. destruct (IH H) as (r' & Hr' & Hc).
      exists r'. split; [right; exact Hr'|exact Hc].
Qed.

(** *** flattenKey *)

Lemma append_labels (parts : list string) (labels : list Label) :
  fold_left (fun parts label => (parts ++ [Value label])%list) labels parts
  = (parts ++ map Value labels)%list.
Proof.
  revert parts. induction labels as [|l labels IH]; intros parts; cbn.
  - rewrite app_nil_r. reflexivity.
  - rewrite IH, <- app_assoc. reflexivity.
Qed.

(** The mapping of flattenKey, case by case. *)
Lemma flattenKey_mapping (r : Utf8.rune) :
  let f := fun r : Utf8.rune =>
             if r =? Utf8.val ":" then Utf8.val "_"
             else if r =? Utf8.val " " then Utf8.val "_"
             else r in
  f r = sanitized_rune r /\
  f (f r) = f r /\
  f r <> Utf8.val ":" /\ f r <> Utf8.val " " /\
  (Utf8.ValidRune r = true -> Utf8.ValidRune (f r) = true) /\
  (0 <= r <= 0x7F -> 0 <= f r <= 0x7F /\ Utf8.chr (f r) = sanitized (Utf8.chr r)) /\
  (0x80 <= r -> f r = r) /\
  (Utf8.ValidRune r = true -> 0 <= f r).
Proof.
  cbv zeta. unfold sanitized_rune, sanitized.
  change (Utf8.val ":") with 58. change (Utf8.val " ") with 32.
  change (Utf8.val "_") with 95.
  repeat apply conj.
  - zbool; destruct (decide _) as [[?|?]|Hn]; try lia; try reflexivity.
    all: exfalso; apply Hn; auto.
  - zbool; reflexivity.
  - zbool.
  - zbool.
  - intros Hr. apply ValidRune_spec in Hr. apply ValidRune_spec. zbool.
  - intros Hr.
    assert (Hinj : forall c : ascii, Utf8.chr r = c -> r = Utf8.val c).
    { intros c <-. rewrite val_chr; lia. }
    zbool; subst; (split; [lia|]); try reflexivity.
    destruct (decide _) as [[Hc|Hc]|_]; [| |reflexivity];
      apply Hinj in Hc; change (Utf8.val " ") with 32 in Hc;
      change (Utf8.val ":") with 58 in Hc; lia.
  - intros Hr. zbool; reflexivity.
  - intros Hr. apply ValidRune_spec in Hr. zbool.
Qed.

Lemma map_bytes_length f s : String.length (map_bytes f s) = String.length s.
Proof. induction s as [|c s IH]; cbn; [reflexivity|rewrite IH; reflexivity]. Qed.

Lemma map_bytes_get f s i :
  String.get i (map_bytes f s) = f <$> String.get i s.
Proof.
  revert i. induction s as [|c s IH]; intros i; [reflexivity|].
  destruct i as [|i]; cbn; [reflexivity|apply IH].
Qed.

Lemma map_bytes_append f (s1 s2 : string) :
  map_bytes f (s1 +:+ s2) = map_bytes f s1 +:+ map_bytes f s2.
Proof.
  induction s1 as [|c s1 IH]; [reflexivity|].
  rewrite append_cons. cbn [map_bytes]. rewrite IH, append_cons. reflexivity.
Qed.

Lemma map_bytes_id f (s : string) :
  (forall c, c ∈ list_ascii_of_string s -> f c = c) -> map_bytes f s = s.
Proof.
  induction s as [|c s IH]; intros H; [reflexivity|].
  cbn [map_bytes]. rewrite (H c) by (cbn; left). rewrite IH; [reflexivity|].
  intros c' Hc'. apply H. cbn. right. exact Hc'.
Qed.

Lemma sanitized_high (c : ascii) : 0x80 <= Utf8.val c -> sanitized c = c.
Proof.
  intros Hc. unfold sanitized.
  destruct (decide _) as [[->| ->]|_]; [| |reflexivity];
    vm_compute in Hc; exfalso; apply Hc; reflexivity.
Qed.

(** On the bytes of a valid string, flattenKey is the replacement of
    each space and each colon, byte by byte. *)
Lemma flattenKey_valid (parts : list string) :
  Utf8.ValidString (String.concat "." parts) = true ->
  flattenKey parts = map_bytes sanitized (String.concat "." parts).
Proof.
  intros Hv. unfold flattenKey, GoStrings.Join.
  set (f := fun r : Utf8.rune => _).
  assert (Hf : forall r, f r = sanitized_rune r /\ f (f r) = f r /\
                         f r <> Utf8.val ":" /\ f r <> Utf8.val " " /\
                         (Utf8.ValidRune r = true -> Utf8.ValidRune (f r) = true) /\
                         (0 <= r <= 0x7F ->
                          0 <= f r <= 0x7F /\ Utf8.chr (f r) = sanitized (Utf8.chr r)) /\
                         (0x80 <= r -> f r = r) /\
                         (Utf8.ValidRune r = true -> 0 <= f r))
    by exact flattenKey_mapping.
  rewrite Map_encode by (intros r; apply (Hf r)).
  rewrite <- (ValidString_encode _ Hv) at 2.
  pose proof (runes_valid (String.concat "." parts)) as Hrs.
  induction Hrs as [|r rs Hr _ IH]; [reflexivity|].
  cbn [map Utf8.encode fold_right]. fold (Utf8.encode (map f rs)). fold (Utf8.encode rs).
  rewrite map_bytes_append, <- IH. f_equal.
  destruct (Hf r) as (_ & _ & _ & _ & _ & Hlow & Hhigh & _).
  apply ValidRune_spec in Hr.
  destruct (Z.le_gt_cases r 0x7F) as [H1|H1].
  - destruct (Hlow ltac:(lia)) as [Hb Hc].
    rewrite !EncodeRune_1 by lia. cbn [map_bytes]. rewrite Hc. reflexivity.
  - rewrite Hhigh by lia. symmetry. apply map_bytes_id. intros c Hc.
    apply EncodeRune_bytes in Hc as [[? _]|Hc]; [lia|]. apply sanitized_high, Hc.
Qed.

Lemma flattenKey_no_colon_no_space (parts : list string) :
  (":"%char ∉ list_ascii_of_string (flattenKey parts)) /\
  (" "%char ∉ list_ascii_of_string (flattenKey parts)).
Proof.
  unfold flattenKey. set (f := fun r : Utf8.rune => _).
  assert (Hno : forall c : ascii, Utf8.val c < 0x80 ->
            (forall r, f r <> Utf8.val c) ->
            c ∉ list_ascii_of_string (GoStrings.Map f (GoStrings.Join parts "."))).
  { intros c Hc Hf Hin. apply Map_bytes in Hin as (r & _ & Hin).
    apply EncodeRune_bytes in Hin as [[Hr Heq]|Hhigh]; [|lia].
    apply (Hf r). rewrite Heq, val_chr; lia. }
  split; (apply Hno; [vm_compute; reflexivity|]); intros r;
    apply (flattenKey_mapping r).
Qed.

Lemma index_first (c : ascii) (k rest : string) :
  c ∉ list_ascii_of_string k ->
  String.index 0 (String c "") (k +:+ String c rest) = Some (String.length k).
Proof.
  induction k as [|b k IH]; intros Hc.
  - simpl. destruct (ascii_dec c c); [|contradiction]. destruct rest; reflexivity.
  - simpl in Hc. apply not_elem_of_cons in Hc as [Hne Hc].
    simpl. destruct (ascii_dec c b); [contradiction|].
    rewrite (IH Hc). reflexivity.
Qed.

Lemma flattenKey_single (s : string) :
  flattenKey [s]
  = GoStrings.Map (fun r =>
      if r =? Utf8.val ":" then Utf8.val "_"
      else if r =? Utf8.val " " then Utf8.val "_"
      else r) s.
Proof. reflexivity. Qed.

(** flattenKey, segment by segment. *)
Lemma flattenKey_segments (parts : list string) :
  flattenKey parts = String.concat "." (map (fun p => flattenKey [p]) parts).
Proof.
  unfold flattenKey, GoStrings.Join. set (f := fun r : Utf8.rune => _).
  change (fun p => GoStrings.Map f (String.concat "." [p])) with (GoStrings.Map f).
  assert (Hpos : forall r, Utf8.ValidRune r = true -> 0 <= f r)
    by (intros r; apply (flattenKey_mapping r)).
  induction parts as [|x parts IH]; [reflexivity|].
  destruct parts as [|y parts]; [reflexivity|].
  change (String.concat "." (x :: y :: parts))
    with (x +:+ String "."%char (String.concat "." (y :: parts))).
  change (String.concat "." (map (GoStrings.Map f) (x :: y :: parts)))
    with (GoStrings.Map f x
          +:+ String "."%char (String.concat "." (map (GoStrings.Map f) (y :: parts)))).
  rewrite Map_app_ascii by (exact Hpos || (vm_compute; reflexivity)).
  rewrite IH. reflexivity.
Qed.

(** C7. The key formatter joins the segments, followed by the label
    values in their order, with dots, and then replaces each space and
    each colon by an underscore and leaves every other character as it
    is, in its place. A character is a rune, as Go reads the joined
    string: what is returned is the encoding of the runes of the joined
    string, each space and each colon replaced. When the joined string
    is valid UTF-8 this is the joined string with each byte that is a
    space or a colon replaced, of the same length, byte for byte. *)
Theorem flattenKey_joins_and_sanitizes (parts : list string) (labels : list Label) :
  let segments := (parts ++ map Value labels)%list in
  let joined := String.concat "." segments in
  flattenKeyLabels parts labels = flattenKey segments /\
  flattenKey parts = flattenKeyLabels parts [] /\
  flattenKey segments = Utf8.encode (map sanitized_rune (Utf8.runes joined)) /\
  Utf8.runes (flattenKey segments) = map sanitized_rune (Utf8.runes joined) /\
  (Utf8.ValidString joined = true ->
   flattenKey segments = map_bytes sanitized joined /\
   String.length (flattenKey segments) = String.length joined /\
   forall i, String.get i (flattenKey segments) = sanitized <$> String.get i joined) /\
  (forall c, (c = " "%char \/ c = ":"%char -> sanitized c = "_"%char) /\
             (c <> " "%char -> c <> ":"%char -> sanitized c = c)) /\
  (forall r, (r = Utf8.val " " \/ r = Utf8.val ":" -> sanitized_rune r = Utf8.val "_") /\
             (r <> Utf8.val " " -> r <> Utf8.val ":" -> sanitized_rune r = r)) /\
  flattenKey ["a"; "b c"] = "a.b_c" /\
  flattenKeyLabels ["svc"] [{| Name := "label"; Value := "x:y" |}] = "svc.x_y".
Proof.
  cbn zeta. repeat apply conj.
  - unfold flattenKeyLabels. rewrite append_labels. reflexivity.
  - reflexivity.
  - unfold flattenKey, GoStrings.Join. rewrite Map_encode.
    + f_equal. apply list_fmap_ext. intros _ r _. apply (flattenKey_mapping r).
    + intros r. apply (flattenKey_mapping r).
  - unfold flattenKey, GoStrings.Join. rewrite Map_runes.
    + apply list_fmap_ext. intros _ r _. apply (flattenKey_mapping r).
    + intros r. apply (flattenKey_mapping r).
  - intros Hv. rewrite (flattenKey_valid _ Hv).
    split; [reflexivity|]. split; [apply map_bytes_length|]. intros i. apply map_bytes_get.
  - intros c. unfold sanitized. split.
    + intros Hc. destruct (decide _); [reflexivity|contradiction].
    + intros H1 H2. destruct (decide _) as [[?|?]|_];
        [contradiction|contradiction|reflexivity].
  - intros r. unfold sanitized_rune. split.
    + intros Hc. destruct (decide _); [reflexivity|contradiction].
    + intros H1 H2. destruct (decide _) as [[?|?]|_];
        [contradiction|contradiction|reflexivity].
  - vm_compute. reflexivity.
  - vm_compute. reflexivity.
Qed.

Lemma flattenKey_joins_and_sanitizes_witness :
  Utf8.ValidString (String.concat "." (utf8_parts ++ map Value utf8_labels)) = true /\
  flattenKey (utf8_parts ++ map Value utf8_labels)
  = map_bytes sanitized (String.concat "." (utf8_parts ++ map Value utf8_labels)) /\
  String.length (flattenKey (utf8_parts ++ map Value utf8_labels))
  = String.length (String.concat "." (utf8_parts ++ map Value utf8_labels)) /\
  forall i, String.get i (flattenKey (utf8_parts ++ map Value utf8_labels))
            = sanitized <$> String.get i
                (String.concat "." (utf8_parts ++ map Value utf8_labels)).
Proof.
  split; [vm_compute; reflexivity|].
  apply (proj1 (proj2 (proj2 (proj2 (proj2
           (flattenKey_joins_and_sanitizes utf8_parts utf8_labels)))))).
  vm_compute. reflexivity.
Defined.

(** A segment in UTF-8 keeps its bytes; a byte that starts no encoding
    is read as [RuneError] and written as such, in three bytes. *)
Example flattenKey_examples :
  flattenKeyLabels utf8_parts utf8_labels
  = "caf" +:+ e_acute +:+ ".au_lait.eu_west" /\
  flattenKey broken_parts
  = String (ascii_of_nat 239) (String (ascii_of_nat 191) (String (ascii_of_nat 189)
      ("a_." +:+ e_acute +:+ "_"))) /\
  Utf8.ValidString (String.concat "." broken_parts) = false /\
  Utf8.runes (String.concat "." broken_parts)
  = [Utf8.RuneError; Utf8.val "a"; Utf8.val ":"; Utf8.val "."; 0xE9; Utf8.val " "].
Proof. repeat apply conj; vm_compute; reflexivity. Qed.

(** ** The emission operations *)

Lemma round_half_even_nearest (n d : Z) :
  0 <= n -> 0 < d ->
  0 <= Fmt.round_half_even n d /\
  - d <= 2 * n - 2 * d * Fmt.round_half_even n d <= d.
Proof.
  intros Hn Hd. unfold Fmt.round_half_even.
  pose proof (Z.div_mod n d ltac:(lia)) as Hdm.
  pose proof (Z.mod_pos_bound n d Hd) as Hm.
  assert (0 <= n / d) by (apply Z.div_pos; lia).
  destruct (2 * (n mod d) <? d) eqn:E1; [apply Z.ltb_lt in E1; nia|].
  apply Z.ltb_ge in E1.
  destruct (d <? 2 * (n mod d)) eqn:E2; [apply Z.ltb_lt in E2; nia|].
  apply Z.ltb_ge in E2.
  destruct (Z.even (n / d)); nia.
Qed.

Lemma f32_frac_bounds v : 0 <= Fmt.f32_frac v < 2 ^ 23.
Proof.
  unfold Fmt.f32_frac. rewrite Z.land_ones by lia. apply Z.mod_pos_bound. lia.
Qed.

Lemma f32_exp_bounds v : 0 <= Fmt.f32_exp v < 256.
Proof.
  unfold Fmt.f32_exp. change 255 with (Z.ones 8).
  rewrite Z.land_ones by lia. apply Z.mod_pos_bound. lia.
Qed.

(** The decimal printed for a finite [float32] is its magnitude in
    millionths, exactly or to the nearest. *)
Lemma millionths_nearest (v : Fmt.float32) :
  0 <= Fmt.millionths v /\
  (0 <= Fmt.exponent v ->
   Fmt.millionths v = Fmt.significand v * 2 ^ Fmt.exponent v * 10 ^ 6) /\
  (Fmt.exponent v < 0 ->
   - 2 ^ (- Fmt.exponent v)
   <= 2 * (Fmt.significand v * 10 ^ 6)
      - 2 * 2 ^ (- Fmt.exponent v) * Fmt.millionths v
   <= 2 ^ (- Fmt.exponent v)).
Proof.
  assert (Hs : 0 <= Fmt.significand v).
  { unfold Fmt.significand. pose proof (f32_frac_bounds v).
    destruct (Fmt.f32_exp v =? 0); lia. }
  unfold Fmt.millionths. destruct (0 <=? Fmt.exponent v) eqn:E.
  - apply Z.leb_le in E. split; [|split; [reflexivity|lia]].
    assert (0 < 2 ^ Fmt.exponent v) by (apply Z.pow_pos_nonneg; lia). nia.
  - apply Z.leb_gt in E.
    assert (Hd : 0 < 2 ^ (- Fmt.exponent v)) by (apply Z.pow_pos_nonneg; lia).
    destruct (round_half_even_nearest (Fmt.significand v * 10 ^ 6) _ ltac:(lia) Hd)
      as [H0 H1].
    split; [exact H0|]. split; [lia|]. intros _. exact H1.
Qed.

(** C8. Each emission operation formats the flattened key, a colon,
    the value printed by [%f], a bar, the kind and a newline, and pushes
    that line without blocking; the operations with labels do the same
    with the labels' values appended to the key. Nothing is returned
    but the effect on the queue. The value printed for a finite float
    is its sign and its magnitude in millionths, exact or rounded to
    the nearest, as an integer part, a point and six digits. *)
Theorem emission_formats_and_pushes
    (s : StatsiteSink) (key : list string) (val : Fmt.float32) (labels : list Label) :
  let k := flattenKey key in
  let kl := flattenKey (key ++ map Value labels) in
  let v := Fmt.FormatFloat32 val in
  SetGauge s key val = pushMetric s (k +:+ ":" +:+ v +:+ "|g" +:+ nl) /\
  EmitKey s key val = pushMetric s (k +:+ ":" +:+ v +:+ "|kv" +:+ nl) /\
  IncrCounter s key val = pushMetric s (k +:+ ":" +:+ v +:+ "|c" +:+ nl) /\
  AddSample s key val = pushMetric s (k +:+ ":" +:+ v +:+ "|ms" +:+ nl) /\
  SetGaugeWithLabels s key val labels
    = pushMetric s (kl +:+ ":" +:+ v +:+ "|g" +:+ nl) /\
  IncrCounterWithLabels s key val labels
    = pushMetric s (kl +:+ ":" +:+ v +:+ "|c" +:+ nl) /\
  AddSampleWithLabels s key val labels
    = pushMetric s (kl +:+ ":" +:+ v +:+ "|ms" +:+ nl) /\
  SetGauge s key val <> Blocks /\ EmitKey s key val <> Blocks /\
  IncrCounter s key val <> Blocks /\ AddSample s key val <> Blocks /\
  (Fmt.f32_exp val <> 255 ->
   v = (if Fmt.f32_sign val then "-" else "")
         +:+ Fmt.decimal (Fmt.millionths val / 10 ^ 6) +:+ "."
         +:+ Fmt.six_digits (Fmt.millionths val mod 10 ^ 6) /\
   0 <= Fmt.millionths val /\
   (0 <= Fmt.exponent val ->
    Fmt.millionths val = Fmt.significand val * 2 ^ Fmt.exponent val * 10 ^ 6) /\
   (Fmt.exponent val < 0 ->
    - 2 ^ (- Fmt.exponent val)
    <= 2 * (Fmt.significand val * 10 ^ 6)
       - 2 * 2 ^ (- Fmt.exponent val) * Fmt.millionths val
    <= 2 ^ (- Fmt.exponent val))) /\
  ((forall q, metricQueue s = Some q -> Chan.closed q = false) ->
   forall m, exists s', pushMetric s m = Returns s' /\ addr s' = addr s).
Proof.
  cbn zeta. unfold SetGauge, EmitKey, IncrCounter, AddSample,
    SetGaugeWithLabels, IncrCounterWithLabels, AddSampleWithLabels,
    flattenKeyLabels.
  rewrite append_labels.
  repeat apply conj; try reflexivity; try apply select_default_never_blocks.
  - intros Hfin. split.
    + unfold Fmt.FormatFloat32. apply Z.eqb_neq in Hfin. rewrite Hfin. reflexivity.
    + apply millionths_nearest.
  - intros Hopen m.
    unfold pushMetric, Chan.send. destruct (metricQueue s) as [q|].
    + rewrite (Hopen q eq_refl).
      destruct (length (Chan.buf q) <? Chan.cap q)%nat; cbn; eauto.
    + cbn. eauto.
Qed.

(** 1.5, 0.1 (the float32 nearest to it), a tie that rounds to even,
    minus zero and the largest float32. *)
Example FormatFloat32_examples :
  Fmt.FormatFloat32 0x3FC00000 = "1.500000" /\
  Fmt.FormatFloat32 0x3DCCCCCD = "0.100000" /\
  Fmt.FormatFloat32 0x3C000000 = "0.007812" /\
  Fmt.FormatFloat32 0x80000000 = "-0.000000" /\
  Fmt.FormatFloat32 0x7F7FFFFF = "340282346638528859811704183484516925440.000000" /\
  Fmt.FormatFloat32 0x7F800000 = "+Inf" /\
  Fmt.FormatFloat32 0x7FC00000 = "NaN".
Proof. repeat split; vm_compute; reflexivity. Qed.

Lemma emission_formats_and_pushes_witness :
  SetGauge {| addr := "h:8125"; metricQueue := Some (Chan.make 4096) |}
    ["a"; "b c"] 0x3FC00000
  = Returns {| addr := "h:8125";
               metricQueue := Some (Chan.Build ["a.b_c:1.500000|g" +:+ nl] 4096 false) |} /\
  Fmt.FormatFloat32 0x3FC00000
  = "" +:+ Fmt.decimal (Fmt.millionths 0x3FC00000 / 10 ^ 6) +:+ "."
       +:+ Fmt.six_digits (Fmt.millionths 0x3FC00000 mod 10 ^ 6).
Proof.
  pose proof (emission_formats_and_pushes
                {| addr := "h:8125"; metricQueue := Some (Chan.make 4096) |}
                ["a"; "b c"] 0x3FC00000 []) as H.
  cbn zeta in H.
  destruct H as (Hgauge & _ & _ & _ & _ & _ & _ & _ & _ & _ & _ & Hfinite & _).
  split.
  - rewrite Hgauge. vm_compute. reflexivity.
  - apply Hfinite. vm_compute. discriminate.
Defined.

(** * Further properties of the code *)

(** ** Panics *)

(** Once Shutdown has been called the queue is closed, or gone. *)
Lemma reach_after_Close a evs o st :
  reach a evs o st -> Close ∈ evs ->
  queue_closed st = true \/ metricQueue (sink st) = None.
Proof.
  induction 1 as [|evs o st ev o1 st1 Hr IH Hs]; intros Hin.
  - inversion Hin.
  - apply elem_of_app in Hin.
    assert (Hcase : ev = Close \/ Close ∈ evs).
    { destruct Hin as [Hin|Hin]; [right; exact Hin|left].
      apply list_elem_of_singleton in Hin. congruence. }
    clear Hin. unfold queue_closed in *.
    destruct Hs; try destruct r; cbn;
      repeat match goal with H : metricQueue _ = _ |- _ => rewrite H in * end;
      auto;
      destruct Hcase as [Hc|Hc]; try discriminate Hc;
      specialize (IH Hc); cbn in IH; intuition congruence.
Qed.

(** X1. Shutdown cannot be called twice: in every state the program
    reaches after a Shutdown, another Shutdown panics, on the closed
    channel or, once the goroutine has returned, on the nil one. *)
Theorem Shutdown_twice_panics
    (a : string) (evs : list event) (o : list obs) (st : system) :
  run evs (NewStatsiteSink a) = Returns (o, st) ->
  Close ∈ evs ->
  (pc (worker st) <> RETURNED /\
   run (evs ++ [Close]) (NewStatsiteSink a) = Panics "close of closed channel") \/
  (pc (worker st) = RETURNED /\
   run (evs ++ [Close]) (NewStatsiteSink a) = Panics "close of nil channel").
Proof.
  intros Hrun Hin. rewrite run_app, Hrun. cbn [mbind outcome_bind].
  rewrite run_cons. apply run_reach in Hrun.
  pose proof (reach_Inv _ _ _ _ Hrun) as Hinv.
  destruct (reach_after_Close _ _ _ _ Hrun Hin) as [Hc|Hn].
  - left. unfold queue_closed in Hc.
    destruct (metricQueue (sink st)) as [q|] eqn:Hq; [|discriminate].
    split.
    + intros Hr. rewrite (inv_returned _ Hinv Hr) in Hq. discriminate.
    + cbn [step]. unfold Shutdown, Chan.close. rewrite Hq, Hc. reflexivity.
  - right. split.
    + destruct (decide (pc (worker st) = RETURNED)) as [Hr|Hr]; [exact Hr|].
      destruct (inv_queue _ Hinv Hr) as (q & Hq & _). congruence.
    + cbn [step]. unfold Shutdown, Chan.close. rewrite Hn. reflexivity.
Qed.

Lemma Shutdown_twice_panics_witness :
  (pc (worker st_shut) <> RETURNED /\
   run (evs_shut ++ [Close]) (NewStatsiteSink "h:8125")
   = Panics "close of closed channel") \/
  (pc (worker st_shut) = RETURNED /\
   run (evs_shut ++ [Close]) (NewStatsiteSink "h:8125")
   = Panics "close of nil channel").
Proof.
  apply (Shutdown_twice_panics "h:8125" evs_shut [Enqueued line_a; Enqueued line_b]
           st_shut).
  - reflexivity.
  - unfold evs_shut. do 3 (apply elem_of_cons; right).
    apply elem_of_cons. left. reflexivity.
Defined.

(** X2. The goroutine never panics: whatever the program has done, a
    step that panics is an emission on the closed queue or a second
    Shutdown, both made by a caller. *)
Theorem only_callers_panic
    (a : string) (evs : list event) (o : list obs) (st : system)
    (ev : event) (msg : string) :
  run evs (NewStatsiteSink a) = Returns (o, st) ->
  step ev st = Panics msg ->
  of_goroutine ev = false /\
  ((exists m, ev = Push m) /\ queue_closed st = true /\
   msg = "send on closed channel" \/
   ev = Close /\ queue_closed st = true /\ msg = "close of closed channel" \/
   ev = Close /\ pc (worker st) = RETURNED /\ msg = "close of nil channel").
Proof.
  intros Hrun Hp. apply run_reach in Hrun.
  pose proof (reach_Inv _ _ _ _ Hrun) as Hinv. unfold queue_closed.
  destruct ev; cbn [step] in Hp.
  - (* Push *)
    split; [reflexivity|]. left. split; [eauto|].
    unfold pushMetric, Chan.send in Hp.
    destruct (metricQueue (sink st)) as [q|]; [|discriminate].
    destruct (Chan.closed q); [inversion Hp; auto|].
    destruct (length (Chan.buf q) <? Chan.cap q)%nat; discriminate.
  - (* Close *)
    split; [reflexivity|]. right. unfold Shutdown, Chan.close in Hp.
    destruct (metricQueue (sink st)) as [q|] eqn:Hq.
    + destruct (Chan.closed q); [inversion Hp; auto|discriminate].
    + right. inversion Hp. repeat split; auto.
      destruct (decide (pc (worker st) = RETURNED)) as [Hr|Hr]; [exact Hr|].
      destruct (inv_queue _ Hinv Hr) as (q & Hq' & _). congruence.
  - destruct (d <? 0); discriminate.
  - destruct (pc (worker st)); discriminate.
  - (* Recv *)
    destruct (pc (worker st)) eqn:Hpc; try discriminate.
    + destruct (inv_stream _ Hinv Hpc) as (b & Hb & _).
      unfold flushMetrics_STREAM_recv, Chan.recv in Hp.
      destruct (metricQueue (sink st)) as [q|]; [|discriminate].
      destruct (Chan.buf q) as [|m rest].
      * destruct (Chan.closed q); discriminate.
      * cbn [mbind mret outcome_bind outcome_ret] in Hp.
        change (buffered (worker (with_queue st ?x))) with (buffered (worker st)) in Hp.
        rewrite Hb in Hp.
        destruct (Bufio.Write _ _ _) as [[b' net'] [e|]]; discriminate.
    + unfold flushMetrics_WAIT_recv, Chan.recv in Hp.
      destruct (metricQueue (sink st)) as [q|]; [|discriminate].
      destruct (Chan.buf q) as [|m rest]; [|discriminate].
      destruct (Chan.closed q); discriminate.
  - (* Tick *)
    destruct (pc (worker st)) eqn:Hpc; try discriminate.
    destruct (inv_stream _ Hinv Hpc) as (b & Hb & _).
    unfold flushMetrics_STREAM_tick in Hp.
    destruct (C (ticker (worker st))); [|discriminate]. cbn [negb] in Hp.
    change (buffered (worker (with_ticker st ?x))) with (buffered (worker st)) in Hp.
    rewrite Hb in Hp.
    destruct (Bufio.Flush _ _) as [[b' net'] [e|]]; discriminate.
  - (* Wait *)
    destruct (pc (worker st)); try discriminate.
    unfold flushMetrics_WAIT_wait in Hp.
    destruct (wait (worker st)) as [t|]; [|discriminate].
    destruct (now st <? t); discriminate.
  - destruct (pc (worker st)); discriminate.
Qed.

Lemma only_callers_panic_witness :
  of_goroutine (Push line_c) = false /\
  ((exists m, Push line_c = Push m) /\ queue_closed st_shut = true /\
   "send on closed channel" = "send on closed channel" \/
   Push line_c = Close /\ queue_closed st_shut = true /\
   "send on closed channel" = "close of closed channel" \/
   Push line_c = Close /\ pc (worker st_shut) = RETURNED /\
   "send on closed channel" = "close of nil channel").
Proof.
  apply (only_callers_panic "h:8125" evs_shut [Enqueued line_a; Enqueued line_b]
           st_shut (Push line_c) "send on closed channel"); reflexivity.
Defined.

(** ** Overflow *)

(** X3. A burst of emissions that the goroutine does not interleave
    with fills the open queue up to its capacity and no further: the
    queue keeps what it held and takes the first lines of the burst
    that fit, in order; the later ones are dropped, and nothing else
    in the program changes. This is for a goroutine that is not parked
    on the queue, for a parked receiver is handed a line without
    running: lines are queued, or the goroutine is neither in the
    stream loop nor under WAIT. *)
Theorem burst_keeps_oldest (ms : list string) (st : system) (q : Chan.chan) :
  metricQueue (sink st) = Some q -> Chan.closed q = false ->
  (length (Chan.buf q) <= Chan.cap q)%nat ->
  Chan.buf q <> [] \/ (pc (worker st) <> STREAM /\ pc (worker st) <> WAIT) ->
  exists o st',
    run (Push <$> ms) st = Returns (o, st') /\
    queued st' = take (Chan.cap q) (Chan.buf q ++ ms) /\
    enqueued o = take (Chan.cap q - length (Chan.buf q)) ms /\
    dropped o = drop (Chan.cap q - length (Chan.buf q)) ms /\
    queue_closed st' = false /\
    worker st' = worker st /\ net st' = net st /\ log st' = log st.
Proof.
  revert st q. induction ms as [|m ms IH]; intros st q Hq Hc Hlen Hpark.
  - exists [], st. unfold queued, queue_closed. rewrite Hq, app_nil_r.
    rewrite take_ge by lia. rewrite take_nil, drop_nil. auto 10.
  - rewrite fmap_cons, run_cons.
    destruct (decide (length (Chan.buf q) < Chan.cap q)%nat) as [Hlt|Hge].
    + rewrite (Step_step _ _ _ _ (Step_push st m q Hq Hc Hlt)).
      cbn [mbind outcome_bind].
      destruct (IH (with_queue st (Some (Chan.Build (Chan.buf q ++ [m]) (Chan.cap q) false)))
                  (Chan.Build (Chan.buf q ++ [m]) (Chan.cap q) false))
        as (o & st' & Hr & Hqd & He & Hd & Hcl & Hw & Hn & Hl);
        [reflexivity|reflexivity|cbn; rewrite length_app; cbn; lia
        |left; cbn; intros Hnil; apply app_eq_nil in Hnil as [_ Hnil]; discriminate|].
      rewrite Hr. cbn [mbind outcome_bind mret outcome_ret].
      exists ([Enqueued m] ++ o)%list, st'. cbn in Hqd, He, Hd.
      rewrite length_app in He, Hd. cbn in He, Hd.
      split; [reflexivity|]. split; [rewrite Hqd, <- app_assoc; reflexivity|].
      replace (Chan.cap q - length (Chan.buf q))%nat
        with (S (Chan.cap q - (length (Chan.buf q) + 1))) by lia.
      unfold enqueued, dropped in *. rewrite !omap_app, He, Hd. cbn. auto 10.
    + assert (Hfull : (Chan.cap q <= length (Chan.buf q))%nat) by lia.
      rewrite (Step_step _ _ _ _ (Step_push_full st m q Hq Hc Hfull)).
      cbn [mbind outcome_bind].
      destruct (IH (with_sink st (sink st)) q Hq Hc Hlen Hpark)
        as (o & st' & Hr & Hqd & He & Hd & Hcl & Hw & Hn & Hl).
      rewrite Hr. cbn [mbind outcome_bind mret outcome_ret].
      exists ([Dropped m] ++ o)%list, st'.
      replace (Chan.cap q - length (Chan.buf q))%nat with 0%nat in * by lia.
      rewrite take_0 in *. rewrite drop_0 in *.
      assert (Hcap : Chan.cap q = length (Chan.buf q)) by lia.
      rewrite Hcap in *. rewrite take_app_length in *.
      unfold enqueued, dropped in *. rewrite !omap_app, He, Hd. cbn. auto 10.
Qed.

Lemma burst_keeps_oldest_witness :
  exists o st',
    run (Push <$> [line_a; line_b; line_c])
      (with_queue (NewStatsiteSink "h:8125")
         (Some (Chan.Build [line_c] 2 false))) = Returns (o, st') /\
    queued st' = take 2 ([line_c] ++ [line_a; line_b; line_c]) /\
    enqueued o = take (2 - 1) [line_a; line_b; line_c] /\
    dropped o = drop (2 - 1) [line_a; line_b; line_c] /\
    queue_closed st' = false /\
    worker st' = worker (NewStatsiteSink "h:8125") /\
    net st' = net (NewStatsiteSink "h:8125") /\
    log st' = log (NewStatsiteSink "h:8125").
Proof.
  apply (burst_keeps_oldest [line_a; line_b; line_c]
           (with_queue (NewStatsiteSink "h:8125") (Some (Chan.Build [line_c] 2 false)))
           (Chan.Build [line_c] 2 false));
    [reflexivity|reflexivity|cbn; lia|left; discriminate].
Defined.

(** ** Counting over a run *)

Lemma pushes_app l1 l2 : pushes (l1 ++ l2) = (pushes l1 + pushes l2)%nat.
Proof. induction l1 as [|[] l1 IH]; cbn; lia. Qed.

Lemma dials_app l1 l2 : dials (l1 ++ l2) = (dials l1 + dials l2)%nat.
Proof. induction l1 as [|[] l1 IH]; cbn; lia. Qed.

Lemma connects_app l1 l2 : connects (l1 ++ l2) = (connects l1 + connects l2)%nat.
Proof. induction l1 as [|[| | |[]| | | |] l1 IH]; cbn; lia. Qed.

Lemma ticks_app l1 l2 : ticks (l1 ++ l2) = (ticks l1 + ticks l2)%nat.
Proof. induction l1 as [|[] l1 IH]; cbn; lia. Qed.

Lemma elapsed_app l1 l2 : elapsed (l1 ++ l2) = elapsed l1 + elapsed l2.
Proof. induction l1 as [|[] l1 IH]; cbn; lia. Qed.

(** ** The ticker *)

(** The ticker when the clock goes from [now0] to [now1]: it keeps its
    period, its next fire is at most one period ahead, and it either
    stays as it is or leaves a tick and moves its next fire by at least
    a period; it leaves a tick whenever one was due. *)
Lemma ticker_advance_spec (now0 now1 : Z) (t : Ticker) :
  0 < period t -> now0 <= now1 -> next_fire t <= now0 + period t ->
  period (ticker_advance now1 t) = period t /\
  stopped (ticker_advance now1 t) = stopped t /\
  next_fire (ticker_advance now1 t) <= now1 + period t /\
  (C (ticker_advance now1 t) = C t /\
   next_fire (ticker_advance now1 t) = next_fire t \/
   C (ticker_advance now1 t) = true /\
   next_fire t + period t <= next_fire (ticker_advance now1 t)) /\
  (stopped t = false -> next_fire t <= now1 -> C (ticker_advance now1 t) = true).
Proof.
  intros Hp Hnow Hnf. unfold ticker_advance.
  destruct (stopped t) eqn:Hs; cbn [orb].
  - split; [reflexivity|]. split; [exact Hs|]. split; [lia|].
    split; [left; split; reflexivity|discriminate].
  - destruct (now1 <? next_fire t) eqn:Hlt.
    + apply Z.ltb_lt in Hlt.
      split; [reflexivity|]. split; [exact Hs|]. split; [lia|].
      split; [left; split; reflexivity|intros _ ?; lia].
    + apply Z.ltb_ge in Hlt. cbn.
      pose proof (Z.div_mod (now1 - next_fire t) (period t) ltac:(lia)) as Hdm.
      pose proof (Z.mod_pos_bound (now1 - next_fire t) (period t) Hp) as Hm.
      assert (0 <= (now1 - next_fire t) / period t) by (apply Z.div_pos; lia).
      split; [reflexivity|]. split; [reflexivity|]. split; [nia|].
      split; [right; split; [reflexivity|nia]|reflexivity].
Qed.

Lemma Timed_init a : Timed [] (NewStatsiteSink a).
Proof. split; cbn; try discriminate; try reflexivity; unfold flushInterval, Millisecond, Second; lia. Qed.

Ltac fields :=
  cbn [now worker sink net log pc sock wait buffered ticker deferred
       with_worker with_sink with_queue with_net with_pc with_buffered
       with_ticker log_Printf goto_WAIT flushMetrics_CONNECT flushMetrics_QUIT
       elapse ticker_take ticker_Stop period next_fire C stopped
       set_metricQueue metricQueue addr] in *.

Ltac timed_finish :=
  try match goal with
    | |- _ = _ -> _ => let Hpc := fresh "Hpc" in intros Hpc
    end;
  change (Z.of_nat 1) with 1 in *;
  repeat match goal with
    | H : pc (worker ?st) = _ |- _ => rewrite H in *; clear H
    | H : C (ticker (worker ?st)) = _ |- _ => rewrite H in *; clear H
    end;
  try discriminate;
  repeat match goal with
    | H : ?l = ?l -> _ |- _ => specialize (H eq_refl)
    | H : ex _ |- _ => destruct H
    | H : _ /\ _ |- _ => destruct H
    end;
  simplify_eq;
  repeat case_bool_decide; try congruence;
  try solve [eexists; split; [eassumption|lia]];
  try solve [eexists; split; [reflexivity|lia]];
  repeat match goal with
    | |- context [if ?b then _ else _] => destruct b
    | H : context [if ?b then _ else _] |- _ => destruct b
    end;
  try lia.

Lemma Timed_Step evs st ev o st' :
  Timed evs st -> Step st ev o st' -> Timed (evs ++ [ev]) st'.
Proof.
  intros [Hnow Hper Hst Hnf Htk Hw Hc Hd] Hs.
  assert (H5 : 0 < 5 * Second) by (unfold Second, Millisecond; lia).
  assert (Hfi : 0 < flushInterval) by (unfold flushInterval, Millisecond; lia).
  destruct Hs as [| | | |d Hd0| | | | | | | | | |]; try destruct r;
    try (destruct (ticker_advance_spec (now st) (now st + d) (ticker (worker st)))
           as (Ha1 & Ha2 & Ha3 & [[Ha4 Ha4']|[Ha4 Ha4']] & Ha5); [lia|lia|lia| |];
         rewrite ?Ha1, ?Ha2, ?Ha4, ?Ha4' in * );
    (split; rewrite ?elapsed_app, ?ticks_app, ?dials_app;
     cbn [elapsed ticks dials]; fields;
     rewrite ?Nat.add_0_r, ?Z.add_0_r, ?Nat2Z.inj_add; fields);
    try solve [timed_finish].
Qed.

Lemma reach_Timed a evs o st : reach a evs o st -> Timed evs st.
Proof.
  induction 1 as [|evs o st ev o1 st1 Hr IH Hs];
    [apply Timed_init|exact (Timed_Step _ _ _ _ _ IH Hs)].
Qed.

(** ** Connections, deferred calls and the log *)

Lemma Conns_init a : Conns [] (NewStatsiteSink a).
Proof. split; cbn; try discriminate; try reflexivity; try lia. constructor. Qed.

Lemma log_line_Sprintf (e : string) :
  log_line (Fmt.Sprintf "[ERR] Error connecting to statsite! Err: %s" [Fmt.OpString e]) /\
  log_line (Fmt.Sprintf "[ERR] Error writing to statsite! Err: %s" [Fmt.OpString e]) /\
  log_line (Fmt.Sprintf "[ERR] Error flushing to statsite! Err: %s" [Fmt.OpString e]).
Proof.
  rewrite log_line_connecting, log_line_writing, log_line_flushing.
  repeat split; exists e; auto.
Qed.

Ltac conns_finish :=
  auto;
  try match goal with
    | |- _ = _ -> _ => intros ?
    | |- _ <> _ -> _ => intros ?
    end;
  try congruence;
  repeat match goal with
    | H : pc (worker ?st) = ?l, Hx : pc (worker ?st) <> RETURNED -> _ |- _ =>
        specialize (Hx ltac:(rewrite H; discriminate))
    end;
  repeat match goal with
    | H : pc (worker ?st) = _ |- _ => rewrite H in *; clear H
    end;
  rewrite ?length_app, ?Net_Close_all_length; cbn [length];
  repeat case_decide; try congruence; try lia;
  try solve [apply Forall_app; split; [assumption|];
             constructor; [apply log_line_Sprintf|constructor]].

Lemma Conns_Step evs st ev o st' :
  Inv st -> Conns evs st -> Step st ev o st' -> Conns (evs ++ [ev]) st'.
Proof.
  intros Hinv [Hlen Hdef Hret Hlog Hlines] Hs.
  destruct Hinv as [_ _ _ Hstream].
  destruct Hs; try destruct r; use_inv; simplify_eq; use_bufio;
    (split; rewrite ?connects_app, ?dials_app;
     cbn [connects dials]; fields; rewrite ?Nat.add_0_r; fields);
    try solve [conns_finish].
  intros _. rewrite Nat.add_1_r, seq_S, rev_app_distr. cbn. congruence.
Qed.

Lemma reach_Conns a evs o st : reach a evs o st -> Conns evs st.
Proof.
  induction 1 as [|evs o st ev o1 st1 Hr IH Hs]; [apply Conns_init|].
  exact (Conns_Step _ _ _ _ _ (reach_Inv _ _ _ _ Hr) IH Hs).
Qed.

Lemma run_two st ev1 o1 st1 ev2 o2 st2 :
  Step st ev1 o1 st1 -> Step st1 ev2 o2 st2 ->
  run [ev1; ev2] st = Returns ((o1 ++ o2 ++ [])%list, st2).
Proof.
  intros H1 H2. rewrite run_cons, (Step_step _ _ _ _ H1). cbn [mbind outcome_bind].
  rewrite run_cons, (Step_step _ _ _ _ H2). reflexivity.
Qed.

(** ** Connections *)

(** X4. Every successful Dial makes a connection that stays open for as
    long as the goroutine runs, also after the goroutine has left it
    for WAIT: the closes pile up as deferred calls, the latest first,
    and the ticker runs. They are all run when the goroutine returns:
    then every connection is closed and the ticker is stopped. *)
Theorem connections_closed_only_at_return
    (a : string) (evs : list event) (o : list obs) (st : system) :
  run evs (NewStatsiteSink a) = Returns (o, st) ->
  length (net st) = connects evs /\
  (pc (worker st) <> RETURNED ->
   deferred (worker st) = rev (seq 0 (connects evs)) /\
   stopped (ticker (worker st)) = false /\
   forall c k, net st !! c = Some k -> Net.open k = true) /\
  (pc (worker st) = RETURNED ->
   deferred (worker st) = [] /\
   stopped (ticker (worker st)) = true /\
   forall c k, net st !! c = Some k -> Net.open k = false).
Proof.
  intros Hrun. apply run_reach in Hrun.
  pose proof (reach_Conns _ _ _ _ Hrun) as [Hlen Hdef Hret _ _].
  pose proof (reach_Timed _ _ _ _ Hrun) as [_ _ Hst _ _ _ _ _].
  split; [exact Hlen|]. split.
  - intros Hpc. split; [exact (Hdef Hpc)|]. split.
    + rewrite Hst. apply bool_decide_eq_false_2. exact Hpc.
    + exact (reach_open _ _ _ _ Hrun Hpc).
  - intros Hpc. split; [exact (Hret Hpc)|]. split.
    + rewrite Hst. apply bool_decide_eq_true_2. exact Hpc.
    + intros c k Hk.
      destruct (reach_will_close _ _ _ _ Hrun c) as [_ Hclosed].
      { apply lookup_lt_Some in Hk. exact Hk. }
      destruct (Hclosed Hpc) as (k' & Hk' & Hopen). congruence.
Qed.

Lemma connections_closed_only_at_return_witness :
  length (net st_order) = connects evs_order /\
  (pc (worker st_order) <> RETURNED ->
   deferred (worker st_order) = rev (seq 0 (connects evs_order)) /\
   stopped (ticker (worker st_order)) = false /\
   forall c k, net st_order !! c = Some k -> Net.open k = true) /\
  (pc (worker st_order) = RETURNED ->
   deferred (worker st_order) = [] /\
   stopped (ticker (worker st_order)) = true /\
   forall c k, net st_order !! c = Some k -> Net.open k = false).
Proof.
  apply (connections_closed_only_at_return "h:8125" evs_order obs_order st_order).
  vm_compute. reflexivity.
Defined.

(** ** The pace of the goroutine *)

(** X5. The goroutine dials at most once in five seconds: by the time
    it has dialled [n] times, [5 (n - 1)] seconds have passed, and when
    it is about to dial again, [5 n] seconds have. The clock is the sum
    of the time that passed. *)
Theorem reconnects_are_spaced
    (a : string) (evs : list event) (o : list obs) (st : system) :
  run evs (NewStatsiteSink a) = Returns (o, st) ->
  now st = elapsed evs /\
  Z.of_nat (dials evs) * (5 * Second) <= elapsed evs + 5 * Second /\
  (pc (worker st) = CONNECT -> Z.of_nat (dials evs) * (5 * Second) <= elapsed evs).
Proof.
  intros Hrun. apply run_reach in Hrun.
  pose proof (reach_Timed _ _ _ _ Hrun) as [Hnow _ _ _ _ _ Hc Hd].
  rewrite <- Hnow. auto.
Qed.

Lemma reconnects_are_spaced_witness :
  now st_order = elapsed evs_order /\
  Z.of_nat (dials evs_order) * (5 * Second) <= elapsed evs_order + 5 * Second /\
  (pc (worker st_order) = CONNECT ->
   Z.of_nat (dials evs_order) * (5 * Second) <= elapsed evs_order).
Proof.
  apply (reconnects_are_spaced "h:8125" evs_order obs_order st_order).
  vm_compute. reflexivity.
Defined.

(** X6. The log holds nothing but the three error messages of the
    goroutine, each with the text of its error, and at most one line
    for each Dial: a failed Dial logs one line, a connection logs at
    most one, when a write or a flush on it fails, and none while it is
    streamed to. *)
Theorem log_is_one_line_per_failure
    (a : string) (evs : list event) (o : list obs) (st : system) :
  run evs (NewStatsiteSink a) = Returns (o, st) ->
  Forall log_line (log st) /\
  (length (log st) <= dials evs)%nat /\
  (pc (worker st) = STREAM -> (length (log st) < dials evs)%nat).
Proof.
  intros Hrun. apply run_reach in Hrun.
  pose proof (reach_Conns _ _ _ _ Hrun) as [_ _ _ Hlog Hlines].
  split; [exact Hlines|]. split.
  - lia.
  - intros Hpc. destruct (decide (pc (worker st) = STREAM)); [lia|contradiction].
Qed.

Lemma log_is_one_line_per_failure_witness :
  Forall log_line (log st_broken) /\
  (length (log st_broken) <= dials evs_broken)%nat /\
  (pc (worker st_broken) = STREAM -> (length (log st_broken) < dials evs_broken)%nat).
Proof.
  apply (log_is_one_line_per_failure "h:8125" evs_broken [Enqueued long_line] st_broken).
  vm_compute. reflexivity.
Defined.

(** X7. The ticker case runs at most once for each flush interval that
    has passed, and not twice without the clock moving: right after it
    has run, it is not ready. *)
Theorem flushes_follow_the_ticker
    (a : string) (evs : list event) (o : list obs) (st : system) :
  run evs (NewStatsiteSink a) = Returns (o, st) ->
  Z.of_nat (ticks evs) * flushInterval <= elapsed evs /\
  forall o1 st1, step Tick st = Returns (o1, st1) ->
    step Tick st1 = Blocks /\
    forall d, 0 <= d -> now st1 + d < next_fire (ticker (worker st1)) ->
      run [Elapse d; Tick] st1 = Blocks.
Proof.
  intros Hrun. apply run_reach in Hrun.
  pose proof (reach_Timed _ _ _ _ Hrun) as [Hnow _ _ Hnf Htk _ _ _].
  split.
  - assert (Hfi : 0 < flushInterval) by (unfold flushInterval, Millisecond; lia).
    rewrite <- Hnow. destruct (C (ticker (worker st))); lia.
  - intros o1 st1 Hs. apply step_Step in Hs.
    assert (Hblocks : forall st2, ticker (worker st2) = ticker (worker st1) ->
                        step Tick st2 = Blocks).
    { intros st2 Ht. cbn [step]. unfold flushMetrics_STREAM_tick. rewrite Ht.
      inversion Hs; subst; fields;
        destruct (pc (worker st2)); reflexivity. }
    split; [apply Hblocks; reflexivity|].
    intros d Hd Hlt. rewrite run_cons. cbn [step].
    destruct (d <? 0) eqn:Hd0; [apply Z.ltb_lt in Hd0; lia|].
    cbn [mbind mret outcome_bind outcome_ret]. rewrite run_cons.
    rewrite Hblocks; [reflexivity|].
    fields. unfold ticker_advance.
    apply Z.ltb_lt in Hlt. rewrite Hlt, orb_true_r. reflexivity.
Qed.

Lemma flushes_follow_the_ticker_witness :
  Z.of_nat (ticks evs_due) * flushInterval <= elapsed evs_due /\
  forall o1 st1, step Tick st_due = Returns (o1, st1) ->
    step Tick st1 = Blocks /\
    forall d, 0 <= d -> now st1 + d < next_fire (ticker (worker st1)) ->
      run [Elapse d; Tick] st1 = Blocks.
Proof.
  apply (flushes_follow_the_ticker "h:8125" evs_due
           [Enqueued line_a; Written 0 line_a] st_due).
  vm_compute. reflexivity.
Defined.

(** ** Progress *)

(** X8. The goroutine is never stuck before it returns: at CONNECT it
    can dial, whatever the outcome of the Dial; in the stream loop the
    ticker case is ready once a flush interval has passed; under WAIT
    the timer case is ready once five seconds have passed, and leads to
    CONNECT; at QUIT it returns. After its return it takes no step. *)
Theorem goroutine_never_stuck
    (a : string) (evs : list event) (o : list obs) (st : system) :
  run evs (NewStatsiteSink a) = Returns (o, st) ->
  (pc (worker st) = CONNECT ->
   forall r, exists st', step (Dial r) st = Returns ([], st')) /\
  (pc (worker st) = STREAM ->
   exists st', run [Elapse flushInterval; Tick] st = Returns ([], st')) /\
  (pc (worker st) = WAIT ->
   exists st', run [Elapse (5 * Second); Wait] st = Returns ([], st') /\
               pc (worker st') = CONNECT) /\
  (pc (worker st) = QUIT ->
   exists st', step Return st = Returns ([], st') /\ pc (worker st') = RETURNED) /\
  (pc (worker st) = RETURNED ->
   forall ev, of_goroutine ev = true -> step ev st = Blocks).
Proof.
  intros Hrun. apply run_reach in Hrun.
  pose proof (reach_Inv _ _ _ _ Hrun) as [_ _ _ Hstream].
  pose proof (reach_Timed _ _ _ _ Hrun) as [_ Hper Hst Hnf _ Hw _ _].
  assert (Hfi : 0 < flushInterval) by (unfold flushInterval, Millisecond; lia).
  assert (H5 : 0 < 5 * Second) by (unfold Second, Millisecond; lia).
  repeat apply conj.
  - intros Hpc r. cbn [step]. rewrite Hpc. eexists. reflexivity.
  - intros Hpc. destruct (Hstream Hpc) as (b & Hb & Herr & _).
    destruct (ticker_advance_spec (now st) (now st + flushInterval)
                (ticker (worker st))) as (_ & _ & _ & _ & HC); [lia|lia|lia|].
    rewrite Hst, bool_decide_eq_false_2 in HC by (rewrite Hpc; discriminate).
    specialize (HC eq_refl ltac:(lia)).
    destruct (Bufio.Flush b (net st)) as [[b' net'] [e|]] eqn:Hflush; eexists.
    + apply (run_two st (Elapse flushInterval) [] (elapse flushInterval st) Tick []).
      * apply Step_elapse. lia.
      * eapply Step_tick_err; [exact Hpc|exact HC|exact Hb|exact Hflush].
    + apply (run_two st (Elapse flushInterval) [] (elapse flushInterval st) Tick []).
      * apply Step_elapse. lia.
      * eapply Step_tick; [exact Hpc|exact HC|exact Hb|exact Hflush].
  - intros Hpc. destruct (Hw Hpc) as (t & Ht & Hle & _).
    eexists. split.
    + apply (run_two st (Elapse (5 * Second)) [] (elapse (5 * Second) st) Wait []).
      * apply Step_elapse. lia.
      * apply (Step_wait_fire _ t); [exact Hpc|exact Ht|cbn; lia].
    + reflexivity.
  - intros Hpc. cbn [step]. rewrite Hpc. eexists. split; reflexivity.
  - intros Hpc ev Hev. destruct ev; try discriminate Hev; cbn [step];
      rewrite Hpc; reflexivity.
Qed.

Lemma goroutine_never_stuck_witness :
  (pc (worker st_waiting) = CONNECT ->
   forall r, exists st', step (Dial r) st_waiting = Returns ([], st')) /\
  (pc (worker st_waiting) = STREAM ->
   exists st', run [Elapse flushInterval; Tick] st_waiting = Returns ([], st')) /\
  (pc (worker st_waiting) = WAIT ->
   exists st', run [Elapse (5 * Second); Wait] st_waiting = Returns ([], st') /\
               pc (worker st') = CONNECT) /\
  (pc (worker st_waiting) = QUIT ->
   exists st', step Return st_waiting = Returns ([], st') /\
               pc (worker st') = RETURNED) /\
  (pc (worker st_waiting) = RETURNED ->
   forall ev, of_goroutine ev = true -> step ev st_waiting = Blocks).
Proof.
  apply (goroutine_never_stuck "h:8125"
           [Dial (inr "connection refused"); Push line_a; Push line_b]
           [Enqueued line_a; Enqueued line_b] st_waiting).
  vm_compute. reflexivity.
Defined.

(** ** A connection that does not break *)

Lemma Net_Write_healthy net c p :
  healthy net c ->
  exists net', Net.Write net c p = (net', length p, None) /\ healthy net' c.
Proof.
  intros (k & Hk & Hq & Ho). unfold Net.Write. rewrite Hk, Ho, Hq. cbn [negb].
  eexists. split; [reflexivity|].
  exists {| Net.wire := Net.wire k ++ p; Net.quota := None; Net.open := true |}.
  split; [|split; reflexivity].
  apply list_lookup_insert_eq. eapply lookup_lt_Some. exact Hk.
Qed.

Lemma Flush_healthy b net :
  Bufio.err b = None -> healthy net (Bufio.wr b) ->
  exists b' net',
    Bufio.Flush b net = (b', net', None) /\ healthy net' (Bufio.wr b) /\
    Bufio.wr b' = Bufio.wr b /\ Bufio.err b' = None /\ Bufio.pending b' = [].
Proof.
  intros Herr Hh. unfold Bufio.Flush. rewrite Herr.
  destruct (Bufio.Buffered b =? 0)%nat eqn:Hn.
  - exists b, net. apply Nat.eqb_eq in Hn. unfold Bufio.Buffered in Hn.
    repeat split; auto. destruct (Bufio.pending b); [reflexivity|discriminate].
  - destruct (Net_Write_healthy net (Bufio.wr b) (Bufio.pending b) Hh)
      as (net' & Hw & Hh').
    rewrite Hw. eexists _, net'. repeat split; auto.
Qed.

Lemma write_body_healthy b net p :
  Bufio.err b = None -> healthy net (Bufio.wr b) ->
  exists b1 net1 p1,
    Bufio.write_body (b, net, p) = (b1, net1, p1) /\
    Bufio.err b1 = None /\ Bufio.wr b1 = Bufio.wr b /\ healthy net1 (Bufio.wr b).
Proof.
  intros Herr Hh. unfold Bufio.write_body.
  destruct (Bufio.Buffered b =? 0)%nat.
  - destruct (Net_Write_healthy net (Bufio.wr b) p Hh) as (net' & Hw & Hh').
    rewrite Hw. eexists _, net', _. repeat split; auto.
  - destruct (Flush_healthy
                {| Bufio.wr := Bufio.wr b;
                   Bufio.pending := Bufio.pending b ++ take (Bufio.Available b) p;
                   Bufio.err := Bufio.err b |} net Herr Hh)
      as (b' & net' & Hf & Hh' & Hwr & Herr' & _).
    rewrite Hf. eexists b', net', _. repeat split; auto.
Qed.

Lemma while_healthy fuel b net p :
  Bufio.err b = None -> healthy net (Bufio.wr b) ->
  exists b1 net1 p1,
    Bufio.while fuel (b, net, p) = (b1, net1, p1) /\
    Bufio.err b1 = None /\ Bufio.wr b1 = Bufio.wr b /\ healthy net1 (Bufio.wr b).
Proof.
  revert b net p. induction fuel as [|fuel IH]; intros b net p Herr Hh.
  - exists b, net, p. repeat split; auto.
  - rewrite while_S. destruct (Bufio.write_cond (b, net, p)).
    + destruct (write_body_healthy b net p Herr Hh)
        as (b1 & net1 & p1 & Hb & Herr1 & Hwr1 & Hh1).
      rewrite Hb. rewrite <- Hwr1 in Hh1.
      destruct (IH b1 net1 p1 Herr1 Hh1) as (b2 & net2 & p2 & Hw & ? & ? & ?).
      exists b2, net2, p2. rewrite Hwr1 in *. repeat split; auto.
    + exists b, net, p. repeat split; auto.
Qed.

(** On a connection that does not break, [Write] returns no error. *)
Lemma Write_healthy b net p :
  Bufio.err b = None -> healthy net (Bufio.wr b) ->
  exists b' net',
    Bufio.Write b net p = (b', net', None) /\ healthy net' (Bufio.wr b) /\
    Bufio.wr b' = Bufio.wr b /\ Bufio.err b' = None.
Proof.
  intros Herr Hh. unfold Bufio.Write.
  destruct (while_healthy 2 b net p Herr Hh) as (b1 & net1 & p1 & Hw & Herr1 & Hwr1 & Hh1).
  rewrite Hw, Herr1. eexists _, net1. repeat split; auto.
Qed.

Lemma handed_Written c ms : handed c (Written c <$> ms) = ms.
Proof.
  induction ms as [|m ms IH]; [reflexivity|].
  rewrite fmap_cons. change (Written c m :: (Written c <$> ms))
    with ([Written c m] ++ (Written c <$> ms))%list.
  rewrite handed_app, IH. unfold handed. cbn [omap list_omap app].
  rewrite decide_True by reflexivity. reflexivity.
Qed.

(** The stream loop on a connection that does not break takes every
    queued line, in order. *)
Lemma healthy_drain ms :
  forall st q b,
    pc (worker st) = STREAM ->
    metricQueue (sink st) = Some q -> Chan.buf q = ms ->
    buffered (worker st) = Some b -> Bufio.err b = None ->
    healthy (net st) (Bufio.wr b) ->
    exists st' b',
      run (repeat Recv (length ms)) st = Returns (Written (Bufio.wr b) <$> ms, st') /\
      pc (worker st') = STREAM /\ queued st' = [] /\
      queue_closed st' = queue_closed st /\
      buffered (worker st') = Some b' /\ Bufio.wr b' = Bufio.wr b /\
      Bufio.err b' = None /\ healthy (net st') (Bufio.wr b) /\
      ticker (worker st') = ticker (worker st) /\ now st' = now st.
Proof.
  induction ms as [|m ms IH]; intros st q b Hpc Hq Hbuf Hb Herr Hh.
  - exists st, b. unfold queued. rewrite Hq, Hbuf. repeat split; auto.
  - destruct (Write_healthy b (net st) (list_byte_of_string m) Herr Hh)
      as (b1 & net1 & Hw & Hh1 & Hwr1 & Herr1).
    cbn [length repeat]. rewrite run_cons.
    rewrite (Step_step _ _ _ _
               (Step_stream_write st m ms q b b1 net1 Hpc Hq Hbuf Hb Hw)).
    cbn [mbind outcome_bind].
    rewrite <- Hwr1 in Hh1.
    destruct (IH (with_buffered
                    (with_net
                       (with_queue st
                          (Some (Chan.Build ms (Chan.cap q) (Chan.closed q))))
                       net1)
                    (Some b1))
                (Chan.Build ms (Chan.cap q) (Chan.closed q)) b1)
      as (st' & b' & Hr & Hpc' & Hq' & Hcl' & Hb' & Hwr' & Herr' & Hh' & Ht' & Hn');
      [exact Hpc | reflexivity | reflexivity | reflexivity | exact Herr1
      | exact Hh1 |].
    rewrite Hr. cbn [mbind outcome_bind mret outcome_ret].
    exists st', b'. rewrite Hwr1 in *. rewrite fmap_cons.
    split; [reflexivity|]. split; [exact Hpc'|]. split; [exact Hq'|].
    split. { rewrite Hcl'. unfold queue_closed. cbn. rewrite Hq. reflexivity. }
    split; [exact Hb'|]. split; [congruence|]. split; [exact Herr'|].
    split; [exact Hh'|]. split; [exact Ht'|exact Hn'].
Qed.

(** ** The flush *)

(** X9. When the ticker case has run, either the flush went through:
    the goroutine is still in the stream loop, the write buffer is
    empty, and the peer of the current connection has received every
    line written to it, byte for byte and in order; or it failed: the
    error is logged as a flushing error and the goroutine is under
    WAIT. No line is observed in either case. *)
Theorem flush_empties_buffer
    (a : string) (evs : list event) (o : list obs) (st : system)
    (o1 : list obs) (st1 : system) :
  run evs (NewStatsiteSink a) = Returns (o, st) ->
  step Tick st = Returns (o1, st1) ->
  o1 = [] /\
  (pc (worker st1) = STREAM /\ log st1 = log st /\
   (exists c b' k,
      sock (worker st1) = Some c /\ buffered (worker st1) = Some b' /\
      Bufio.wr b' = c /\ Bufio.pending b' = [] /\
      net st1 !! c = Some k /\ Net.wire k = bytes_of (handed c o)) \/
   pc (worker st1) = WAIT /\
   exists e, log st1 = (log st ++ ["[ERR] Error flushing to statsite! Err: " +:+ e])%list).
Proof.
  intros Hrun Hs. apply run_reach in Hrun. apply step_Step in Hs.
  pose proof (reach_step _ _ _ _ _ _ _ Hrun Hs) as Hrun1.
  pose proof (reach_Inv _ _ _ _ Hrun) as [_ _ _ Hstream].
  pose proof (reach_Inv _ _ _ _ Hrun1) as [_ _ _ Hstream1].
  pose proof (reach_wire _ _ _ _ Hrun1) as [_ Hwire _].
  inversion Hs as [| | | | | | | | |b b' net' Hpc HC Hb Hfl|b b' net' e Hpc HC Hb Hfl
                  | | | |]; subst; (split; [reflexivity|]).
  - left. rewrite app_nil_r in Hwire.
    destruct (Hstream Hpc) as (b0 & Hb0 & Herr & _).
    rewrite Hb in Hb0. inversion Hb0; subst b0; clear Hb0.
    destruct (Flush_spec _ _ _ _ _ Hfl Herr) as (sent & _ & _ & Hwr & _ & Hpend).
    specialize (Hpend eq_refl).
    destruct (Hstream1 Hpc) as (b1 & Hb1 & _ & Hsock & Hlen).
    cbn in Hb1. inversion Hb1; subst b1; clear Hb1.
    assert (Hk : is_Some (net' !! Bufio.wr b')).
    { apply lookup_lt_is_Some. cbn in Hlen. lia. }
    destruct Hk as [k Hk].
    split; [exact Hpc|]. split; [reflexivity|].
    exists (Bufio.wr b'), b', k.
    split; [exact Hsock|]. split; [reflexivity|]. split; [reflexivity|].
    split; [exact Hpend|]. split; [exact Hk|].
    rewrite <- (Hwire (Bufio.wr b') k b' Hk Hpc eq_refl eq_refl), Hpend, app_nil_r.
    reflexivity.
  - right. split; [reflexivity|]. exists e. fields.
    rewrite log_line_flushing. reflexivity.
Qed.

Lemma flush_empties_buffer_witness :
  ([] : list obs) = [] /\
  (pc (worker (final st_due (step Tick st_due))) = STREAM /\
   log (final st_due (step Tick st_due)) = log st_due /\
   (exists c b' k,
      sock (worker (final st_due (step Tick st_due))) = Some c /\
      buffered (worker (final st_due (step Tick st_due))) = Some b' /\
      Bufio.wr b' = c /\ Bufio.pending b' = [] /\
      net (final st_due (step Tick st_due)) !! c = Some k /\
      Net.wire k = bytes_of (handed c [Enqueued line_a; Written 0 line_a])) \/
   pc (worker (final st_due (step Tick st_due))) = WAIT /\
   exists e, log (final st_due (step Tick st_due))
             = (log st_due ++ ["[ERR] Error flushing to statsite! Err: " +:+ e])%list).
Proof.
  apply (flush_empties_buffer "h:8125" evs_due [Enqueued line_a; Written 0 line_a]
           st_due [] (final st_due (step Tick st_due))).
  - vm_compute. reflexivity.
  - vm_compute. reflexivity.
Defined.

(** X10. On a connection that does not break, the stream loop delivers:
    one receive for each queued line, a flush interval and the ticker
    case put every queued line on the wire, after what the connection
    already had of the earlier lines, in the order of the queue; no
    write fails, the queue is left empty and the goroutine in the
    stream loop. *)
Theorem healthy_connection_delivers
    (a : string) (evs : list event) (o : list obs) (st : system)
    (b : Bufio.Writer) (k : Net.conn) :
  run evs (NewStatsiteSink a) = Returns (o, st) ->
  pc (worker st) = STREAM -> buffered (worker st) = Some b ->
  net st !! Bufio.wr b = Some k -> Net.quota k = None ->
  exists st' k',
    run (repeat Recv (length (queued st)) ++ [Elapse flushInterval; Tick]) st
    = Returns (Written (Bufio.wr b) <$> queued st, st') /\
    pc (worker st') = STREAM /\ queued st' = [] /\
    net st' !! Bufio.wr b = Some k' /\
    Net.wire k' = (Net.wire k ++ Bufio.pending b ++ bytes_of (queued st))%list /\
    Net.wire k' = bytes_of (handed (Bufio.wr b) o ++ queued st).
Proof.
  intros Hrun Hpc Hb Hk Hquota.
  pose proof Hrun as Hreach. apply run_reach in Hreach.
  pose proof (reach_Inv _ _ _ _ Hreach) as [Hqueue _ _ Hstream].
  pose proof (reach_Timed _ _ _ _ Hreach) as [_ Hper Hst Hnf _ _ _ _].
  pose proof (reach_wire _ _ _ _ Hreach) as [_ Hwire _].
  assert (Hfi : 0 < flushInterval) by (unfold flushInterval, Millisecond; lia).
  destruct (Hstream Hpc) as (b0 & Hb0 & Herr & _).
  rewrite Hb in Hb0. inversion Hb0; subst b0; clear Hb0.
  destruct Hqueue as (q & Hq & _); [rewrite Hpc; discriminate|].
  assert (Hh : healthy (net st) (Bufio.wr b)).
  { exists k. split; [exact Hk|]. split; [exact Hquota|].
    apply (reach_open _ _ _ _ Hreach) with (c := Bufio.wr b); [|exact Hk].
    rewrite Hpc. discriminate. }
  destruct (healthy_drain (Chan.buf q) st q b Hpc Hq eq_refl Hb Herr Hh)
    as (st1 & b1 & Hr1 & Hpc1 & Hq1 & _ & Hb1 & Hwr1 & Herr1 & Hh1 & Ht1 & Hn1).
  assert (Hqd : queued st = Chan.buf q) by (unfold queued; rewrite Hq; reflexivity).
  rewrite Hqd.
  (* the tick is due after a flush interval *)
  destruct (ticker_advance_spec (now st1) (now st1 + flushInterval)
              (ticker (worker st1))) as (_ & _ & _ & _ & HC);
    [rewrite Ht1; lia|lia|rewrite Ht1, Hn1; lia|].
  rewrite Ht1, Hst, bool_decide_eq_false_2 in HC by (rewrite Hpc; discriminate).
  rewrite <- Ht1 in HC. specialize (HC eq_refl ltac:(rewrite Ht1, Hn1; lia)).
  rewrite <- Hwr1 in Hh1.
  destruct (Flush_healthy b1 (net st1) Herr1 Hh1)
    as (b2 & net2 & Hfl & Hh2 & Hwr2 & Herr2 & Hpend2).
  pose proof (run_two st1 (Elapse flushInterval) [] (elapse flushInterval st1) Tick [] _
                (Step_elapse st1 flushInterval ltac:(lia))
                (Step_tick (elapse flushInterval st1) b1 b2 net2 Hpc1 HC Hb1 Hfl))
    as Hr2.
  assert (Hr : run (repeat Recv (length (Chan.buf q)) ++ [Elapse flushInterval; Tick]) st
               = Returns (Written (Bufio.wr b) <$> Chan.buf q,
                          with_buffered
                            (with_net
                               (with_ticker (elapse flushInterval st1)
                                  (ticker_take (ticker (worker (elapse flushInterval st1)))))
                               net2)
                            (Some b2))).
  { rewrite run_app, Hr1. cbn [mbind outcome_bind]. rewrite Hr2.
    cbn [mbind outcome_bind mret outcome_ret app]. rewrite app_nil_r. reflexivity. }
  destruct Hh2 as (k2 & Hk2 & _). rewrite Hwr1 in Hk2.
  eexists _, k2. split; [exact Hr|].
  split; [exact Hpc1|]. split; [exact Hq1|]. split; [exact Hk2|].
  (* the bytes on the wire *)
  assert (Hrun' : run (evs ++ repeat Recv (length (Chan.buf q))
                       ++ [Elapse flushInterval; Tick]) (NewStatsiteSink a)
                  = Returns ((o ++ (Written (Bufio.wr b) <$> Chan.buf q))%list,
                             with_buffered
                               (with_net
                                  (with_ticker (elapse flushInterval st1)
                                     (ticker_take
                                        (ticker (worker (elapse flushInterval st1)))))
                                  net2)
                               (Some b2))).
  { rewrite run_app, Hrun. cbn [mbind outcome_bind]. rewrite Hr. reflexivity. }
  apply run_reach in Hrun'.
  pose proof (reach_wire _ _ _ _ Hrun') as [_ Hwire' _].
  specialize (Hwire' (Bufio.wr b) k2 b2 Hk2 Hpc1 eq_refl ltac:(congruence)).
  rewrite Hpend2, app_nil_r, handed_app, handed_Written in Hwire'.
  specialize (Hwire (Bufio.wr b) k b Hk Hpc Hb eq_refl).
  split; [|exact Hwire'].
  rewrite Hwire', bytes_of_app, <- Hwire, <- app_assoc. reflexivity.
Qed.

Lemma healthy_connection_delivers_witness :
  exists st' k',
    run (repeat Recv (length (queued st_shut)) ++ [Elapse flushInterval; Tick]) st_shut
    = Returns (Written (Bufio.wr (Bufio.NewWriter 0)) <$> queued st_shut, st') /\
    pc (worker st') = STREAM /\ queued st' = [] /\
    net st' !! Bufio.wr (Bufio.NewWriter 0) = Some k' /\
    Net.wire k'
    = (Net.wire (Net.fresh None) ++ Bufio.pending (Bufio.NewWriter 0)
       ++ bytes_of (queued st_shut))%list /\
    Net.wire k'
    = bytes_of (handed (Bufio.wr (Bufio.NewWriter 0))
                  [Enqueued line_a; Enqueued line_b] ++ queued st_shut).
Proof.
  apply (healthy_connection_delivers "h:8125" evs_shut
           [Enqueued line_a; Enqueued line_b] st_shut
           (Bufio.NewWriter 0) (Net.fresh None)); reflexivity.
Defined.

(** ** Every line is accounted for *)

Lemma taken_parts o :
  length (taken o)
  = (length (written o) + length (failed o) + length (discarded o))%nat.
Proof.
  unfold taken, written, failed, discarded.
  induction o as [|[] o IH]; cbn in *; lia.
Qed.

Lemma reach_pushes a evs o st :
  reach a evs o st ->
  pushes evs = (length (enqueued o) + length (dropped o))%nat.
Proof.
  induction 1 as [|evs o st ev o1 st1 Hr IH Hs]; [reflexivity|].
  unfold enqueued, dropped in *.
  rewrite pushes_app, !omap_app, !length_app, IH.
  destruct Hs; cbn; lia.
Qed.

(** X11. No line is lost from sight or counted twice: every emission is
    either enqueued or dropped by pushMetric, and every line enqueued
    is still on the queue or was received by the goroutine, which wrote
    it to a connection's buffer, failed to write it, or discarded it
    under WAIT. *)
Theorem every_line_is_accounted_for
    (a : string) (evs : list event) (o : list obs) (st : system) :
  run evs (NewStatsiteSink a) = Returns (o, st) ->
  pushes evs = (length (enqueued o) + length (dropped o))%nat /\
  enqueued o = (taken o ++ queued st)%list /\
  length (taken o)
  = (length (written o) + length (failed o) + length (discarded o))%nat /\
  pushes evs
  = (length (written o) + length (failed o) + length (discarded o)
     + length (queued st) + length (dropped o))%nat.
Proof.
  intros Hrun. apply run_reach in Hrun.
  pose proof (reach_pushes _ _ _ _ Hrun) as Hp.
  pose proof (reach_fifo _ _ _ _ Hrun) as Hf.
  pose proof (taken_parts o) as Ht.
  split; [exact Hp|]. split; [exact Hf|]. split; [exact Ht|].
  rewrite Hp, Hf, length_app. lia.
Qed.

Lemma every_line_is_accounted_for_witness :
  pushes evs_order = (length (enqueued obs_order) + length (dropped obs_order))%nat /\
  enqueued obs_order = (taken obs_order ++ queued st_order)%list /\
  length (taken obs_order)
  = (length (written obs_order) + length (failed obs_order)
     + length (discarded obs_order))%nat /\
  pushes evs_order
  = (length (written obs_order) + length (failed obs_order)
     + length (discarded obs_order)
     + length (queued st_order) + length (dropped obs_order))%nat.
Proof.
  apply (every_line_is_accounted_for "h:8125" evs_order obs_order st_order).
  vm_compute. reflexivity.
Defined.

Lemma length_append (s1 s2 : string) :
  String.length (s1 +:+ s2) = (String.length s1 + String.length s2)%nat.
Proof. induction s1 as [|c s1 IH]; simpl; [reflexivity|f_equal; exact IH]. Qed.

Lemma index_skip (s1 s2 p : string) (n : nat) :
  String.index (String.length s1 + n) p (s1 +:+ s2)
  = (fun r => (String.length s1 + r)%nat) <$> String.index n p s2.
Proof.
  induction s1 as [|b s1 IH].
  - change ("" +:+ s2) with s2. change (String.length "" + n)%nat with n.
    destruct (String.index n p s2); reflexivity.
  - change (String b s1 +:+ s2) with (String b (s1 +:+ s2)).
    change (String.length (String b s1) + n)%nat with (S (String.length s1 + n)).
    change (String.index (S (String.length s1 + n)) p (String b (s1 +:+ s2)))
      with (match String.index (String.length s1 + n) p (s1 +:+ s2) with
            | Some r => Some (S r)
            | None => None
            end).
    rewrite IH. destruct (String.index n p s2); reflexivity.
Qed.

Lemma substring_prefix (s1 s2 : string) :
  String.substring 0 (String.length s1) (s1 +:+ s2) = s1.
Proof.
  induction s1 as [|b s1 IH]; simpl.
  - destruct s2; reflexivity.
  - f_equal. exact IH.
Qed.

Lemma substring_skip (s1 s2 : string) (n m : nat) :
  String.substring (String.length s1 + n) m (s1 +:+ s2) = String.substring n m s2.
Proof. induction s1 as [|b s1 IH]; simpl; [reflexivity|exact IH]. Qed.

Lemma substring_all (s : string) : String.substring 0 (String.length s) s = s.
Proof. induction s as [|b s IH]; simpl; [reflexivity|f_equal; exact IH]. Qed.

(** X12. What flattenKey returns holds no colon and no space, so that
    in a line made of it, a colon and anything else, the first colon is
    the one after the key. Flattening is idempotent, and it can be done
    segment by segment: the dots that join the segments are kept. *)
Theorem flattenKey_output (parts : list string) (rest : string) :
  (":"%char ∉ list_ascii_of_string (flattenKey parts)) /\
  (" "%char ∉ list_ascii_of_string (flattenKey parts)) /\
  flattenKey [flattenKey parts] = flattenKey parts /\
  flattenKey parts = String.concat "." (map (fun p => flattenKey [p]) parts) /\
  String.index 0 ":" (flattenKey parts +:+ ":" +:+ rest)
  = Some (String.length (flattenKey parts)).
Proof.
  destruct (flattenKey_no_colon_no_space parts) as [Hcolon Hspace].
  split; [exact Hcolon|]. split; [exact Hspace|]. split.
  { rewrite flattenKey_single. unfold flattenKey.
    apply Map_idempotent; intros r; apply (flattenKey_mapping r). }
  split; [apply flattenKey_segments|].
  apply index_first. exact Hcolon.
Qed.

(** ** The printed value, character by character *)

Lemma string_of_uint_digits (d : Decimal.uint) :
  Forall (fun c => c ∈ list_ascii_of_string "0123456789")
         (list_ascii_of_string (NilEmpty.string_of_uint d)).
Proof.
  induction d; simpl; constructor; auto;
    apply list_elem_of_In; simpl; tauto.
Qed.

Lemma length_string_of_uint (d : Decimal.uint) :
  String.length (NilEmpty.string_of_uint d) = Decimal.nb_digits d.
Proof. induction d; simpl; congruence. Qed.

(** The number a digit sequence ends as, when the digits before it
    amount to [acc]. *)
Lemma of_uint_acc_bounds (l : Decimal.uint) (acc : positive) :
  (N.pos acc * 10 ^ N.of_nat (Decimal.nb_digits l)
   <= N.pos (Pos.of_uint_acc l acc)
   < (N.pos acc + 1) * 10 ^ N.of_nat (Decimal.nb_digits l))%N.
Proof.
  revert acc. induction l as [|l IH|l IH|l IH|l IH|l IH|l IH|l IH|l IH|l IH|l IH];
    intros acc;
    [ simpl; lia
    | cbn [Decimal.nb_digits Pos.of_uint_acc];
      rewrite Nat2N.inj_succ, N.pow_succ_r';
      match goal with
      | |- context [Pos.of_uint_acc l ?acc'] => specialize (IH acc')
      end;
      set (P := (10 ^ N.of_nat (Decimal.nb_digits l))%N) in *;
      nia .. ].
Qed.

Lemma nzhead_no_zero (u l : Decimal.uint) : Decimal.nzhead u <> Decimal.D0 l.
Proof. induction u; simpl; try discriminate. exact IHu. Qed.

(** A number of seven digits that starts with 1. *)
Lemma to_uint_seven (m : N) :
  (10 ^ 6 <= m < 2 * 10 ^ 6)%N ->
  exists l, N.to_uint m = Decimal.D1 l /\ Decimal.nb_digits l = 6%nat.
Proof.
  intros Hm.
  pose proof (DecimalN.Unsigned.of_to m) as Hof.
  pose proof (DecimalN.Unsigned.to_of (N.to_uint m)) as Hnorm.
  rewrite Hof in Hnorm.
  destruct (N.to_uint m) as [|l|l|l|l|l|l|l|l|l|l] eqn:Hd.
  1: discriminate Hnorm.
  1: { unfold Decimal.unorm in Hnorm. cbn [Decimal.nzhead] in Hnorm.
       destruct (Decimal.nzhead l) eqn:Hz; try discriminate Hnorm.
       - injection Hnorm as ->. simpl in Hof. lia.
       - exfalso. exact (nzhead_no_zero _ _ Hz). }
  all: simpl in Hof;
    match type of Hof with
    | N.pos (Pos.of_uint_acc ?l' ?k) = _ =>
        pose proof (of_uint_acc_bounds l' k) as Hb; rewrite Hof in Hb;
        assert (H5 : (Decimal.nb_digits l' <= 5)%nat ->
                     (10 ^ N.of_nat (Decimal.nb_digits l') <= 10 ^ 5)%N)
          by (intros; apply N.pow_le_mono_r; lia);
        assert (H7 : (7 <= Decimal.nb_digits l')%nat ->
                     (10 ^ 7 <= 10 ^ N.of_nat (Decimal.nb_digits l'))%N)
          by (intros; apply N.pow_le_mono_r; lia);
        assert (H6 : Decimal.nb_digits l' = 6%nat ->
                     (10 ^ N.of_nat (Decimal.nb_digits l') = 10 ^ 6)%N)
          by (intros ->; reflexivity);
        change (10 ^ 5)%N with 100000%N in *;
        change (10 ^ 6)%N with 1000000%N in *;
        change (10 ^ 7)%N with 10000000%N in *;
        destruct (Nat.lt_trichotomy (Decimal.nb_digits l') 6) as [Hlt|[Heq|Hgt]];
        [ specialize (H5 ltac:(lia)); exfalso; lia
        | specialize (H6 Heq);
          first [exfalso; lia | exists l'; split; [reflexivity|exact Heq]]
        | specialize (H7 ltac:(lia)); exfalso; lia ]
    end.
Qed.

Lemma decimal_digits (n : Z) :
  Fmt.decimal n <> "" /\
  Forall (fun c => c ∈ list_ascii_of_string "0123456789")
         (list_ascii_of_string (Fmt.decimal n)).
Proof.
  unfold Fmt.decimal, NilZero.string_of_uint.
  destruct (N.to_uint (Z.to_N n)) eqn:Hd;
    (split; [simpl; discriminate|]); try apply string_of_uint_digits.
  repeat constructor.
Qed.

(** The fraction printed by [%f] has six digits. *)
Lemma six_digits_length (n : Z) :
  0 <= n < 10 ^ 6 ->
  String.length (Fmt.six_digits n) = 6%nat /\
  Forall (fun c => c ∈ list_ascii_of_string "0123456789")
         (list_ascii_of_string (Fmt.six_digits n)).
Proof.
  intros Hn. unfold Fmt.six_digits, Fmt.decimal, NilZero.string_of_uint.
  destruct (to_uint_seven (Z.to_N (10 ^ 6 + n))) as (l & Hl & Hlen).
  { change (10 ^ 6)%N with 1000000%N. change (10 ^ 6) with 1000000 in *. lia. }
  rewrite Hl. simpl. rewrite length_string_of_uint.
  split; [exact Hlen|apply string_of_uint_digits].
Qed.

Lemma digits_in_alphabet (s : string) :
  Forall (fun c => c ∈ list_ascii_of_string "0123456789") (list_ascii_of_string s) ->
  Forall (fun c => c ∈ list_ascii_of_string "0123456789.+-InfNa")
         (list_ascii_of_string s).
Proof.
  intros H. eapply Forall_impl; [exact H|]. intros c Hc.
  apply list_elem_of_In in Hc. apply list_elem_of_In. simpl in *. tauto.
Qed.

Lemma FormatFloat32_alphabet (val : Fmt.float32) :
  Forall (fun c => c ∈ list_ascii_of_string "0123456789.+-InfNa")
         (list_ascii_of_string (Fmt.FormatFloat32 val)).
Proof.
  unfold Fmt.FormatFloat32.
  destruct (Fmt.f32_exp val =? 255).
  - destruct (Fmt.f32_frac val =? 0); [destruct (Fmt.f32_sign val)|];
      repeat constructor; apply list_elem_of_In; simpl; tauto.
  - rewrite !list_ascii_app, !Forall_app.
    pose proof (Z.mod_pos_bound (Fmt.millionths val) (10 ^ 6) ltac:(lia)) as Hm.
    split; [|split; [|split]].
    + destruct (Fmt.f32_sign val); repeat constructor;
        apply list_elem_of_In; simpl; tauto.
    + apply digits_in_alphabet, decimal_digits.
    + repeat constructor; apply list_elem_of_In; simpl; tauto.
    + apply digits_in_alphabet, six_digits_length. exact Hm.
Qed.

Lemma FormatFloat32_no_bar (val : Fmt.float32) :
  "|"%char ∉ list_ascii_of_string (Fmt.FormatFloat32 val).
Proof.
  intros Hin. pose proof (FormatFloat32_alphabet val) as Ha.
  rewrite Forall_forall in Ha. specialize (Ha _ Hin).
  apply list_elem_of_In in Ha. simpl in Ha. intuition discriminate.
Qed.

(** X13. What [%f] prints of a float32 is made of digits, a point and a
    sign, or is one of [+Inf], [-Inf], [NaN]: it holds no bar (nor a
    colon or a newline), so that the first bar after it ends it. For a
    finite value it is a sign, an integer part of at least one digit, a
    point and exactly six digits. *)
Theorem FormatFloat32_shape (val : Fmt.float32) (rest : string) :
  Forall (fun c => c ∈ list_ascii_of_string "0123456789.+-InfNa")
         (list_ascii_of_string (Fmt.FormatFloat32 val)) /\
  String.index 0 "|" (Fmt.FormatFloat32 val +:+ "|" +:+ rest)
  = Some (String.length (Fmt.FormatFloat32 val)) /\
  (Fmt.f32_exp val <> 255 ->
   exists int frac,
     Fmt.FormatFloat32 val
     = (if Fmt.f32_sign val then "-" else "") +:+ int +:+ "." +:+ frac /\
     int <> "" /\ String.length frac = 6%nat /\
     Forall (fun c => c ∈ list_ascii_of_string "0123456789")
            (list_ascii_of_string int) /\
     Forall (fun c => c ∈ list_ascii_of_string "0123456789")
            (list_ascii_of_string frac)).
Proof.
  split; [apply FormatFloat32_alphabet|]. split.
  - apply index_first, FormatFloat32_no_bar.
  - intros Hfin. unfold Fmt.FormatFloat32.
    apply Z.eqb_neq in Hfin. rewrite Hfin.
    pose proof (Z.mod_pos_bound (Fmt.millionths val) (10 ^ 6) ltac:(lia)) as Hm.
    destruct (six_digits_length _ Hm) as [Hlen Hdig].
    destruct (decimal_digits (Fmt.millionths val / 10 ^ 6)) as [Hne Hint].
    eexists _, _. split; [reflexivity|]. auto.
Qed.

Lemma FormatFloat32_shape_witness :
  exists int frac,
    Fmt.FormatFloat32 0x3FC00000
    = (if Fmt.f32_sign 0x3FC00000 then "-" else "") +:+ int +:+ "." +:+ frac /\
    int <> "" /\ String.length frac = 6%nat /\
    Forall (fun c => c ∈ list_ascii_of_string "0123456789")
           (list_ascii_of_string int) /\
    Forall (fun c => c ∈ list_ascii_of_string "0123456789")
           (list_ascii_of_string frac).
Proof.
  apply (proj2 (proj2 (FormatFloat32_shape 0x3FC00000 ""))).
  vm_compute. discriminate.
Defined.

(** ** Reading a line back *)

Lemma append_assoc (s1 s2 s3 : string) : (s1 +:+ s2) +:+ s3 = s1 +:+ s2 +:+ s3.
Proof.
  induction s1 as [|c s1 IH]; [reflexivity|].
  change (String c ((s1 +:+ s2) +:+ s3) = String c (s1 +:+ s2 +:+ s3)).
  rewrite IH. reflexivity.
Qed.

(** The fields of a line: the key ends at the first colon, the value at
    the first bar after it, and the kind and the newline follow. *)
Lemma line_fields (k v kind : string) :
  ":"%char ∉ list_ascii_of_string k -> "|"%char ∉ list_ascii_of_string v ->
  String.index 0 ":" (k +:+ ":" +:+ v +:+ "|" +:+ kind +:+ nl)
  = Some (String.length k) /\
  String.substring 0 (String.length k) (k +:+ ":" +:+ v +:+ "|" +:+ kind +:+ nl) = k /\
  String.index (S (String.length k)) "|" (k +:+ ":" +:+ v +:+ "|" +:+ kind +:+ nl)
  = Some (S (String.length k) + String.length v)%nat /\
  String.substring (S (String.length k)) (String.length v)
    (k +:+ ":" +:+ v +:+ "|" +:+ kind +:+ nl) = v /\
  String.substring (S (String.length k) + S (String.length v)) (String.length kind + 1)
    (k +:+ ":" +:+ v +:+ "|" +:+ kind +:+ nl) = kind +:+ nl.
Proof.
  intros Hk Hv.
  assert (Hlk : S (String.length k) = (String.length (k +:+ ":") + 0)%nat).
  { rewrite length_append. simpl. lia. }
  assert (Hlkv : (S (String.length k) + S (String.length v))%nat
                 = (String.length (k +:+ ":" +:+ v +:+ "|") + 0)%nat).
  { rewrite !length_append. simpl. lia. }
  assert (Hkind : (String.length kind + 1)%nat = String.length (kind +:+ nl)).
  { rewrite length_append. reflexivity. }
  split; [apply index_first; exact Hk|].
  split; [apply substring_prefix|].
  split.
  { rewrite Hlk at 1. rewrite <- (append_assoc k ":"), index_skip.
    change ("|" +:+ kind +:+ nl) with (String "|" (kind +:+ nl)).
    rewrite (index_first "|" v (kind +:+ nl) Hv), length_append. simpl.
    f_equal. lia. }
  split.
  { rewrite Hlk. rewrite <- (append_assoc k ":"), substring_skip.
    apply substring_prefix. }
  rewrite Hlkv, Hkind.
  replace (k +:+ ":" +:+ v +:+ "|" +:+ kind +:+ nl)
    with ((k +:+ ":" +:+ v +:+ "|") +:+ kind +:+ nl)
    by (rewrite !append_assoc; reflexivity).
  rewrite substring_skip. apply substring_all.
Qed.

(** X14. Every emission operation pushes one line that reads back: the
    text before its first colon is the flattened key, the text between
    that colon and the next bar is the value as [%f] prints it, and
    what is left is the kind and a newline. Keys that hold a colon are
    no exception, since flattenKey has replaced it; nor are keys that
    hold a bar, since the bar is looked for after the colon. *)
Theorem emitted_line_reads_back
    (key : list string) (val : Fmt.float32) (labels : list Label) :
  let v := Fmt.FormatFloat32 val in
  let reads_back (line k kind : string) : Prop :=
    String.index 0 ":" line = Some (String.length k) /\
    String.substring 0 (String.length k) line = k /\
    String.index (S (String.length k)) "|" line
    = Some (S (String.length k) + String.length v)%nat /\
    String.substring (S (String.length k)) (String.length v) line = v /\
    String.substring (S (String.length k) + S (String.length v))
      (String.length kind + 1) line = kind +:+ nl in
  let emits (op : StatsiteSink -> outcome StatsiteSink) (k kind : string) : Prop :=
    exists line, (forall s, op s = pushMetric s line) /\ reads_back line k kind in
  emits (fun s => SetGauge s key val) (flattenKey key) "g" /\
  emits (fun s => EmitKey s key val) (flattenKey key) "kv" /\
  emits (fun s => IncrCounter s key val) (flattenKey key) "c" /\
  emits (fun s => AddSample s key val) (flattenKey key) "ms" /\
  emits (fun s => SetGaugeWithLabels s key val labels)
    (flattenKeyLabels key labels) "g" /\
  emits (fun s => IncrCounterWithLabels s key val labels)
    (flattenKeyLabels key labels) "c" /\
  emits (fun s => AddSampleWithLabels s key val labels)
    (flattenKeyLabels key labels) "ms".
Proof.
  cbn zeta.
  assert (Hkey : forall parts, ":"%char ∉ list_ascii_of_string (flattenKey parts)).
  { intros parts. apply flattenKey_no_colon_no_space. }
  pose proof (FormatFloat32_no_bar val) as Hval.
  assert (Hline : forall parts kind,
            let line := flattenKey parts +:+ ":" +:+ Fmt.FormatFloat32 val
                        +:+ "|" +:+ kind +:+ nl in
            String.index 0 ":" line = Some (String.length (flattenKey parts)) /\
            String.substring 0 (String.length (flattenKey parts)) line
            = flattenKey parts /\
            String.index (S (String.length (flattenKey parts))) "|" line
            = Some (S (String.length (flattenKey parts))
                    + String.length (Fmt.FormatFloat32 val))%nat /\
            String.substring (S (String.length (flattenKey parts)))
              (String.length (Fmt.FormatFloat32 val)) line
            = Fmt.FormatFloat32 val /\
            String.substring (S (String.length (flattenKey parts))
                              + S (String.length (Fmt.FormatFloat32 val)))
              (String.length kind + 1) line = kind +:+ nl).
  { intros parts kind. apply line_fields; [apply Hkey|exact Hval]. }
  unfold flattenKeyLabels.
  repeat apply conj.
  - exists (flattenKey key +:+ ":" +:+ Fmt.FormatFloat32 val +:+ "|" +:+ "g" +:+ nl).
    split; [intros s; reflexivity|apply Hline].
  - exists (flattenKey key +:+ ":" +:+ Fmt.FormatFloat32 val +:+ "|" +:+ "kv" +:+ nl).
    split; [intros s; reflexivity|apply Hline].
  - exists (flattenKey key +:+ ":" +:+ Fmt.FormatFloat32 val +:+ "|" +:+ "c" +:+ nl).
    split; [intros s; reflexivity|apply Hline].
  - exists (flattenKey key +:+ ":" +:+ Fmt.FormatFloat32 val +:+ "|" +:+ "ms" +:+ nl).
    split; [intros s; reflexivity|apply Hline].
  - eexists (flattenKey _ +:+ ":" +:+ Fmt.FormatFloat32 val +:+ "|" +:+ "g" +:+ nl).
    split; [intros s; reflexivity|apply Hline].
  - eexists (flattenKey _ +:+ ":" +:+ Fmt.FormatFloat32 val +:+ "|" +:+ "c" +:+ nl).
    split; [intros s; reflexivity|apply Hline].
  - eexists (flattenKey _ +:+ ":" +:+ Fmt.FormatFloat32 val +:+ "|" +:+ "ms" +:+ nl).
    split; [intros s; reflexivity|apply Hline].
Qed.

(** ** A server that cannot be reached *)

Lemma reach_Unconnected a evs o st :
  reach a evs o st -> connects evs = 0%nat -> Unconnected evs o st.
Proof.
  induction 1 as [|evs o st ev o1 st1 Hr IH Hs]; intros Hc.
  - split; try reflexivity; [discriminate|constructor].
  - rewrite connects_app in Hc.
    destruct IH as [Hpc Hnet Htk Hwr Hfl Hlog Hlines]; [lia|].
    assert (Happ : forall o1,
              taken o1 = discarded o1 -> written o1 = [] -> failed o1 = [] ->
              taken (o ++ o1) = discarded (o ++ o1) /\
              written (o ++ o1) = [] /\ failed (o ++ o1) = []).
    { intros o2 H1 H2 H3. unfold taken, discarded, written, failed in *.
      rewrite !omap_app, Htk, Hwr, Hfl, H1, H2, H3. auto. }
    inversion Hs; subst; try contradiction.
    all: try match goal with
           | r : (option nat + string)%type |- _ => destruct r; [cbn in Hc; lia|]
           end.
    all: match goal with
         | |- Unconnected _ (_ ++ ?o2) _ =>
             destruct (Happ o2) as (Ht & Hw & Hf); [reflexivity..|]
         end.
    all: split; rewrite ?dials_app; cbn [dials]; fields;
      rewrite ?Nat.add_0_r, ?length_app; cbn [length];
      try assumption; try discriminate; try congruence; try lia.
    + apply Forall_app. split; [exact Hlines|].
      constructor; [|constructor]. eexists. apply log_line_connecting.
    + apply nil_length_inv. rewrite Net_Close_all_length, Hnet. reflexivity.
Qed.

(** X15. As long as no Dial has succeeded, nothing is sent and nothing
    is written: there is no connection, every line the goroutine has
    received was discarded under WAIT, and the log has one connecting
    error for each Dial. *)
Theorem unreachable_server_discards
    (a : string) (evs : list event) (o : list obs) (st : system) :
  run evs (NewStatsiteSink a) = Returns (o, st) ->
  connects evs = 0%nat ->
  net st = [] /\ pc (worker st) <> STREAM /\
  written o = [] /\ failed o = [] /\ taken o = discarded o /\
  enqueued o = (discarded o ++ queued st)%list /\
  length (log st) = dials evs /\
  Forall (fun l => exists e, l = "[ERR] Error connecting to statsite! Err: " +:+ e)
         (log st).
Proof.
  intros Hrun Hc. apply run_reach in Hrun.
  destruct (reach_Unconnected _ _ _ _ Hrun Hc) as [Hpc Hnet Htk Hwr Hfl Hlog Hlines].
  pose proof (reach_fifo _ _ _ _ Hrun) as Hfifo. rewrite Htk in Hfifo.
  auto 10.
Qed.

Lemma unreachable_server_discards_witness :
  net st_waiting = [] /\ pc (worker st_waiting) <> STREAM /\
  written [Enqueued line_a; Enqueued line_b] = [] /\
  failed [Enqueued line_a; Enqueued line_b] = [] /\
  taken [Enqueued line_a; Enqueued line_b]
  = discarded [Enqueued line_a; Enqueued line_b] /\
  enqueued [Enqueued line_a; Enqueued line_b]
  = (discarded [Enqueued line_a; Enqueued line_b] ++ queued st_waiting)%list /\
  length (log st_waiting)
  = dials [Dial (inr "connection refused"); Push line_a; Push line_b] /\
  Forall (fun l => exists e, l = "[ERR] Error connecting to statsite! Err: " +:+ e)
         (log st_waiting).
Proof.
  apply (unreachable_server_discards "h:8125"
           [Dial (inr "connection refused"); Push line_a; Push line_b]
           [Enqueued line_a; Enqueued line_b] st_waiting).
  - vm_compute. reflexivity.
  - reflexivity.
Defined.

(** ** The connection a line goes to *)

Lemma conn_of_app o1 o2 : conn_of (o1 ++ o2) = (conn_of o1 ++ conn_of o2)%list.
Proof. apply omap_app. Qed.

Lemma ordered_snoc (l : list nat) (x : nat) :
  (forall i j ci cj, (i <= j)%nat -> l !! i = Some ci -> l !! j = Some cj ->
     (ci <= cj)%nat) ->
  Forall (fun c => (c <= x)%nat) l ->
  forall i j ci cj, (i <= j)%nat ->
    (l ++ [x])%list !! i = Some ci -> (l ++ [x])%list !! j = Some cj ->
    (ci <= cj)%nat.
Proof.
  intros Hord Hall i j ci cj Hij Hi Hj.
  apply lookup_app_Some in Hi as [Hi|[Hli Hi]];
    apply lookup_app_Some in Hj as [Hj|[Hlj Hj]].
  - exact (Hord i j ci cj Hij Hi Hj).
  - destruct (j - length l)%nat; [|discriminate]. inversion Hj; subst.
    rewrite Forall_forall in Hall. apply Hall. eapply list_elem_of_lookup_2, Hi.
  - apply lookup_lt_Some in Hj. lia.
  - destruct (i - length l)%nat; [|discriminate].
    destruct (j - length l)%nat; [|discriminate].
    inversion Hi; inversion Hj; subst. lia.
Qed.

Lemma reach_conn_order a evs o st :
  reach a evs o st ->
  Forall (fun c => (c < length (net st))%nat) (conn_of o) /\
  forall i j ci cj, (i <= j)%nat ->
    conn_of o !! i = Some ci -> conn_of o !! j = Some cj -> (ci <= cj)%nat.
Proof.
  induction 1 as [|evs o st ev o1 st1 Hr IH Hs].
  - split; [constructor|]. intros i j ci cj _ Hi. discriminate Hi.
  - destruct IH as [Hall Hord].
    pose proof (reach_Inv _ _ _ _ Hr) as [_ _ _ Hstream].
    pose proof (Step_net_length _ _ _ _ Hs) as Hlen.
    assert (Hall' : Forall (fun c => (c < length (net st1))%nat) (conn_of o)).
    { eapply Forall_impl; [exact Hall|]. cbn. intros c Hc. lia. }
    rewrite conn_of_app.
    assert (Hcase : conn_of o1 = [] \/
                    exists c, conn_of o1 = [c] /\ S c = length (net st) /\
                              length (net st1) = length (net st)).
    { inversion Hs; subst; try (left; reflexivity); right;
        use_inv; simplify_eq; use_bufio;
        eexists; (split; [reflexivity|]); split; auto. }
    destruct Hcase as [Hnil|(c & Hc & Hlast & Hsame)].
    + rewrite Hnil, app_nil_r. split; [exact Hall'|exact Hord].
    + rewrite Hc. split.
      * apply Forall_app. split; [exact Hall'|]. constructor; [lia|constructor].
      * apply ordered_snoc; [exact Hord|].
        eapply Forall_impl; [exact Hall|]. cbn. intros c' Hc'. lia.
Qed.

(** X16. Every line goes to the connection that is the newest when it
    is written: in the order of the writes the connections never go
    back to an earlier one, each is one that has been made, and in the
    stream loop the current one is the last that was made. *)
Theorem lines_go_to_the_newest_connection
    (a : string) (evs : list event) (o : list obs) (st : system) :
  run evs (NewStatsiteSink a) = Returns (o, st) ->
  (forall i j ci cj, (i <= j)%nat ->
     conn_of o !! i = Some ci -> conn_of o !! j = Some cj -> (ci <= cj)%nat) /\
  Forall (fun c => (c < connects evs)%nat) (conn_of o) /\
  (pc (worker st) = STREAM ->
   exists b, buffered (worker st) = Some b /\
             sock (worker st) = Some (Bufio.wr b) /\
             S (Bufio.wr b) = connects evs).
Proof.
  intros Hrun. apply run_reach in Hrun.
  destruct (reach_conn_order _ _ _ _ Hrun) as [Hall Hord].
  pose proof (reach_Conns _ _ _ _ Hrun) as [Hlen _ _ _ _].
  pose proof (reach_Inv _ _ _ _ Hrun) as [_ _ _ Hstream].
  rewrite Hlen in Hall. split; [exact Hord|]. split; [exact Hall|].
  intros Hpc. destruct (Hstream Hpc) as (b & Hb & _ & Hsock & Hl).
  exists b. rewrite <- Hlen. auto.
Qed.

Lemma lines_go_to_the_newest_connection_witness :
  (forall i j ci cj, (i <= j)%nat ->
     conn_of obs_order !! i = Some ci -> conn_of obs_order !! j = Some cj ->
     (ci <= cj)%nat) /\
  Forall (fun c => (c < connects evs_order)%nat) (conn_of obs_order) /\
  (pc (worker st_order) = STREAM ->
   exists b, buffered (worker st_order) = Some b /\
             sock (worker st_order) = Some (Bufio.wr b) /\
             S (Bufio.wr b) = connects evs_order).
Proof.
  apply (lines_go_to_the_newest_connection "h:8125" evs_order obs_order st_order).
  vm_compute. reflexivity.
Defined.
